(** * The merge module of the learningMachine: format parser, selectors,
      source list and periodic module, embedded from merge.cpp.

    Conventions of the embedding.
    - A [Bottle] is the ordered list of its [Value]s.  [Bottle::get]
      follows YARP's contract: outside the range it hands back the null
      value, it never throws.
    - A C++ [int] is a [Z] inside [INT_MIN, INT_MAX]; the two counters
      the code increments in a loop have their wrap-around written out.
    - [std::runtime_error] is the type [error], one constructor per
      [throw] of the file, and one for the [std::out_of_range] of
      [substr]; a function that can throw returns an [outcome].
    - A [std::string] is a [string], NUL characters included; where the
      code builds a string from [c_str()], the cut at the first NUL is
      written out ([c_str]).
    - A [double] is a binary64 primitive float. *)

From Stdlib Require Import ZArith Ascii List Lia Bool.
From Stdlib Require Import Floats.PrimFloat.
From Stdlib Require Uint63.
From stdpp Require Import gmap strings.

Import ListNotations.
Local Open Scope Z_scope.
Set Warnings "-register-all".

(* ===================================================================== *)
(** ** Values and bottles (yarp::os::Value, yarp::os::Bottle)             *)
(* ===================================================================== *)

Inductive Value : Type :=
| VNull
| VInt32 (n : Z)
| VFloat64 (d : float)
| VString (s : string)
| VVocab32 (v : Z)
| VList (l : list Value).

Abbreviation Bottle := (list Value).

Definition isList (v : Value) : bool :=
  match v with VList _ => true | _ => false end.

Definition isString (v : Value) : bool :=
  match v with VString _ => true | _ => false end.

Definition isInt32 (v : Value) : bool :=
  match v with VInt32 _ => true | _ => false end.

Definition isFloat64 (v : Value) : bool :=
  match v with VFloat64 _ => true | _ => false end.

(** [Value::asList()] is a pointer, null when the value is no list. *)
Definition asList (v : Value) : option Bottle :=
  match v with VList l => Some l | _ => None end.

(** [Bottle::size()]. *)
Definition Bottle_size (b : Bottle) : Z := Z.of_nat (length b).

(** [Bottle::get(idx)]: the null value when [idx] is not a position. *)
Definition get (b : Bottle) (idx : Z) : Value :=
  if (0 <=? idx) && (idx <? Bottle_size b) then nth (Z.to_nat idx) b VNull
  else VNull.

(** [Bottle::add(v)] appends a copy of [v]. *)
Definition add (b : Bottle) (v : Value) : Bottle := b ++ [v].

(* ===================================================================== *)
(** ** Errors and outcomes                                                *)
(* ===================================================================== *)

(** One constructor per [throw std::runtime_error(...)] of the file, named
    after its message; the argument is what the code appends to the
    message (for [UnexpectedToken], the value whose [asString()] it
    appends).  [SubstrOutOfRange] is the [std::out_of_range] of
    [std::string::substr], the one exception the file can get from the
    standard library. *)
Inductive error : Type :=
| CannotFindPort (dst : string)
| InexistentSource
| CannotIndexNonList
| MissingClosingBracket
| UnexpectedOpeningBracket
| UnexpectedProblemParsing (tok : string)
| EndOfRangeBeforeStart (tok : string)
| IllegalRangeSpecification (tok : string)
| CouldNotReadInteger (str : string)
| UnexpectedToken (tok : Value)
| CouldNotRegisterPort (name : string)
| FormatMustBeList
| FrequencyNotPositive
| SubstrOutOfRange.

(** The result of a call: a value, an exception, or [Undefined] when the
    C++ has no defined behaviour (a loop counter that overflows, a null
    pointer or an end iterator dereferenced, a failed [assert]). *)
Inductive outcome (A : Type) : Type :=
| Ok (a : A)
| Throw (e : error)
| Undefined.

Arguments Ok {A} a.
Arguments Throw {A} e.
Arguments Undefined {A}.

Definition bind {A B : Type} (m : outcome A) (k : A -> outcome B) : outcome B :=
  match m with
  | Ok a => k a
  | Throw e => Throw e
  | Undefined => Undefined
  end.

Notation "x <- m ;; k" := (bind m (fun x => k))
  (at level 100, m at next level, right associativity).

Definition isThrow {A : Type} (m : outcome A) : bool :=
  match m with Throw _ => true | _ => false end.

(* ===================================================================== *)
(** ** std::string: find, substr                                          *)
(* ===================================================================== *)

Abbreviation npos := (@None nat).

(** [s.find(str, pos)] where [str] is the one character [c], as
    [loadFormat] calls it with "[" and "]": the first position [>= pos]
    holding [c], [npos] when there is none.  It is [findString] below at
    a pattern of one character ([findString_char]). *)
Fixpoint find (s : string) (c : ascii) (pos : nat) : option nat :=
  match s with
  | EmptyString => npos
  | String a r =>
      match pos with
      | O => if Ascii.eqb a c then Some O else option_map S (find r c O)
      | S p => option_map S (find r c p)
      end
  end.

Fixpoint sdrop (n : nat) (s : string) : string :=
  match n, s with
  | O, _ => s
  | S _, EmptyString => EmptyString
  | S n', String _ r => sdrop n' r
  end.

Fixpoint stake (n : nat) (s : string) : string :=
  match n, s with
  | O, _ => EmptyString
  | S _, EmptyString => EmptyString
  | S n', String a r => String a (stake n' r)
  end.

(** [p] is the front of [s]. *)
Fixpoint startsWith (p s : string) : bool :=
  match p, s with
  | EmptyString, _ => true
  | String _ _, EmptyString => false
  | String a p', String b s' => Ascii.eqb b a && startsWith p' s'
  end.

(** [s.find(str, pos)] for a string pattern: the first position
    [>= pos] where [str] occurs, [npos] when there is none.  The empty
    pattern occurs at every position up to [s.size()], and nothing is
    found from a position behind [s.size()]. *)
Fixpoint findString (s str : string) (pos : nat) {struct s} : option nat :=
  match pos with
  | O =>
      if startsWith str s then Some O
      else match s with
           | EmptyString => npos
           | String _ r => option_map S (findString r str O)
           end
  | S p =>
      match s with
      | EmptyString => npos
      | String _ r => option_map S (findString r str p)
      end
  end.

(** [s.substr(pos, len)], [len = npos] for "to the end", where
    [pos <= s.size()]; with [pos > s.size()] substr throws
    [std::out_of_range], which the callers below write out. *)
Definition substr (s : string) (pos : nat) (len : option nat) : string :=
  match len with
  | Some n => stake n (sdrop pos s)
  | None => sdrop pos s
  end.

(* ===================================================================== *)
(** ** IndexSelector::split                                               *)
(* ===================================================================== *)

(** The [while (end != npos)] loop; [None] is "out of fuel".  A round
    searches the delimiter from [start], takes the part in front of it
    ([substr] throws when [start] is behind the end of the input) and
    goes on one character behind the position found, whatever the length
    of the delimiter. *)
Fixpoint split_loop (fuel : nat) (input delimiter : string)
    (start : nat) (output : list string) : option (outcome (list string)) :=
  match fuel with
  | O => None
  | S fuel' =>
      let e := findString input delimiter start in
      if (String.length input <? start)%nat then Some (Throw SubstrOutOfRange)
      else
        let output' :=
          output ++ [substr input start
                       (match e with None => npos | Some e' => Some (e' - start)%nat end)] in
        match e with
        | None => Some (Ok output')
        | Some e' => split_loop fuel' input delimiter (e' + 1)%nat output'
        end
  end.

(** Each round moves [start] at least one character on and the loop ends
    when [start] is behind the end of the input, so
    [S (S (length input))] rounds are enough ([split_fuel] below). *)
Definition split (input delimiter : string) : outcome (list string) :=
  match split_loop (S (S (String.length input))) input delimiter 0%nat [] with
  | Some out => out
  | None => Undefined
  end.

(* ===================================================================== *)
(** ** IndexSelector::stringToInt                                         *)
(* ===================================================================== *)

Definition INT_MAX : Z := 2147483647.
Definition INT_MIN : Z := -2147483648.

(** Two's complement wrap-around of a 32-bit [int]. *)
Definition wrap32 (z : Z) : Z := (z + 2147483648) mod 4294967296 - 2147483648.

(** [std::isspace] in the C locale. *)
Definition isspace (c : ascii) : bool :=
  let n := nat_of_ascii c in
  (n =? 32)%nat || ((9 <=? n)%nat && (n <=? 13)%nat).

Definition isdigit (c : ascii) : bool :=
  let n := nat_of_ascii c in (48 <=? n)%nat && (n <=? 57)%nat.

Definition digitValue (c : ascii) : Z := Z.of_nat (nat_of_ascii c) - 48.

Fixpoint skipws (s : string) : string :=
  match s with
  | String c r => if isspace c then skipws r else s
  | EmptyString => s
  end.

(** The digits at the head of [s], accumulated in base ten: [None] when
    [s] does not start with a digit. *)
Fixpoint readDigits (s : string) (acc : option Z) : option Z :=
  match s with
  | String c r =>
      if isdigit c
      then readDigits r (Some (10 * default 0 acc + digitValue c))
      else acc
  | EmptyString => acc
  end.

(** [buffer >> ret] on a fresh [std::istringstream]: white space is
    skipped, then an optional sign and the longest run of digits are
    read; the extraction fails when there is no digit or the number does
    not fit an [int].  What follows the digits stays in the stream. *)
Definition extractInt (str : string) : option Z :=
  let s := skipws str in
  let '(neg, s') :=
    match s with
    | String c r =>
        if Ascii.eqb c "+" then (false, r)
        else if Ascii.eqb c "-" then (true, r)
        else (false, s)
    | EmptyString => (false, s)
    end in
  match readDigits s' None with
  | Some v =>
      let v' := if neg then - v else v in
      if (INT_MIN <=? v') && (v' <=? INT_MAX) then Some v' else None
  | None => None
  end.

Definition stringToInt (str : string) : outcome Z :=
  match extractInt str with
  | Some ret => Ok ret
  | None => Throw (CouldNotReadInteger str)
  end.

(* ===================================================================== *)
(** ** IndexSelector::loadIndices                                         *)
(* ===================================================================== *)

(** [for (int idx = start; idx <= end; idx++) idxList.push_back(idx)].
    [None] is "out of fuel": with [end = INT_MAX] the test never fails
    and [idx++] overflows. *)
Fixpoint rangeLoop (fuel : nat) (idx e : Z) (idxList : list Z) : option (list Z) :=
  if idx <=? e then
    match fuel with
    | O => None
    | S fuel' => rangeLoop fuel' (wrap32 (idx + 1)) e (idxList ++ [idx])
    end
  else Some idxList.

(** One round of the loop over [indexSplit]: the token [tok] extends
    [idxList]. *)
Definition loadIndex (tok : string) (idxList : list Z) : outcome (list Z) :=
  rangeSplit <- split tok "-" ;;
  match rangeSplit with
  | [] => Throw (UnexpectedProblemParsing tok)
  | [single] =>
      i <- stringToInt single ;;
      Ok (idxList ++ [i])
  | [first; second] =>
      start <- stringToInt first ;;
      e <- stringToInt second ;;
      if e <? start then Throw (EndOfRangeBeforeStart tok)
      else match rangeLoop (Z.to_nat (e - start + 1)) start e idxList with
           | Some l => Ok l
           | None => Undefined
           end
  | _ => Throw (IllegalRangeSpecification tok)
  end.

Fixpoint loadIndexSplit (indexSplit : list string) (idxList : list Z)
    : outcome (list Z) :=
  match indexSplit with
  | [] => Ok idxList
  | tok :: rest =>
      idxList' <- loadIndex tok idxList ;;
      loadIndexSplit rest idxList'
  end.

(** [loadIndices(format)] returns the list it pushes on [indices]. *)
Definition loadIndices (format : string) : outcome (list Z) :=
  indexSplit <- split format "," ;;
  loadIndexSplit indexSplit [].

(* ===================================================================== *)
(** ** Selectors                                                          *)
(* ===================================================================== *)

(** The class hierarchy under [DataSelector]. *)
Inductive DataSelector : Type :=
| IndexSelector (name : string) (indices : list (list Z))
| CompositeSelector (children : list DataSelector)
| RootSelector (children : list DataSelector).

(** The [while (idxStart != npos)] loop of [IndexSelector::loadFormat];
    the outer [None] is "out of fuel". *)
Fixpoint loadFormat_loop (fuel : nat) (format : string) (idxStart : nat)
    (indices : list (list Z)) : option (outcome (list (list Z))) :=
  match fuel with
  | O => None
  | S fuel' =>
      match find format "]" idxStart with
      | None => Some (Throw MissingClosingBracket)
      | Some idxEnd =>
          match loadIndices (substr format (idxStart + 1)
                               (Some (idxEnd - idxStart - 1)%nat)) with
          | Ok idxList =>
              let indices' := indices ++ [idxList] in
              match find format "[" (idxStart + 1) with
              | None => Some (Ok indices')
              | Some idxStart' =>
                  if (idxStart' <? idxEnd)%nat
                  then Some (Throw UnexpectedOpeningBracket)
                  else loadFormat_loop fuel' format idxStart' indices'
              end
          | Throw e => Some (Throw e)
          | Undefined => Some Undefined
          end
      end
  end.

(** [IndexSelector::IndexSelector(format)], that is [loadFormat].  The
    loop moves to a later bracket at each round and never uses up its
    fuel ([loadFormat_loop_fuel] below). *)
Definition loadIndexFormat (format : string) : outcome DataSelector :=
  let idxStart := find format "[" 0%nat in
  let name := substr format 0%nat idxStart in
  match idxStart with
  | None => Ok (IndexSelector name [])
  | Some i =>
      match loadFormat_loop (S (String.length format)) format i [] with
      | Some r => indices <- r ;; Ok (IndexSelector name indices)
      | None => Undefined
      end
  end.

(** [std::string(s.c_str())]: a string passed on through its C string
    ends in front of its first NUL character. *)
Fixpoint c_str (s : string) : string :=
  match s with
  | EmptyString => EmptyString
  | String c r =>
      if Ascii.eqb c Ascii.zero then EmptyString else String c (c_str r)
  end.

(** [CompositeSelector::loadFormat] on one element of the format bottle:
    a string is an [IndexSelector] (built from [asString().c_str()]), a
    list a [CompositeSelector] built from its elements in order,
    anything else is refused. *)
Fixpoint loadSpecifier (v : Value) : outcome DataSelector :=
  match v with
  | VString s => loadIndexFormat (c_str s)
  | VList l =>
      children <-
        (fix loadElements (format : Bottle) : outcome (list DataSelector) :=
           match format with
           | [] => Ok []
           | x :: rest =>
               child <- loadSpecifier x ;;
               children <- loadElements rest ;;
               Ok (child :: children)
           end) l ;;
      Ok (CompositeSelector children)
  | _ => Throw (UnexpectedToken v)
  end.

(** [CompositeSelector::loadFormat(format)]: the children, in order. *)
Fixpoint loadFormat (format : Bottle) : outcome (list DataSelector) :=
  match format with
  | [] => Ok []
  | x :: rest =>
      child <- loadSpecifier x ;;
      children <- loadFormat rest ;;
      Ok (child :: children)
  end.

(** [new RootSelector(format)]: the constructor of [CompositeSelector]
    runs [loadFormat]; only [select] is overridden. *)
Definition newRootSelector (format : Bottle) : outcome DataSelector :=
  children <- loadFormat format ;;
  Ok (RootSelector children).

(* ===================================================================== *)
(** ** toString                                                           *)
(* ===================================================================== *)

(** The character of the digit [k]. *)
Definition digitChar (k : Z) : ascii := ascii_of_nat (Z.to_nat (48 + k)).

(** [buffer << n] for a non-negative [n]: its decimal digits in front of
    [acc].  The fuel is the number of digits at most. *)
Fixpoint putDigits (fuel : nat) (n : Z) (acc : string) : string :=
  let acc' := String (digitChar (n mod 10)) acc in
  match fuel with
  | O => acc'
  | S fuel' => if n <? 10 then acc' else putDigits fuel' (n / 10) acc'
  end.

(** [buffer << n] for an [int]. *)
Definition itoa (n : Z) : string :=
  if n <? 0
  then String "-" (putDigits (Z.to_nat (Z.log2 (- n))) (- n) "")
  else putDigits (Z.to_nat (Z.log2 n)) n "".

(** [std::string(indent, ' ')]. *)
Fixpoint spaces (indent : nat) : string :=
  match indent with
  | O => ""
  | S n => String " " (spaces n)
  end.

Definition endl : string := String (ascii_of_nat 10) "".

Fixpoint sconcat (l : list string) : string :=
  match l with
  | [] => ""
  | s :: r => s +:+ sconcat r
  end.

(** One bracket group: the indices separated by commas. *)
Fixpoint putIndices (first : bool) (l : list Z) : string :=
  match l with
  | [] => ""
  | i :: r => (if first then "" else ",") +:+ itoa i +:+ putIndices false r
  end.

Definition putGroup (l : list Z) : string := "[" +:+ putIndices true l +:+ "]".

Fixpoint toString (ds : DataSelector) (indent : nat) : string :=
  match ds with
  | IndexSelector name indices =>
      spaces indent +:+ name +:+ sconcat (map putGroup indices) +:+ endl
  | CompositeSelector children | RootSelector children =>
      spaces indent +:+ "(" +:+ endl
      +:+ sconcat (map (fun c => toString c (indent + 2)) children)
      +:+ spaces indent +:+ ")" +:+ endl
  end.

(* ===================================================================== *)
(** ** PortSource and SourceList                                          *)
(* ===================================================================== *)

(** The name server and the connections made so far. *)
Record Network : Type := mkNetwork {
  names : gset string;
  connections : list (string * string)
}.

(** [Network::queryName(n).isValid()]. *)
Definition queryName (net : Network) (n : string) : bool :=
  bool_decide (n ∈ names net).

(** [port.open(n)] registers the name. *)
Definition openPort (net : Network) (n : string) : Network :=
  mkNetwork ({[ n ]} ∪ names net) (connections net).

Record PortSource : Type := mkPortSource {
  data : Bottle;
  port : string
}.

(** [buffer << prefix << i << ":i"]: the [i]-th name [getInputName]
    tries. *)
Definition inputName (prefix : string) (i : Z) : string :=
  prefix +:+ itoa i +:+ ":i".

(** The [do ... while] of [PortSource::getInputName]; [None] is "out of
    fuel".  With [n] names registered the loop stops within [n + 1]
    rounds ([getInputName_total] below). *)
Fixpoint getInputName_loop (fuel : nat) (net : Network) (prefix : string)
    (i : Z) : option string :=
  match fuel with
  | O => None
  | S fuel' =>
      let buffer := inputName prefix i in
      if queryName net buffer
      then getInputName_loop fuel' net prefix (wrap32 (i + 1))
      else Some buffer
  end.

Definition getInputName (net : Network) (prefix : string) : option string :=
  getInputName_loop (S (stdpp.base.size (names net))) net prefix 1.

(** [new PortSource(name, pp)]: [initPort] opens the first free input
    port; the cache starts empty. *)
Definition newPortSource (name pp : string) (net : Network)
    : option (PortSource * Network) :=
  match getInputName net pp with
  | Some n => Some (mkPortSource [] n, openPort net n)
  | None => None
  end.

(** [PortSource::connect(dst)]. *)
Definition connect (ps : PortSource) (dst : string) (net : Network)
    : Network * outcome unit :=
  if queryName net dst
  then (mkNetwork (names net) (connections net ++ [(dst, port ps)]), Ok tt)
  else (net, Throw (CannotFindPort dst)).

Record SourceList : Type := mkSourceList {
  sl_portPrefix : string;
  sourceMap : gmap string PortSource
}.

Definition hasSource (sl : SourceList) (name : string) : bool :=
  bool_decide (is_Some (sourceMap sl !! name)).

(** [SourceList::addSource(name)].  The source list and the network are
    returned also when [connect] throws: the entry made by
    [sourceMap[name] = new PortSource(...)] is not undone. *)
Definition addSource (name : string) (sl : SourceList) (net : Network)
    : SourceList * Network * outcome unit :=
  if negb (hasSource sl name) then
    match newPortSource name (sl_portPrefix sl) net with
    | Some (ps, net1) =>
        let sl1 := mkSourceList (sl_portPrefix sl) (<[name := ps]> (sourceMap sl)) in
        let '(net2, r) := connect ps name net1 in
        (sl1, net2, r)
    | None => (sl, net, Undefined)
    end
  else (sl, net, Ok tt).

(** [SourceList::getSource(name)]; after the test, [sourceMap[name]]
    cannot miss. *)
Definition getSource (sl : SourceList) (name : string) : outcome PortSource :=
  if negb (hasSource sl name) then Throw InexistentSource
  else match sourceMap sl !! name with
       | Some ps => Ok ps
       | None => Undefined
       end.

(** [PortSource::update()] and [SourceList::update()]: [port.read(data)]
    replaces the cache by the message read; a source whose read returns
    without a message ([incoming] has no entry) keeps its cache. *)
Definition updateSource (msg : option Bottle) (ps : PortSource) : PortSource :=
  match msg with
  | Some b => mkPortSource b (port ps)
  | None => ps
  end.

Definition updateSources (incoming : gmap string Bottle) (sl : SourceList)
    : SourceList :=
  mkSourceList (sl_portPrefix sl)
    (map_imap (fun name ps => Some (updateSource (incoming !! name) ps))
       (sourceMap sl)).

(* ===================================================================== *)
(** ** select                                                             *)
(* ===================================================================== *)

(** [IndexSelector::addBottle(out, in)]: every element of [in], in
    order, is added to [out]. *)
Definition addBottle (out inb : Bottle) : Bottle :=
  fold_left add inb out.

(** The loop over the indices of one dimension; [body] is one round. *)
Fixpoint forIndices (body : Z -> Bottle -> outcome Bottle) (it2 : list Z)
    (out : Bottle) : outcome Bottle :=
  match it2 with
  | [] => Ok out
  | i :: rest =>
      out' <- body i out ;;
      forIndices body rest out'
  end.

(** [IndexSelector::selectRecursive(out, in, it)], [it] being the
    dimensions from the iterator on.  The body runs between [it++] and
    [it--], so "[it == indices.end()]" is "[it] was the last dimension".
    [select] never calls it with [it] at the end. *)
Fixpoint selectRecursive (out inb : Bottle) (it : list (list Z))
    {struct it} : outcome Bottle :=
  match it with
  | [] => Undefined
  | cur :: next =>
      forIndices
        (fun i out =>
           let idx := i - 1 in
           match next with
           | [] =>
               match get inb idx with
               | VList l => Ok (addBottle out l)
               | v => Ok (add out v)
               end
           | _ :: _ =>
               match get inb idx with
               | VList l => selectRecursive out l next
               | _ => Throw CannotIndexNonList
               end
           end)
        cur out
  end.

(** [DataSelector::select(bot, sl)] for the three classes.  In
    [CompositeSelector::select], [bot2] is a reference to the list that
    [bot.addList()] has just appended to [bot]: what the children add to
    [bot2] is inside that new last element of [bot]. *)
Fixpoint select (ds : DataSelector) (bot : Bottle) (sl : SourceList)
    {struct ds} : outcome Bottle :=
  match ds with
  | IndexSelector name indices =>
      match indices with
      | [] =>
          src <- getSource sl name ;;
          Ok (addBottle bot (data src))
      | _ :: _ =>
          src <- getSource sl name ;;
          selectRecursive bot (data src) indices
      end
  | CompositeSelector children =>
      bot2 <-
        (fix selectEach (cs : list DataSelector) (b : Bottle) : outcome Bottle :=
           match cs with
           | [] => Ok b
           | c :: rest => b' <- select c b sl ;; selectEach rest b'
           end) children [] ;;
      Ok (bot ++ [VList bot2])
  | RootSelector children =>
      (fix selectEach (cs : list DataSelector) (b : Bottle) : outcome Bottle :=
         match cs with
         | [] => Ok b
         | c :: rest => b' <- select c b sl ;; selectEach rest b'
         end) children bot
  end.

(** The loop [for i: children[i]->select(b, sl)]. *)
Fixpoint selectChildren (cs : list DataSelector) (b : Bottle) (sl : SourceList)
    : outcome Bottle :=
  match cs with
  | [] => Ok b
  | c :: rest => b' <- select c b sl ;; selectChildren rest b' sl
  end.

(** [declareSources(sl)]: the leaves declare their source, left to
    right; the first exception stops the walk. *)
Fixpoint declareSources (ds : DataSelector) (sl : SourceList) (net : Network)
    {struct ds} : SourceList * Network * outcome unit :=
  match ds with
  | IndexSelector name _ => addSource name sl net
  | CompositeSelector children | RootSelector children =>
      (fix declareEach (cs : list DataSelector) (sl : SourceList) (net : Network)
         : SourceList * Network * outcome unit :=
         match cs with
         | [] => (sl, net, Ok tt)
         | c :: rest =>
             match declareSources c sl net with
             | (sl', net', Ok _) => declareEach rest sl' net'
             | r => r
             end
         end) children sl net
  end.

(* ===================================================================== *)
(** ** MergeModule                                                        *)
(* ===================================================================== *)

Record MergeModule : Type := mkMergeModule {
  portPrefix : string;
  desiredPeriod : float;
  sourceList : SourceList;
  dataSelector : option DataSelector
}.

(** [MergeModule(pp)]: period 0.1 (the nearest binary64), no selector
    yet. *)
Definition newMergeModule (pp : string) : MergeModule :=
  mkMergeModule pp 0x1.999999999999ap-4%float (mkSourceList "/lm/merge/source" ∅) None.

Definition getPeriod (m : MergeModule) : float := desiredPeriod m.

Definition setDesiredPeriod (p : float) (m : MergeModule) : MergeModule :=
  mkMergeModule (portPrefix m) p (sourceList m) (dataSelector m).

(** [MergeModule::setFrequency(f)]. *)
Definition setFrequency (f : float) (m : MergeModule) : outcome MergeModule :=
  if PrimFloat.leb f 0%float then Throw FrequencyNotPositive
  else Ok (setDesiredPeriod (1 / f)%float m).

(** [yarp::os::createVocab32(a, b, c, d)]. *)
Definition createVocab32 (a b c d : ascii) : Z :=
  Z.of_nat (nat_of_ascii a)
  + Z.shiftl (Z.of_nat (nat_of_ascii b)) 8
  + Z.shiftl (Z.of_nat (nat_of_ascii c)) 16
  + Z.shiftl (Z.of_nat (nat_of_ascii d)) 24.

(** [Vocab32::encode(str)]: the first four characters, padded with
    NUL. *)
Definition encodeVocab32 (str : string) : Z :=
  let ch (n : nat) := default Ascii.zero (String.get n str) in
  createVocab32 (ch 0%nat) (ch 1%nat) (ch 2%nat) (ch 3%nat).

(** [Value::asVocab32()]. *)
Definition asVocab32 (v : Value) : Z :=
  match v with
  | VVocab32 c => c
  | VString s => encodeVocab32 s
  | VInt32 n => n
  | _ => 0
  end.

(** The [double] of an [int]. *)
Definition float_of_int (n : Z) : float :=
  if n <? 0 then (- PrimFloat.of_uint63 (Uint63.of_Z (- n)))%float
  else PrimFloat.of_uint63 (Uint63.of_Z n).

(** [Value::asFloat64()]. *)
Definition asFloat64 (v : Value) : float :=
  match v with
  | VFloat64 d => d
  | VInt32 n => float_of_int n
  | _ => 0%float
  end.

Definition addString (b : Bottle) (s : string) : Bottle := add b (VString s).

(** [MergeModule::respond(cmd, reply)]: the module, the reply and
    [success].  Nothing in the three cases throws, so the handlers of
    the [try] are not entered; [info] on a module without selector
    dereferences a null pointer. *)
Definition respond (cmd : Bottle) (m : MergeModule) (reply : Bottle)
    : outcome (MergeModule * Bottle * bool) :=
  let code := asVocab32 (get cmd 0) in
  if code =? createVocab32 "h" "e" "l" "p" then
    let reply := add reply (VVocab32 (encodeVocab32 "help")) in
    let reply := addString reply "Merge module configuration options" in
    let reply := addString reply "  help                  Displays this message" in
    let reply := addString reply "  info                  Prints information" in
    let reply := addString reply
      "  freq f                Sampling frequency in Hertz (0 for disabled)" in
    Ok (m, reply, true)
  else if code =? createVocab32 "i" "n" "f" "o" then
    let reply := add reply (VVocab32 (encodeVocab32 "help")) in
    match dataSelector m with
    | Some ds => Ok (m, addString reply (toString ds 0), true)
    | None => Undefined
    end
  else if code =? createVocab32 "f" "r" "e" "q" then
    if (1 <? Bottle_size cmd) && (isInt32 (get cmd 1) || isFloat64 (get cmd 1))
    then Ok (setDesiredPeriod (1 / asFloat64 (get cmd 1))%float m, reply, true)
    else Ok (m, reply, false)
  else Ok (m, reply, false).

(** What one call of [updateModule] leaves behind: the bottle written on
    the output port, or the exception that was caught and logged. *)
Inductive tick : Type :=
| Written (out : Bottle)
| Logged (e : error).

(** [MergeModule::updateModule()]; it returns [true] in all cases.  The
    [assert] on the selector aborts a module that was not configured. *)
Definition updateModule (incoming : gmap string Bottle) (m : MergeModule)
    : outcome (MergeModule * tick * bool) :=
  match dataSelector m with
  | None => Undefined
  | Some ds =>
      let sl := updateSources incoming (sourceList m) in
      let m' := mkMergeModule (portPrefix m) (desiredPeriod m) sl (dataSelector m) in
      match select ds [] sl with
      | Ok out => Ok (m', Written out, true)
      | Throw e => Ok (m', Logged e, true)
      | Undefined => Undefined
      end
  end.

(** [Vocab32::decode(code)]: the four bytes of the code, lowest first,
    the NUL bytes left out. *)
Definition decodeVocab32 (code : Z) : string :=
  let byte (k : Z) := Z.rem (Z.quot code (256 ^ k)) 256 in
  let put (k : Z) (rest : string) :=
    if 0 <? byte k then String (ascii_of_nat (Z.to_nat (byte k))) rest else rest in
  put 0 (put 1 (put 2 (put 3 ""))).

(** [Value::asString()]: the string of a string value, the decoded
    identifier of a vocab, the empty string otherwise. *)
Definition asString (v : Value) : string :=
  match v with
  | VString s => s
  | VVocab32 c => decodeVocab32 c
  | _ => ""
  end.

(** [SourceList::setPortPrefix(pp)]. *)
Definition setPortPrefix (pp : string) (sl : SourceList) : SourceList :=
  mkSourceList pp (sourceMap sl).

(** [MergeModule::configure(opt)].  The options are the
    [ResourceFinder], [opt.check(key, val)] its lookup; the prefix is
    assigned from [val->asString().c_str()]; [opens] is what
    [output.open] returns in [registerPort]; printing the options and
    attaching the terminal leave no trace here.  The module and the
    network are returned also when an exception is thrown: what was
    assigned before the [throw] stays assigned. *)
Definition configure (opt : gmap string Value) (opens : bool)
    (m : MergeModule) (net : Network) : MergeModule * Network * outcome bool :=
  if bool_decide (is_Some (opt !! "help")) then (m, net, Ok false)
  else
    let pp := match opt !! "port" with
              | Some val => c_str (asString val)
              | None => portPrefix m
              end in
    let sl0 := setPortPrefix (pp +:+ "/source") (sourceList m) in
    let m0 := mkMergeModule pp (desiredPeriod m) sl0 (dataSelector m) in
    match opt !! "format" with
    | Some (VList l) =>
        match newRootSelector l with
        | Ok ds =>
            let '(sl1, net1, declared) := declareSources ds sl0 net in
            let m1 := mkMergeModule pp (desiredPeriod m) sl1 (Some ds) in
            match declared with
            | Ok _ =>
                let tuned :=
                  match opt !! "frequency" with
                  | Some val =>
                      if isFloat64 val || isInt32 val
                      then setFrequency (asFloat64 val) m1
                      else Ok m1
                  | None => Ok m1
                  end in
                match tuned with
                | Ok m2 =>
                    let out := portPrefix m2 +:+ "/output:o" in
                    if opens then (m2, openPort net1 out, Ok true)
                    else (m2, net1, Throw (CouldNotRegisterPort out))
                | Throw e => (m1, net1, Throw e)
                | Undefined => (m1, net1, Undefined)
                end
            | Throw e => (m1, net1, Throw e)
            | Undefined => (m1, net1, Undefined)
            end
        | Throw e => (m0, net, Throw e)
        | Undefined => (m0, net, Undefined)
        end
    | Some _ => (m0, net, Throw FormatMustBeList)
    | None => (m0, net, Ok false)
    end.

(* ===================================================================== *)
(** ** Vocabulary of the statements                                       *)
(* ===================================================================== *)

(** A source list holding the given caches, for the examples. *)
Definition sl_of (l : list (string * Bottle)) : SourceList :=
  mkSourceList "/lm/merge/source"
    (list_to_map (map (fun p => (fst p, mkPortSource (snd p) "")) l)).

Definition ints (l : list Z) : Bottle := map VInt32 l.

(** What one selected element adds at the last dimension: the children
    of a nested record, or the element itself. *)
Definition spliced (v : Value) : Bottle :=
  match v with
  | VList l => l
  | _ => [v]
  end.

(** [contributes ds sl ext]: whatever the accumulator, [ds] succeeds and
    appends exactly [ext] to it. *)
Definition contributes (ds : DataSelector) (sl : SourceList) (ext : Bottle) : Prop :=
  forall bot, select ds bot sl = Ok (bot ++ ext).

(** [gather f cur]: the parts [f i] of the indices [i] of [cur], one
    behind the other in the order of [cur]; [None] when one of them is
    missing. *)
Fixpoint gather (f : Z -> option Bottle) (cur : list Z) : option Bottle :=
  match cur with
  | [] => Some []
  | i :: rest =>
      match f i, gather f rest with
      | Some here, Some there => Some (here ++ there)
      | _, _ => None
      end
  end.

(** [leafContribution inb path]: what a leaf with the index path [path]
    is to append for the record [inb], said without an accumulator.
    The empty path stands for the whole record.  Otherwise the indices
    of the first dimension are taken in turn, each index [i] for the
    element at position [i - 1]: at the last dimension the element
    gives its children when it is a nested record and itself when it is
    not; at a dimension before the last it gives what the rest of the
    path gives for it, and nothing can be said ([None]) when it is no
    nested record. *)
Fixpoint leafContribution (inb : Bottle) (path : list (list Z)) : option Bottle :=
  match path with
  | [] => Some inb
  | cur :: next =>
      gather (fun i =>
                match next with
                | [] => Some (spliced (get inb (i - 1)))
                | _ :: _ =>
                    match get inb (i - 1) with
                    | VList l => leafContribution l next
                    | _ => None
                    end
                end) cur
  end.

(** [indexesScalar inb it]: walking the dimensions [it] from the record
    [inb], some dimension that is not the last selects an element that
    is not a nested record. *)
Inductive indexesScalar : Bottle -> list (list Z) -> Prop :=
| indexesScalar_here inb cur next i :
    In i cur -> next <> [] -> isList (get inb (i - 1)) = false ->
    indexesScalar inb (cur :: next)
| indexesScalar_deeper inb cur next i l :
    In i cur -> get inb (i - 1) = VList l -> indexesScalar l next ->
    indexesScalar inb (cur :: next).

(** Position [idx] exists in the record. *)
Definition inBounds (b : Bottle) (idx : Z) : Prop := 0 <= idx < Bottle_size b.

(* ===================================================================== *)
(** ** The text form of a format                                          *)
(* ===================================================================== *)

(** The characters of a port name in the grammar:
    [<port_name> : [a-zA-Z0-9_:/]+]. *)
Definition isPortNameChar (c : ascii) : bool :=
  let n := nat_of_ascii c in
  ((97 <=? n)%nat && (n <=? 122)%nat)
  || ((65 <=? n)%nat && (n <=? 90)%nat)
  || ((47 <=? n)%nat && (n <=? 58)%nat)
  || (n =? 95)%nat.

Fixpoint allChars (p : ascii -> bool) (s : string) : bool :=
  match s with
  | EmptyString => true
  | String c r => p c && allChars p r
  end.

Definition isPortName (name : string) : bool :=
  match name with
  | EmptyString => false
  | _ => allChars isPortNameChar name
  end.

(** Every leaf of the tree is named by a port name of the grammar. *)
Fixpoint portNames (ds : DataSelector) : bool :=
  match ds with
  | IndexSelector name _ => isPortName name
  | CompositeSelector children | RootSelector children =>
      forallb portNames children
  end.

(** Modelled from the spec: the end of a specifier in the reader below;
    the specifier read, if there is one, joins the list as a string. *)
Definition flushToken (tok : string) (cur : Bottle) : Bottle :=
  match tok with
  | EmptyString => cur
  | _ => cur ++ [VString tok]
  end.

(** Modelled from the spec: the reader that turns the text of a format
    into the nested list given to the parser is the middleware's and is
    not part of the repository.  This one follows the grammar
    [bottle_spec := '(' spec (' ' spec)* ')'], [spec := port_spec |
    bottle_spec]: white space separates specifiers, a parenthesis opens
    or closes a nested list, and every other run of characters is one
    port specifier, a string.  [tok] is the specifier being read, [cur]
    the list being filled, [stack] the lists around it. *)
Fixpoint readSpecs (s : string) (tok : string) (cur : Bottle)
    (stack : list Bottle) : option Bottle :=
  match s with
  | EmptyString =>
      match stack with
      | [] => Some (flushToken tok cur)
      | _ :: _ => None
      end
  | String c r =>
      if isspace c then readSpecs r "" (flushToken tok cur) stack
      else if Ascii.eqb c "(" then readSpecs r "" [] (flushToken tok cur :: stack)
      else if Ascii.eqb c ")" then
        match stack with
        | [] => None
        | parent :: stack' =>
            readSpecs r "" (parent ++ [VList (flushToken tok cur)]) stack'
        end
      else readSpecs r (tok +:+ String c "") cur stack
  end.

(** Modelled from the spec: the value of a format given as text is the
    one list the text holds. *)
Definition readFormat (text : string) : option Bottle :=
  match readSpecs text "" [] [] with
  | Some [VList format] => Some format
  | _ => None
  end.

(** Rendering and reading again: [toString], the reader, then the
    parser as [configure] calls it (a format that is no list is
    refused). *)
Definition reparse (ds : DataSelector) : outcome DataSelector :=
  match readFormat (toString ds 0) with
  | Some format => newRootSelector format
  | None => Throw FormatMustBeList
  end.

(** [lacks c s]: the character [c] does not occur in [s]. *)
Definition lacks (c : ascii) (s : string) : bool :=
  allChars (fun a => negb (Ascii.eqb a c)) s.

(** The parts of [s] between the occurrences of [d]: what [split]
    computes, by recursion on the string. *)
Fixpoint splitOn (d : ascii) (s : string) : list string :=
  match s with
  | EmptyString => [EmptyString]
  | String c r =>
      if Ascii.eqb c d then EmptyString :: splitOn d r
      else match splitOn d r with
           | part :: parts => String c part :: parts
           | [] => [String c EmptyString]
           end
  end.

(** The indices a parsed specifier can hold: each one an [int] that is
    not negative, each dimension with one index at least. *)
Definition validIndex (i : Z) : Prop := 0 <= i <= INT_MAX.

Definition validDim (dim : list Z) : Prop := dim <> [] /\ Forall validIndex dim.

(** The trees [CompositeSelector::loadFormat] builds: leaves with valid
    dimensions, composites of such trees, no root inside. *)
Fixpoint wellFormed (ds : DataSelector) : Prop :=
  match ds with
  | IndexSelector _ indices => Forall validDim indices
  | CompositeSelector children =>
      fold_right (fun c rest => wellFormed c /\ rest) True children
  | RootSelector _ => False
  end.

(** The format a tree is printed from: the text of each leaf, the
    nesting of the composites. *)
Fixpoint unparse (ds : DataSelector) : Value :=
  match ds with
  | IndexSelector name indices => VString (name +:+ sconcat (map putGroup indices))
  | CompositeSelector children | RootSelector children =>
      VList (map unparse children)
  end.

(** The characters the reader keeps in a specifier. *)
Definition isTokenChar (c : ascii) : bool :=
  negb (isspace c) && negb (Ascii.eqb c "(") && negb (Ascii.eqb c ")").

(* ===================================================================== *)
(** ** Vocabulary of the further properties                               *)
(* ===================================================================== *)

(** The parts put together again, [d] between them. *)
Fixpoint sjoin (d : ascii) (parts : list string) : string :=
  match parts with
  | [] => ""
  | part :: rest =>
      match rest with
      | [] => part
      | _ :: _ => part +:+ String d (sjoin d rest)
      end
  end.

(** How often [d] occurs in [s]. *)
Fixpoint countChar (d : ascii) (s : string) : nat :=
  match s with
  | EmptyString => O
  | String c r => if Ascii.eqb c d then S (countChar d r) else countChar d r
  end.

Definition startsWithDigit (s : string) : bool :=
  match s with
  | String c _ => isdigit c
  | EmptyString => false
  end.

(** The source names of the leaves, left to right. *)
Fixpoint leafNames (ds : DataSelector) : list string :=
  match ds with
  | IndexSelector name _ => [name]
  | CompositeSelector children | RootSelector children =>
      flat_map leafNames children
  end.

(** No leaf name holds an opening bracket or a NUL character. *)
Fixpoint bracketFree (ds : DataSelector) : bool :=
  match ds with
  | IndexSelector name _ => lacks "[" name && lacks Ascii.zero name
  | CompositeSelector children | RootSelector children =>
      forallb bracketFree children
  end.

(** The input ports of the sources are registered names, and no two
    sources share one. *)
Definition portsDistinct (sl : SourceList) (net : Network) : Prop :=
  (forall name ps, sourceMap sl !! name = Some ps -> port ps ∈ names net)
  /\ (forall n1 n2 ps1 ps2,
        sourceMap sl !! n1 = Some ps1 -> sourceMap sl !! n2 = Some ps2 ->
        port ps1 = port ps2 -> n1 = n2).

(** The loop [for i: children[i]->declareSources(sl)]. *)
Fixpoint declareChildren (cs : list DataSelector) (sl : SourceList) (net : Network)
    : SourceList * Network * outcome unit :=
  match cs with
  | [] => (sl, net, Ok tt)
  | c :: rest =>
      match declareSources c sl net with
      | (sl', net', Ok _) => declareChildren rest sl' net'
      | r => r
      end
  end.

(** [sl'] holds every source of [sl], unchanged. *)
Definition keepsSources (sl sl' : SourceList) : Prop :=
  forall name ps, sourceMap sl !! name = Some ps -> sourceMap sl' !! name = Some ps.

(** What the [--frequency] option asks of the period. *)
Definition frequencyApplied (opt : gmap string Value) (m m' : MergeModule) : Prop :=
  match opt !! "frequency" with
  | Some val =>
      if isFloat64 val || isInt32 val
      then PrimFloat.leb (asFloat64 val) 0 = false
           /\ desiredPeriod m' = (1 / asFloat64 val)%float
      else desiredPeriod m' = desiredPeriod m
  | None => desiredPeriod m' = desiredPeriod m
  end.

(** [tickStep m m1]: one tick, whatever was read at it, takes the module
    from [m] to [m1].  [rtc tickStep m m1]: the module is [m1] after some
    number of ticks from [m]. *)
Definition tickStep (m m1 : MergeModule) : Prop :=
  exists incoming t continue, updateModule incoming m = Ok (m1, t, continue).

(* ===================================================================== *)
(** * Properties                                                          *)
(* ===================================================================== *)

Example split_ex1 : split "3,1-4,,x" "," = Ok ["3"; "1-4"; ""; "x"].
Proof. reflexivity. Qed.

Example split_ex2 : split "" "-" = Ok [""].
Proof. reflexivity. Qed.

(** The loop goes on one character behind a delimiter found, also when
    the delimiter has two characters: its second character is left in
    front of the next part. *)
Example split_ex3 : split "a--b" "--" = Ok ["a"; "-b"].
Proof. reflexivity. Qed.

Example loadIndexFormat_ex1 :
  loadIndexFormat "/bar:o[2,3][1-4]"
  = Ok (IndexSelector "/bar:o" [[2; 3]; [1; 2; 3; 4]]).
Proof. vm_compute. reflexivity. Qed.

Example loadIndexFormat_ex2 :
  loadIndexFormat "/a[5-2]" = Throw (EndOfRangeBeforeStart "5-2").
Proof. vm_compute. reflexivity. Qed.

Example loadIndexFormat_ex3 :
  loadIndexFormat "/a[1" = Throw MissingClosingBracket.
Proof. vm_compute. reflexivity. Qed.

Example loadIndexFormat_ex4 :
  loadIndexFormat "/a[1[2]]" = Throw UnexpectedOpeningBracket.
Proof. vm_compute. reflexivity. Qed.

Example select_ex1 :
  (ds <- newRootSelector [VString "/a[1-2]"; VList [VString "/a"; VString "/b[2][1]"]] ;;
   select ds [] (sl_of [("/a", ints [10;20;30]); ("/b", [VList (ints [1;2]); VList (ints [3;4])])]))
  = Ok [VInt32 10; VInt32 20; VList [VInt32 10; VInt32 20; VInt32 30; VInt32 3]].
Proof. vm_compute. reflexivity. Qed.

Example toString_ex1 :
  (ds <- newRootSelector [VString "/a[1-2,7]"; VList [VString "/a"; VString "/b[2][1]"]] ;;
   Ok (toString ds 0))
  = Ok ("(" +:+ endl +:+ "  /a[1,2,7]" +:+ endl +:+ "  (" +:+ endl
        +:+ "    /a" +:+ endl +:+ "    /b[2][1]" +:+ endl +:+ "  )" +:+ endl +:+ ")" +:+ endl).
Proof. vm_compute. reflexivity. Qed.

Example respond_ex1 :
  respond [VString "freq"; VInt32 0] (newMergeModule "/lm/merge") []
  = Ok (setDesiredPeriod infinity (newMergeModule "/lm/merge"), [], true).
Proof. vm_compute. reflexivity. Qed.

Example itoa_ex : map itoa [0; 7; 10; 1234567890; -45; 2147483647]
  = ["0"; "7"; "10"; "1234567890"; "-45"; "2147483647"].
Proof. vm_compute. reflexivity. Qed.

(* ===================================================================== *)
(** ** Selector evaluation                                                *)
(* ===================================================================== *)

Lemma DataSelector_ind' (P : DataSelector -> Prop) :
  (forall name indices, P (IndexSelector name indices)) ->
  (forall cs, Forall P cs -> P (CompositeSelector cs)) ->
  (forall cs, Forall P cs -> P (RootSelector cs)) ->
  forall ds, P ds.
Proof.
  intros HI HC HR. fix IH 1. intros [name indices|cs|cs].
  - apply HI.
  - apply HC. induction cs as [|c cs IHcs]; constructor; [apply IH|exact IHcs].
  - apply HR. induction cs as [|c cs IHcs]; constructor; [apply IH|exact IHcs].
Qed.

Lemma addBottle_app out inb : addBottle out inb = out ++ inb.
Proof.
  unfold addBottle. revert out.
  induction inb as [|v inb IH]; intros out; simpl.
  - now rewrite app_nil_r.
  - rewrite IH. unfold add. now rewrite <- app_assoc.
Qed.

Lemma select_composite cs bot sl :
  select (CompositeSelector cs) bot sl
  = (bot2 <- selectChildren cs [] sl ;; Ok (bot ++ [VList bot2])).
Proof.
  simpl. f_equal. generalize (@nil Value).
  induction cs as [|c cs IH]; intros b; simpl; [reflexivity|].
  destruct (select c b sl); simpl; auto.
Qed.

Lemma select_root cs bot sl :
  select (RootSelector cs) bot sl = selectChildren cs bot sl.
Proof.
  simpl. revert bot.
  induction cs as [|c cs IH]; intros b; simpl; [reflexivity|].
  destruct (select c b sl); simpl; auto.
Qed.

Lemma selectRecursive_last out inb cur :
  selectRecursive out inb [cur]
  = Ok (out ++ flat_map (fun i => spliced (get inb (i - 1))) cur).
Proof.
  simpl. revert out.
  induction cur as [|i cur IH]; intros out; simpl.
  - now rewrite app_nil_r.
  - destruct (get inb (i - 1)) eqn:E; simpl; rewrite IH;
      rewrite ?addBottle_app; unfold add; now rewrite <- app_assoc.
Qed.

Lemma getSource_Some sl name src :
  sourceMap sl !! name = Some src -> getSource sl name = Ok src.
Proof.
  intros H. unfold getSource, hasSource. rewrite H.
  rewrite bool_decide_eq_true_2 by eauto. reflexivity.
Qed.

(** An inner dimension either succeeds or throws "Cannot index non-list
    type": [selectRecursive] has no other exit. *)
Lemma selectRecursive_exits it : it <> [] -> forall out inb,
  (exists r, selectRecursive out inb it = Ok r)
  \/ selectRecursive out inb it = Throw CannotIndexNonList.
Proof.
  induction it as [|cur next IH]; intros Hne out inb; [congruence|].
  destruct next as [|cur' next'].
  - left. rewrite selectRecursive_last. eauto.
  - simpl. revert out. induction cur as [|i cur IHc]; intros out; simpl.
    + left. eauto.
    + destruct (get inb (i - 1)) as [| | | | |l]; simpl; auto.
      destruct (IH ltac:(congruence) out l) as [[r Hr]|Hr];
        simpl in Hr; rewrite Hr; simpl; auto.
Qed.

(** If the body of the loop throws [e] at some index whatever the
    accumulator, and throws nothing but [e] elsewhere, the loop throws
    [e]. *)
Lemma forIndices_throws body e cur i :
  In i cur ->
  (forall out, body i out = Throw e) ->
  (forall j out, (exists r, body j out = Ok r) \/ body j out = Throw e) ->
  forall out, forIndices body cur out = Throw e.
Proof.
  intros Hin Hi Hall.
  induction cur as [|j cur IH]; intros out; [destruct Hin|].
  simpl. destruct Hin as [->|Hin].
  - now rewrite Hi.
  - destruct (Hall j out) as [[r Hr]|Hr]; rewrite Hr; simpl; auto.
Qed.

Lemma selectRecursive_indexesScalar inb it :
  indexesScalar inb it ->
  forall out, selectRecursive out inb it = Throw CannotIndexNonList.
Proof.
  induction 1 as [inb cur next i Hin Hne Hsc|inb cur next i l Hin Hget Hdeep IH];
    intros out.
  - destruct next as [|cur' next']; [congruence|].
    simpl. apply forIndices_throws with (i := i); auto.
    + intros o. destruct (get inb (i - 1)); simpl in *; congruence.
    + intros j o. destruct (get inb (j - 1)) as [| | | | |l]; auto.
      apply (selectRecursive_exits (cur' :: next')). congruence.
  - destruct next as [|cur' next']; [inversion Hdeep|].
    simpl. apply forIndices_throws with (i := i); auto.
    + intros o. rewrite Hget. apply IH.
    + intros j o. destruct (get inb (j - 1)) as [| | | | |l']; auto.
      apply (selectRecursive_exits (cur' :: next')). congruence.
Qed.

Lemma get_out_of_bounds b idx : ~ inBounds b idx -> get b idx = VNull.
Proof.
  unfold inBounds, get. intros H.
  destruct (0 <=? idx) eqn:E1; destruct (idx <? Bottle_size b) eqn:E2; simpl; auto.
  exfalso. apply H. lia.
Qed.

Lemma select_leaf_all sl name src bot :
  sourceMap sl !! name = Some src ->
  select (IndexSelector name []) bot sl = Ok (bot ++ data src).
Proof.
  intros H. simpl. rewrite (getSource_Some _ _ _ H). simpl.
  now rewrite addBottle_app.
Qed.

Lemma select_leaf_indexed sl name src bot cur next :
  sourceMap sl !! name = Some src ->
  select (IndexSelector name (cur :: next)) bot sl
  = selectRecursive bot (data src) (cur :: next).
Proof.
  intros H. cbn [select]. now rewrite (getSource_Some _ _ _ H).
Qed.

Lemma selectChildren_contributes sl cs exts :
  Forall2 (fun c ext => contributes c sl ext) cs exts ->
  forall bot, selectChildren cs bot sl = Ok (bot ++ concat exts).
Proof.
  induction 1 as [|c ext cs exts Hc _ IH]; intros bot; simpl.
  - now rewrite app_nil_r.
  - rewrite Hc. simpl. rewrite IH. now rewrite <- app_assoc.
Qed.

(** A loop whose rounds append a part each, or throw [e], appends the
    parts gathered, or throws [e]. *)
Lemma forIndices_gather body (f : Z -> option Bottle) e cur :
  (forall i out, In i cur ->
     body i out = match f i with Some ext => Ok (out ++ ext) | None => Throw e end) ->
  forall out,
    forIndices body cur out
    = match gather f cur with Some ext => Ok (out ++ ext) | None => Throw e end.
Proof.
  induction cur as [|i cur IH]; intros Hbody out; simpl.
  - now rewrite app_nil_r.
  - rewrite (Hbody i out) by now left.
    destruct (f i) as [here|]; simpl; [|reflexivity].
    rewrite IH by (intros j o Hj; apply Hbody; now right).
    destruct (gather f cur) as [there|]; [|reflexivity].
    now rewrite <- app_assoc.
Qed.

Lemma gather_last inb cur :
  gather (fun i => Some (spliced (get inb (i - 1)))) cur
  = Some (flat_map (fun i => spliced (get inb (i - 1))) cur).
Proof.
  induction cur as [|i cur IH]; simpl; [reflexivity|]. now rewrite IH.
Qed.

(** The walk of a path that is not empty appends what the path is to
    contribute, and throws when an inner dimension selects an element
    that is no nested record. *)
Lemma selectRecursive_leafContribution it : it <> [] -> forall out inb,
  selectRecursive out inb it
  = match leafContribution inb it with
    | Some ext => Ok (out ++ ext)
    | None => Throw CannotIndexNonList
    end.
Proof.
  induction it as [|cur next IH]; intros Hne out inb; [congruence|].
  destruct next as [|cur' next'].
  - rewrite selectRecursive_last. cbn [leafContribution].
    now rewrite gather_last.
  - cbn [selectRecursive leafContribution].
    apply forIndices_gather. intros i o _.
    destruct (get inb (i - 1)) as [| | | | |l]; try reflexivity.
    apply IH. discriminate.
Qed.

(** C4: a leaf selector without indices appends the whole cached record
    of its source, element by element and in order.  With indices, of
    any number of dimensions, it appends [leafContribution] of the
    cached record and the path, and throws "Cannot index non-list type"
    when there is none; at the last dimension, at any depth of the walk
    ([inb] is the record the walk has reached), every index appends the
    children of the element it selects when that element is a nested
    record, and the element itself otherwise; at a dimension before the
    last, every index appends what the rest of the path selects in the
    nested record it selects. *)
Theorem leaf_select_splices sl name src :
  sourceMap sl !! name = Some src ->
  (forall bot, select (IndexSelector name []) bot sl = Ok (bot ++ data src))
  /\ (forall bot cur,
        select (IndexSelector name [cur]) bot sl
        = Ok (bot ++ flat_map (fun i => spliced (get (data src) (i - 1))) cur))
  /\ (forall out inb cur,
        selectRecursive out inb [cur]
        = Ok (out ++ flat_map (fun i => spliced (get inb (i - 1))) cur))
  /\ (forall bot path,
        select (IndexSelector name path) bot sl
        = match leafContribution (data src) path with
          | Some ext => Ok (bot ++ ext)
          | None => Throw CannotIndexNonList
          end)
  /\ (forall out inb path, path <> [] ->
        selectRecursive out inb path
        = match leafContribution inb path with
          | Some ext => Ok (out ++ ext)
          | None => Throw CannotIndexNonList
          end)
  /\ (forall inb cur,
        leafContribution inb [cur]
        = Some (flat_map (fun i => spliced (get inb (i - 1))) cur))
  /\ (forall inb cur next, next <> [] ->
        leafContribution inb (cur :: next)
        = gather (fun i => match get inb (i - 1) with
                           | VList l => leafContribution l next
                           | _ => None
                           end) cur).
Proof.
  intros H. split; [|split; [|split; [|split; [|split; [|split]]]]].
  - intros bot. now apply select_leaf_all.
  - intros bot cur. rewrite (select_leaf_indexed _ _ _ _ _ _ H).
    apply selectRecursive_last.
  - intros. apply selectRecursive_last.
  - intros bot [|cur next].
    + exact (select_leaf_all _ _ _ bot H).
    + rewrite (select_leaf_indexed _ _ _ _ _ _ H).
      now apply selectRecursive_leafContribution.
  - intros out inb path Hne. now apply selectRecursive_leafContribution.
  - intros inb cur. apply gather_last.
  - intros inb cur [|cur' next'] Hne; [congruence | reflexivity].
Qed.

Lemma leaf_select_splices_witness :
  select (IndexSelector "/a" []) [VInt32 0]
    (sl_of [("/a", [VInt32 10; VList (ints [20; 21]); VInt32 30])])
  = Ok [VInt32 0; VInt32 10; VList (ints [20; 21]); VInt32 30]
  /\ select (IndexSelector "/a" [[3; 2]]) [VInt32 0]
       (sl_of [("/a", [VInt32 10; VList (ints [20; 21]); VInt32 30])])
     = Ok [VInt32 0; VInt32 30; VInt32 20; VInt32 21]
  /\ select (IndexSelector "/a" [[1]; [2]]) []
       (sl_of [("/a", [VList (ints [10; 11]); VList (ints [20; 21])])])
     = Ok [VInt32 11]
  /\ select (IndexSelector "/a" [[2; 1]; [1; 2]]) [VInt32 0]
       (sl_of [("/a", [VList [VInt32 10; VList (ints [11; 12])];
                       VList (ints [20; 21])])])
     = Ok [VInt32 0; VInt32 20; VInt32 21; VInt32 10; VInt32 11; VInt32 12].
Proof.
  pose proof (leaf_select_splices
    (sl_of [("/a", [VInt32 10; VList (ints [20; 21]); VInt32 30])]) "/a"
    (mkPortSource [VInt32 10; VList (ints [20; 21]); VInt32 30] "")
    eq_refl) as [H1 [H2 _]].
  pose proof (leaf_select_splices
    (sl_of [("/a", [VList (ints [10; 11]); VList (ints [20; 21])])]) "/a"
    (mkPortSource [VList (ints [10; 11]); VList (ints [20; 21])] "")
    eq_refl) as [_ [_ [_ [H3 _]]]].
  pose proof (leaf_select_splices
    (sl_of [("/a", [VList [VInt32 10; VList (ints [11; 12])];
                    VList (ints [20; 21])])]) "/a"
    (mkPortSource [VList [VInt32 10; VList (ints [11; 12])];
                   VList (ints [20; 21])] "")
    eq_refl) as [_ [_ [_ [H4 _]]]].
  split; [exact (H1 [VInt32 0])|]. split; [exact (H2 [VInt32 0] [3; 2])|].
  split; [exact (H3 [] [[1]; [2]]) | exact (H4 [VInt32 0] [[2; 1]; [1; 2]])].
Defined.

(** C5: a composite selector appends exactly one new nested record to
    the accumulator, and that record holds what its children select, in
    declared order, starting from an empty record; the root selector
    runs its children in declared order on the accumulator itself, with
    no nesting level of its own.  In terms of contributions: when the
    children contribute [exts], the composite contributes the single
    element [VList (concat exts)] and the root contributes
    [concat exts]. *)
Theorem composite_wraps_root_does_not cs sl :
  (forall bot,
     select (CompositeSelector cs) bot sl
     = (bot2 <- selectChildren cs [] sl ;; Ok (bot ++ [VList bot2])))
  /\ (forall bot, select (RootSelector cs) bot sl = selectChildren cs bot sl)
  /\ (forall exts,
        Forall2 (fun c ext => contributes c sl ext) cs exts ->
        contributes (CompositeSelector cs) sl [VList (concat exts)]
        /\ contributes (RootSelector cs) sl (concat exts)).
Proof.
  split; [|split].
  - intros bot. apply select_composite.
  - intros bot. apply select_root.
  - intros exts H. split; intros bot.
    + rewrite select_composite, (selectChildren_contributes _ _ _ H). reflexivity.
    + rewrite select_root. now apply selectChildren_contributes.
Qed.

Lemma composite_wraps_root_does_not_witness :
  contributes
    (CompositeSelector [IndexSelector "/a" []; IndexSelector "/b" []])
    (sl_of [("/a", ints [1; 2]); ("/b", ints [3])])
    [VList (ints [1; 2; 3])]
  /\ contributes
       (RootSelector [IndexSelector "/a" []; IndexSelector "/b" []])
       (sl_of [("/a", ints [1; 2]); ("/b", ints [3])])
       (ints [1; 2; 3]).
Proof.
  apply (proj2 (proj2 (composite_wraps_root_does_not
    [IndexSelector "/a" []; IndexSelector "/b" []]
    (sl_of [("/a", ints [1; 2]); ("/b", ints [3])])))
    [ints [1; 2]; ints [3]]).
  constructor 2; [|constructor 2; [|constructor 1]]; intros bot.
  - apply (select_leaf_all _ "/a" (mkPortSource (ints [1; 2]) "")). reflexivity.
  - apply (select_leaf_all _ "/b" (mkPortSource (ints [3]) "")). reflexivity.
Defined.

(** C6: when a dimension that is not the last selects an element that is
    not a nested record, the evaluation of the leaf throws "Cannot index
    non-list type" and yields no output. *)
Theorem inner_scalar_throws sl name src indices bot :
  sourceMap sl !! name = Some src ->
  indexesScalar (data src) indices ->
  select (IndexSelector name indices) bot sl = Throw CannotIndexNonList.
Proof.
  intros Hsrc Hsc. destruct indices as [|cur next]; [inversion Hsc|].
  rewrite (select_leaf_indexed _ _ _ _ _ _ Hsrc).
  now apply selectRecursive_indexesScalar.
Qed.

Lemma inner_scalar_throws_witness :
  select (IndexSelector "/a" [[1]; [1]]) [] (sl_of [("/a", ints [10; 20])])
  = Throw CannotIndexNonList.
Proof.
  apply (inner_scalar_throws (sl_of [("/a", ints [10; 20])]) "/a"
           (mkPortSource (ints [10; 20]) "") [[1]; [1]] []).
  - reflexivity.
  - apply (indexesScalar_here _ _ _ 1); simpl; [auto | discriminate | reflexivity].
Defined.

(** C2, as the spec states it, fails: "/a[5]" on a record of three
    elements does not fail, it appends the null value. *)
Lemma out_of_range_last_dimension_succeeds :
  loadIndexFormat "/a[5]" = Ok (IndexSelector "/a" [[5]])
  /\ ~ inBounds (ints [10; 20; 30]) (5 - 1)
  /\ select (IndexSelector "/a" [[5]]) [] (sl_of [("/a", ints [10; 20; 30])])
     = Ok [VNull]
  /\ isThrow (select (IndexSelector "/a" [[5]]) []
                (sl_of [("/a", ints [10; 20; 30])])) = false.
Proof.
  split; [vm_compute; reflexivity|].
  split; [unfold inBounds; vm_compute; intros [_ H]; discriminate|].
  split; vm_compute; reflexivity.
Qed.

(** C2, amended: there is no range error.  An index whose position is
    out of bounds selects the null value: at the last dimension the
    evaluation goes on and appends that null value for the index; at a
    dimension that is not the last it throws "Cannot index non-list
    type". *)
Theorem out_of_range_index inb cur next i :
  In i cur ->
  ~ inBounds inb (i - 1) ->
  spliced (get inb (i - 1)) = [VNull]
  /\ (forall out,
        selectRecursive out inb [cur]
        = Ok (out ++ flat_map (fun j => spliced (get inb (j - 1))) cur))
  /\ (next <> [] ->
      forall out, selectRecursive out inb (cur :: next) = Throw CannotIndexNonList).
Proof.
  intros Hin Hout. pose proof (get_out_of_bounds _ _ Hout) as Hnull.
  split; [now rewrite Hnull|]. split.
  - intros out. apply selectRecursive_last.
  - intros Hne out. apply selectRecursive_indexesScalar.
    apply (indexesScalar_here _ _ _ i); auto. now rewrite Hnull.
Qed.

Lemma out_of_range_index_witness :
  selectRecursive [] (ints [10; 20; 30]) [[1; 5]] = Ok [VInt32 10; VNull]
  /\ selectRecursive [] (ints [10; 20; 30]) [[1; 5]; [1]] = Throw CannotIndexNonList.
Proof.
  assert (Hout : ~ inBounds (ints [10; 20; 30]) (5 - 1)).
  { unfold inBounds. vm_compute. intros [_ H]. discriminate. }
  pose proof (out_of_range_index (ints [10; 20; 30]) [1; 5] [[1]] 5
                ltac:(simpl; auto) Hout) as [_ [H1 H2]].
  split; [exact (H1 []) | exact (H2 ltac:(discriminate) [])].
Defined.

Lemma getSource_exits sl name :
  (exists src, getSource sl name = Ok src)
  \/ getSource sl name = Throw InexistentSource.
Proof.
  unfold getSource, hasSource.
  destruct (sourceMap sl !! name) as [src|] eqn:E.
  - left. exists src. rewrite bool_decide_eq_true_2 by eauto. reflexivity.
  - right. rewrite bool_decide_eq_false_2; [reflexivity|].
    intros [x Hx]. discriminate.
Qed.

Lemma selectChildren_defined sl cs :
  Forall (fun c => forall bot, select c bot sl <> Undefined) cs ->
  forall bot, selectChildren cs bot sl <> Undefined.
Proof.
  induction 1 as [|c cs Hc _ IH]; intros bot; simpl; [discriminate|].
  specialize (Hc bot). destruct (select c bot sl); simpl; auto; discriminate.
Qed.

(** [select] always comes back, with a bottle or with an exception. *)
Lemma select_defined sl ds : forall bot, select ds bot sl <> Undefined.
Proof.
  induction ds as [name indices|cs IH|cs IH] using DataSelector_ind'; intros bot.
  - destruct indices as [|cur next]; cbn [select];
      destruct (getSource_exits sl name) as [[src ->]| ->]; simpl; try discriminate.
    destruct (selectRecursive_exits (cur :: next) ltac:(discriminate) bot (data src))
      as [[r Hr]|Hr]; simpl in Hr; rewrite Hr; discriminate.
  - rewrite select_composite.
    pose proof (selectChildren_defined sl cs IH []) as H.
    destruct (selectChildren cs [] sl); simpl; auto; discriminate.
  - rewrite select_root. now apply selectChildren_defined.
Qed.

(** A configured module survives every tick: [updateModule] returns
    [true], having written a bottle or logged the exception. *)
Lemma updateModule_returns incoming m ds :
  dataSelector m = Some ds ->
  exists m' t, updateModule incoming m = Ok (m', t, true).
Proof.
  intros H. unfold updateModule. rewrite H.
  pose proof (select_defined (updateSources incoming (sourceList m)) ds []) as Hd.
  destruct (select ds [] _); eauto. congruence.
Qed.

Lemma get_nil idx : get [] idx = VNull.
Proof.
  unfold get. destruct ((0 <=? idx) && (idx <? Bottle_size []));
    [destruct (Z.to_nat idx)|]; reflexivity.
Qed.

(** C9, as the spec states it, fails for a selector with indices: on a
    source that has no data yet, "/a[1]" contributes one element (the
    null value) and "/a[1][1]" throws, so that the tick writes nothing. *)
Lemma empty_source_indexed_selector :
  select (IndexSelector "/a" [[1]]) [] (sl_of [("/a", [])]) = Ok [VNull]
  /\ select (IndexSelector "/a" [[1]; [1]]) [] (sl_of [("/a", [])])
     = Throw CannotIndexNonList
  /\ updateModule ∅
       (mkMergeModule "/lm/merge" 1 (sl_of [("/a", [])])
          (Some (RootSelector [IndexSelector "/a" [[1]; [1]]])))
     = Ok (mkMergeModule "/lm/merge" 1 (sl_of [("/a", [])])
             (Some (RootSelector [IndexSelector "/a" [[1]; [1]]])),
           Logged CannotIndexNonList, true).
Proof. repeat split; vm_compute; reflexivity. Qed.

(** C9, amended: on a declared source whose cache is still empty, a leaf
    selector without indices appends nothing and does not fail.  With
    one dimension of indices it appends one null value per index; with
    more dimensions, the first not empty, it throws "Cannot index
    non-list type".  An exception thrown by the selector is caught and
    logged by [updateModule], which writes nothing at that tick and
    returns [true]: the module keeps running. *)
Theorem empty_source_contribution sl name src :
  sourceMap sl !! name = Some src ->
  data src = [] ->
  (forall bot, select (IndexSelector name []) bot sl = Ok bot)
  /\ (forall bot cur,
        select (IndexSelector name [cur]) bot sl
        = Ok (bot ++ map (fun _ => VNull) cur))
  /\ (forall bot cur next, cur <> [] -> next <> [] ->
        select (IndexSelector name (cur :: next)) bot sl = Throw CannotIndexNonList)
  /\ (forall m incoming ds e,
        dataSelector m = Some ds ->
        select ds [] (updateSources incoming (sourceList m)) = Throw e ->
        exists m', updateModule incoming m = Ok (m', Logged e, true)).
Proof.
  intros Hsrc Hdata. split; [|split; [|split]].
  - intros bot. rewrite (select_leaf_all _ _ _ _ Hsrc), Hdata. apply f_equal, app_nil_r.
  - intros bot cur. rewrite (select_leaf_indexed _ _ _ _ _ _ Hsrc), Hdata.
    rewrite selectRecursive_last. do 2 f_equal.
    induction cur as [|i cur IH]; simpl; [reflexivity|].
    now rewrite get_nil, IH.
  - intros bot cur next Hcur Hnext.
    rewrite (select_leaf_indexed _ _ _ _ _ _ Hsrc), Hdata.
    apply selectRecursive_indexesScalar.
    destruct cur as [|i cur]; [congruence|].
    apply (indexesScalar_here _ _ _ i); simpl; auto. now rewrite get_nil.
  - intros m incoming ds e Hds He. unfold updateModule. rewrite Hds, He. eauto.
Qed.

Lemma empty_source_contribution_witness :
  select (IndexSelector "/a" []) (ints [7]) (sl_of [("/a", [])]) = Ok (ints [7]).
Proof.
  apply (proj1 (empty_source_contribution (sl_of [("/a", [])]) "/a"
                  (mkPortSource [] "") eq_refl eq_refl)).
Defined.

(* ===================================================================== *)
(** ** The source list                                                    *)
(* ===================================================================== *)

Lemma hasSource_insert sl name ps :
  hasSource (mkSourceList (sl_portPrefix sl) (<[name := ps]> (sourceMap sl))) name
  = true.
Proof.
  unfold hasSource. simpl. apply bool_decide_eq_true_2.
  rewrite lookup_insert_eq. eauto.
Qed.

Lemma addSource_registered name sl net :
  hasSource sl name = true -> addSource name sl net = (sl, net, Ok tt).
Proof. intros H. unfold addSource. now rewrite H. Qed.

(** C10: when [addSource name] throws, it is the connection error of
    [connect]; the name was new and is registered all the same; every
    later [addSource name], on that source list or on one that has grown
    since, returns without error, leaves the source list as it is and
    does not touch the network (no port opened, no connection asked
    for). *)
Theorem addSource_not_atomic name sl net sl' net' e :
  addSource name sl net = (sl', net', Throw e) ->
  e = CannotFindPort name
  /\ hasSource sl name = false
  /\ hasSource sl' name = true
  /\ forall sl2 net2,
       sourceMap sl' ⊆ sourceMap sl2 ->
       addSource name sl2 net2 = (sl2, net2, Ok tt).
Proof.
  unfold addSource. destruct (hasSource sl name) eqn:Hhas; simpl; [congruence|].
  destruct (newPortSource name (sl_portPrefix sl) net) as [[ps net1]|]; [|congruence].
  unfold connect. destruct (queryName net1 name); intros H; inversion H; subst.
  split; [reflexivity|]. split; [reflexivity|].
  split; [apply hasSource_insert|].
  intros sl2 net2 Hsub. apply addSource_registered.
  unfold hasSource. apply bool_decide_eq_true_2. exists ps.
  apply (lookup_weaken _ _ _ _ (lookup_insert_eq _ _ _) Hsub).
Qed.

Lemma addSource_not_atomic_witness :
  addSource "/x"
    (mkSourceList "/lm/merge/source"
       (<["/x" := mkPortSource [] "/lm/merge/source1:i"]> ∅))
    (mkNetwork {[ "/x" ]} [])
  = (mkSourceList "/lm/merge/source"
       (<["/x" := mkPortSource [] "/lm/merge/source1:i"]> ∅),
     mkNetwork {[ "/x" ]} [], Ok tt).
Proof.
  apply (addSource_not_atomic "/x" (mkSourceList "/lm/merge/source" ∅)
           (mkNetwork ∅ [])
           (mkSourceList "/lm/merge/source"
              (<["/x" := mkPortSource [] "/lm/merge/source1:i"]> ∅))
           (mkNetwork {[ "/lm/merge/source1:i" ]} [])
           (CannotFindPort "/x")).
  - vm_compute. reflexivity.
  - reflexivity.
Defined.

(* ===================================================================== *)
(** ** The frequency                                                      *)
(* ===================================================================== *)

(** The [freq] command stores the inverse of any number it is given. *)
Lemma respond_freq v rest m reply :
  isInt32 v || isFloat64 v = true ->
  respond (VString "freq" :: v :: rest) m reply
  = Ok (setDesiredPeriod (1 / asFloat64 v)%float m, reply, true).
Proof.
  intros Hnum. unfold respond.
  change (asVocab32 (get (VString "freq" :: v :: rest) 0))
    with (createVocab32 "f" "r" "e" "q").
  change (createVocab32 "f" "r" "e" "q" =? createVocab32 "h" "e" "l" "p") with false.
  change (createVocab32 "f" "r" "e" "q" =? createVocab32 "i" "n" "f" "o") with false.
  rewrite Z.eqb_refl. cbv iota.
  assert (Hget : get (VString "freq" :: v :: rest) 1 = v).
  { unfold get, Bottle_size. simpl length.
    replace (1 <? Z.of_nat (S (S (length rest)))) with true
      by (symmetry; apply Z.ltb_lt; lia).
    reflexivity. }
  rewrite Hget, Hnum.
  replace (1 <? Bottle_size (VString "freq" :: v :: rest)) with true
    by (symmetry; apply Z.ltb_lt; unfold Bottle_size; simpl length; lia).
  reflexivity.
Qed.

(** C1, as the spec states it, fails: the live command [freq 0] is
    answered with success and no error, and the stored period 0.1 is
    replaced by 1/0, the infinite period; [freq -2] stores the period
    -0.5. *)
Lemma live_freq_not_validated :
  respond [VString "freq"; VInt32 0] (newMergeModule "/lm/merge") []
  = Ok (setDesiredPeriod infinity (newMergeModule "/lm/merge"), [], true)
  /\ respond [VString "freq"; VFloat64 (-2)] (newMergeModule "/lm/merge") []
     = Ok (setDesiredPeriod (-0.5) (newMergeModule "/lm/merge"), [], true)
  /\ desiredPeriod (setDesiredPeriod infinity (newMergeModule "/lm/merge"))
     <> desiredPeriod (newMergeModule "/lm/merge").
Proof.
  split; [vm_compute; reflexivity|].
  split; [vm_compute; reflexivity|].
  vm_compute. intros H.
  apply (f_equal (PrimFloat.eqb infinity)) in H. vm_compute in H. discriminate.
Qed.

(** C1, amended: the live command [freq 0] (the "0 for disabled" of the
    help text) is accepted: it reports success, adds nothing to the
    reply and stores the period 1/0, which is infinite.  The check is in
    [setFrequency], the path of the [--frequency] option: there, every
    [f <= 0] throws "Frequency must be larger than 0" and the module,
    its period included, is left as it was. *)
Theorem frequency_validation m :
  (forall reply rest,
     respond (VString "freq" :: VInt32 0 :: rest) m reply
     = Ok (setDesiredPeriod infinity m, reply, true))
  /\ (forall reply rest,
        respond (VString "freq" :: VFloat64 0 :: rest) m reply
        = Ok (setDesiredPeriod infinity m, reply, true))
  /\ (forall f, PrimFloat.leb f 0 = true ->
        setFrequency f m = Throw FrequencyNotPositive).
Proof.
  split; [|split].
  - intros reply rest. now rewrite respond_freq.
  - intros reply rest. now rewrite respond_freq.
  - intros f Hf. unfold setFrequency. now rewrite Hf.
Qed.

Lemma frequency_validation_witness :
  setFrequency (-3) (newMergeModule "/lm/merge") = Throw FrequencyNotPositive.
Proof.
  apply (proj2 (proj2 (frequency_validation (newMergeModule "/lm/merge")))).
  vm_compute. reflexivity.
Defined.

(* ===================================================================== *)
(** ** Index tokens                                                       *)
(* ===================================================================== *)

Lemma wrap32_id z : INT_MIN <= z <= INT_MAX -> wrap32 z = z.
Proof.
  unfold wrap32, INT_MIN, INT_MAX. intros H.
  rewrite Z.mod_small by lia. lia.
Qed.

Lemma stringToInt_range str n :
  stringToInt str = Ok n -> INT_MIN <= n <= INT_MAX.
Proof.
  unfold stringToInt, extractInt.
  destruct (match skipws str with
            | String c r =>
                if Ascii.eqb c "+" then (false, r)
                else if Ascii.eqb c "-" then (true, r)
                else (false, skipws str)
            | EmptyString => (false, skipws str)
            end) as [neg s'].
  destruct (readDigits s' None) as [v|]; [|discriminate].
  cbv zeta.
  destruct ((INT_MIN <=? (if neg then - v else v))
            && ((if neg then - v else v) <=? INT_MAX)) eqn:E; [|discriminate].
  intros H. inversion H; subst. apply andb_true_iff in E. lia.
Qed.

(** Below [INT_MAX] the range loop stops, with the integers from [idx]
    to [e]. *)
Lemma rangeLoop_seqZ n : forall idx e idxList,
  INT_MIN <= idx -> e < INT_MAX -> n = Z.to_nat (e - idx + 1) -> idx <= e + 1 ->
  rangeLoop n idx e idxList = Some (idxList ++ seqZ idx (e - idx + 1)).
Proof.
  unfold INT_MIN, INT_MAX.
  induction n as [|n IH]; intros idx e idxList Hlo Hhi Hn Hle.
  - assert (idx = e + 1) as -> by lia.
    simpl. replace (e + 1 <=? e) with false by (symmetry; apply Z.leb_gt; lia).
    replace (e - (e + 1) + 1) with 0 by lia. simpl. now rewrite app_nil_r.
  - simpl. replace (idx <=? e) with true by (symmetry; apply Z.leb_le; lia).
    rewrite wrap32_id by (unfold INT_MIN, INT_MAX in *; lia).
    rewrite IH by lia.
    rewrite (seqZ_cons idx) by lia. rewrite <- app_assoc. simpl.
    replace (Z.succ idx) with (idx + 1) by lia.
    replace (Z.pred (e - idx + 1)) with (e - (idx + 1) + 1) by lia.
    reflexivity.
Qed.

(** At [INT_MAX] it does not stop, whatever the fuel. *)
Lemma rangeLoop_INT_MAX fuel : forall idx idxList,
  INT_MIN <= idx <= INT_MAX -> rangeLoop fuel idx INT_MAX idxList = None.
Proof.
  induction fuel as [|fuel IH]; intros idx idxList H; simpl;
    replace (idx <=? INT_MAX) with true by (symmetry; apply Z.leb_le; lia);
    [reflexivity|].
  apply IH. unfold wrap32, INT_MIN, INT_MAX in *.
  pose proof (Z.mod_pos_bound (idx + 1 + 2147483648) 4294967296 ltac:(lia)). lia.
Qed.

(** C7 fails on the code at one end: a range that ends at [INT_MAX].
    The token "2147483647-2147483647" has two parts, both read as
    [INT_MAX], and the start is not above the end, so the integers from
    start to end are the one index 2147483647.  The loop of line 511
    does not produce them: its test [idx <= end] holds of every [int],
    and [idx++] overflows at the first round.  No number of rounds ends
    the loop (from the start 1 neither), [loadIndex] has no defined
    result, and with it the whole specifier. *)
Theorem range_to_INT_MAX_overflows :
  split "2147483647-2147483647" "-" = Ok ["2147483647"; "2147483647"]
  /\ stringToInt "2147483647" = Ok INT_MAX
  /\ (forall fuel idxList, rangeLoop fuel INT_MAX INT_MAX idxList = None)
  /\ (forall fuel idxList, rangeLoop fuel 1 INT_MAX idxList = None)
  /\ (forall idxList, loadIndex "2147483647-2147483647" idxList = Undefined)
  /\ loadIndexFormat "/a[2147483647-2147483647]" = Undefined.
Proof.
  split; [reflexivity|]. split; [reflexivity|].
  split; [intros; apply rangeLoop_INT_MAX; unfold INT_MIN, INT_MAX; lia|].
  split; [intros; apply rangeLoop_INT_MAX; unfold INT_MIN, INT_MAX; lia|].
  split; [|vm_compute; reflexivity].
  intros idxList. unfold loadIndex.
  change (split "2147483647-2147483647" "-") with (Ok ["2147483647"; "2147483647"]).
  cbn [bind].
  change (stringToInt "2147483647") with (Ok INT_MAX). cbn [bind].
  change (INT_MAX <? INT_MAX) with false. cbv iota.
  now rewrite rangeLoop_INT_MAX by (unfold INT_MIN, INT_MAX; lia).
Qed.

(** C8 fails on the code: [stringToInt] stops at the first character
    that cannot continue a number and does not look at what follows, so
    "3abc" is read as 3 and a specifier with such tokens is accepted. *)
Theorem trailing_characters_accepted :
  stringToInt "3abc" = Ok 3
  /\ loadIndexFormat "/a[3abc]" = Ok (IndexSelector "/a" [[3]])
  /\ loadIndexFormat "/a[1x-2y, +4!]" = Ok (IndexSelector "/a" [[1; 2; 4]]).
Proof. repeat split; vm_compute; reflexivity. Qed.

Example reparse_ex1 :
  (ds <- newRootSelector [VString "/a[1-2,7]"; VList [VString "/a"; VString "/b[2][1]"]] ;;
   reparse ds)
  = newRootSelector [VString "/a[1-2,7]"; VList [VString "/a"; VString "/b[2][1]"]].
Proof. vm_compute. reflexivity. Qed.

(* ===================================================================== *)
(** ** Strings: find, substr, split                                       *)
(* ===================================================================== *)

Lemma sapp_cons c s t : String c s +:+ t = String c (s +:+ t).
Proof. reflexivity. Qed.

Lemma sapp_nil_l t : "" +:+ t = t.
Proof. reflexivity. Qed.

(** [simpl] that also computes the appends at the head of a string. *)
Ltac ssimpl := rewrite ?sapp_cons, ?sapp_nil_l; simpl.

Lemma sapp_nil_r s : s +:+ "" = s.
Proof. induction s as [|c s IH]; ssimpl; [reflexivity | now rewrite IH]. Qed.

Lemma sapp_assoc a b c : (a +:+ b) +:+ c = a +:+ (b +:+ c).
Proof. induction a as [|x a IH]; ssimpl; [reflexivity | now rewrite IH]. Qed.

Lemma slength_app a b :
  String.length (a +:+ b) = (String.length a + String.length b)%nat.
Proof. induction a as [|x a IH]; ssimpl; [reflexivity | now rewrite IH]. Qed.

Lemma allChars_app p a b : allChars p (a +:+ b) = allChars p a && allChars p b.
Proof.
  induction a as [|x a IH]; ssimpl; [reflexivity|].
  rewrite IH. now rewrite andb_assoc.
Qed.

Lemma allChars_impl (p q : ascii -> bool) s :
  (forall c, p c = true -> q c = true) -> allChars p s = true -> allChars q s = true.
Proof.
  intros Hpq. induction s as [|c s IH]; simpl; [reflexivity|].
  intros H. apply andb_true_iff in H as [H1 H2].
  rewrite (Hpq _ H1), (IH H2). reflexivity.
Qed.

Lemma find_bounds s c : forall pos k,
  find s c pos = Some k -> (pos <= k < String.length s)%nat.
Proof.
  induction s as [|a s IH]; intros pos k; simpl; [discriminate|].
  destruct pos as [|pos].
  - destruct (Ascii.eqb a c).
    + intros H. inversion H. lia.
    + destruct (find s c 0) as [k'|] eqn:E; simpl; [|discriminate].
      intros H. inversion H. apply IH in E. lia.
  - destruct (find s c pos) as [k'|] eqn:E; simpl; [|discriminate].
    intros H. inversion H. apply IH in E. lia.
Qed.

Lemma find_app_r a b c k :
  find (a +:+ b) c (String.length a + k)
  = option_map (Nat.add (String.length a)) (find b c k).
Proof.
  induction a as [|x a IH]; ssimpl.
  - now destruct (find b c k).
  - rewrite IH. now destruct (find b c k).
Qed.

Lemma find_lacks_app c x y :
  lacks c x = true ->
  find (x +:+ y) c 0 = option_map (Nat.add (String.length x)) (find y c 0).
Proof.
  unfold lacks. induction x as [|a x IH]; ssimpl; intros H.
  - now destruct (find y c 0).
  - apply andb_true_iff in H as [Ha Hx]. apply negb_true_iff in Ha.
    rewrite Ha, (IH Hx). now destruct (find y c 0).
Qed.

Lemma find_lacks c s : lacks c s = true -> find s c 0 = None.
Proof.
  intros H. pose proof (find_lacks_app c s "" H) as E.
  rewrite sapp_nil_r in E. exact E.
Qed.

Lemma find_here c x y :
  lacks c x = true -> find (x +:+ String c y) c 0 = Some (String.length x).
Proof.
  intros H. rewrite (find_lacks_app _ _ _ H). simpl.
  rewrite Ascii.eqb_refl. simpl. f_equal. lia.
Qed.

Lemma find_None c s : find s c 0 = None -> lacks c s = true.
Proof.
  unfold lacks. induction s as [|a s IH]; simpl; [reflexivity|].
  destruct (Ascii.eqb a c); [discriminate|].
  destruct (find s c 0); simpl; [discriminate|]. intros _. now apply IH.
Qed.

Lemma find_Some c s e :
  find s c 0 = Some e ->
  exists a b, s = a +:+ String c b /\ String.length a = e /\ lacks c a = true.
Proof.
  unfold lacks. revert e. induction s as [|x s IH]; intros e; simpl; [discriminate|].
  destruct (Ascii.eqb x c) eqn:E.
  - apply Ascii.eqb_eq in E. subst x. intros H. inversion H.
    exists "", s. auto.
  - destruct (find s c 0) as [e'|]; simpl; [|discriminate].
    intros H. inversion H. destruct (IH e' eq_refl) as (a & b & -> & Hl & Ha).
    exists (String x a), b. ssimpl. rewrite E, Ha, Hl. auto.
Qed.

Lemma sdrop_app a b k : sdrop (String.length a + k) (a +:+ b) = sdrop k b.
Proof. induction a as [|x a IH]; ssimpl; auto. Qed.

Lemma sdrop_length a b : sdrop (String.length a) (a +:+ b) = b.
Proof.
  rewrite <- (Nat.add_0_r (String.length a)), sdrop_app. reflexivity.
Qed.

Lemma stake_app a b : stake (String.length a) (a +:+ b) = a.
Proof. induction a as [|x a IH]; ssimpl; [now destruct b | now rewrite IH]. Qed.

Lemma splitOn_lacks d s : lacks d s = true -> splitOn d s = [s].
Proof.
  unfold lacks. induction s as [|c s IH]; simpl; [reflexivity|].
  intros H. apply andb_true_iff in H as [Hc Hs]. apply negb_true_iff in Hc.
  now rewrite Hc, (IH Hs).
Qed.

Lemma splitOn_app d a b :
  lacks d a = true -> splitOn d (a +:+ String d b) = a :: splitOn d b.
Proof.
  unfold lacks. induction a as [|c a IH]; ssimpl.
  - now rewrite Ascii.eqb_refl.
  - intros H. apply andb_true_iff in H as [Hc Ha]. apply negb_true_iff in Hc.
    now rewrite Hc, (IH Ha).
Qed.

(** Searching a pattern of one character is searching the character. *)
Lemma findString_char d s : forall pos,
  findString s (String d "") pos = find s d pos.
Proof.
  induction s as [|a s IH]; intros [|pos]; simpl; try reflexivity.
  - rewrite andb_true_r. destruct (Ascii.eqb a d); [reflexivity|]. now rewrite IH.
  - now rewrite IH.
Qed.

(** What [findString] finds lies between the start of the search and the
    end of the string. *)
Lemma findString_bounds str s : forall pos k,
  findString s str pos = Some k -> (pos <= k <= String.length s)%nat.
Proof.
  induction s as [|a s IH]; intros [|pos] k; simpl; try discriminate.
  - destruct (startsWith str ""); [|discriminate]. intros H. inversion H. lia.
  - destruct (startsWith str (String a s)).
    + intros H. inversion H. lia.
    + destruct (findString s str 0) as [k'|] eqn:E; simpl; [|discriminate].
      intros H. inversion H. apply IH in E. lia.
  - destruct (findString s str pos) as [k'|] eqn:E; simpl; [|discriminate].
    intros H. inversion H. apply IH in E. lia.
Qed.

(** The loop of [split] never runs out of fuel, whatever the delimiter:
    each round moves [start] on, and a round started behind the end of
    the input is the last. *)
Lemma split_loop_fuel input delimiter fuel : forall start output,
  (String.length input + 1 - start < fuel)%nat ->
  split_loop fuel input delimiter start output <> None.
Proof.
  induction fuel as [|fuel IH]; intros start output Hfuel; [lia|].
  cbn [split_loop].
  destruct (String.length input <? start)%nat eqn:Elt; [discriminate|].
  apply Nat.ltb_ge in Elt.
  destruct (findString input delimiter start) as [e|] eqn:E; [|discriminate].
  apply findString_bounds in E. apply IH. lia.
Qed.

Lemma split_fuel input delimiter :
  split_loop (S (S (String.length input))) input delimiter 0 [] <> None.
Proof. apply split_loop_fuel. lia. Qed.

(** The loop of [split] at a delimiter of one character, started behind
    a prefix [p] with fuel for what is left, adds the parts of what is
    left. *)
Lemma split_loop_splitOn d fuel : forall t p output,
  (String.length t < fuel)%nat ->
  split_loop fuel (p +:+ t) (String d "") (String.length p) output
  = Some (Ok (output ++ splitOn d t)).
Proof.
  induction fuel as [|fuel IH]; intros t p output Hfuel; [lia|].
  pose proof (find_app_r p t d 0) as Hf. rewrite Nat.add_0_r in Hf.
  cbn [split_loop]. rewrite findString_char, Hf.
  replace (String.length (p +:+ t) <? String.length p)%nat with false
    by (symmetry; apply Nat.ltb_ge; rewrite slength_app; lia).
  destruct (find t d 0) as [e|] eqn:E; cbn [option_map substr].
  - destruct (find_Some _ _ _ E) as (a & b & -> & Hlen & Ha).
    rewrite splitOn_app by exact Ha.
    replace (String.length p + e - String.length p)%nat with (String.length a) by lia.
    rewrite sdrop_length, stake_app.
    replace (p +:+ a +:+ String d b) with ((p +:+ a +:+ String d "") +:+ b)
      by (now rewrite !sapp_assoc).
    replace (String.length p + e + 1)%nat
      with (String.length (p +:+ a +:+ String d "")).
    + rewrite IH.
      * now rewrite <- app_assoc.
      * rewrite slength_app in Hfuel. simpl in Hfuel. lia.
    + rewrite !slength_app. simpl. lia.
  - rewrite sdrop_length. now rewrite (splitOn_lacks _ _ (find_None _ _ E)).
Qed.

(** [split] at a delimiter of one character, as both calls of the file
    have it (["," ] and ["-"]), does not throw: it is [splitOn]. *)
Lemma split_splitOn input d : split input (String d "") = Ok (splitOn d input).
Proof.
  unfold split.
  pose proof (split_loop_splitOn d (S (S (String.length input))) input "" []
                ltac:(lia)) as H.
  change ("" +:+ input) with input in H. change (String.length "") with 0%nat in H.
  rewrite H. reflexivity.
Qed.

Lemma splitOn_parts d s :
  splitOn d s <> [] /\ Forall (fun part => lacks d part = true) (splitOn d s).
Proof.
  unfold lacks. induction s as [|c s [IH1 IH2]]; simpl.
  - split; [discriminate | repeat constructor].
  - destruct (Ascii.eqb c d) eqn:E.
    + split; [discriminate | constructor; auto].
    + destruct (splitOn d s) as [|part parts]; [congruence|].
      split; [discriminate|]. inversion IH2; subst.
      constructor; auto. simpl. now rewrite E.
Qed.

(* ===================================================================== *)
(** ** Numbers: printing and reading                                      *)
(* ===================================================================== *)

(** Two classes of characters with nothing in common never meet. *)
Lemma class_neq (p : ascii -> bool) c x :
  p c = true -> p x = false -> Ascii.eqb c x = false.
Proof.
  intros Hc Hx. destruct (Ascii.eqb c x) eqn:E; [|reflexivity].
  apply Ascii.eqb_eq in E. congruence.
Qed.

Ltac char_arith :=
  repeat match goal with
         | H : _ && _ = true |- _ => apply andb_true_iff in H as [? ?]
         | H : _ || _ = true |- _ => apply orb_true_iff in H as [?|?]
         | H : (_ <=? _)%nat = true |- _ => apply Nat.leb_le in H
         | H : (_ =? _)%nat = true |- _ => apply Nat.eqb_eq in H
         end.

Lemma isdigit_not_space c : isdigit c = true -> isspace c = false.
Proof.
  unfold isdigit, isspace. intros H. char_arith.
  apply orb_false_iff. split.
  - apply Nat.eqb_neq. lia.
  - apply andb_false_iff. right. apply Nat.leb_gt. lia.
Qed.

Lemma portNameChar_not_space c : isPortNameChar c = true -> isspace c = false.
Proof.
  unfold isPortNameChar, isspace. intros H.
  apply orb_false_iff. split.
  - apply Nat.eqb_neq. char_arith; lia.
  - apply andb_false_iff. right. apply Nat.leb_gt. char_arith; lia.
Qed.

Lemma digitChar_spec k :
  0 <= k < 10 -> isdigit (digitChar k) = true /\ digitValue (digitChar k) = k.
Proof.
  intros H. unfold isdigit, digitValue, digitChar.
  rewrite nat_ascii_embedding by lia. split.
  - apply andb_true_iff. split; apply Nat.leb_le; lia.
  - lia.
Qed.

Lemma putDigits_unfold fuel n acc :
  putDigits fuel n acc
  = match fuel with
    | O => String (digitChar (n mod 10)) acc
    | S fuel' =>
        if n <? 10 then String (digitChar (n mod 10)) acc
        else putDigits fuel' (n / 10) (String (digitChar (n mod 10)) acc)
    end.
Proof. destruct fuel; reflexivity. Qed.

Lemma readDigits_digit k acc (a : option Z) :
  0 <= k < 10 ->
  readDigits (String (digitChar k) acc) a
  = readDigits acc (Some (10 * default 0 a + k)).
Proof.
  intros H. destruct (digitChar_spec k H) as [Hd Hv].
  simpl. now rewrite Hd, Hv.
Qed.

(** Reading what [putDigits] has written gives the number back, and the
    reading goes on behind it. *)
Lemma readDigits_putDigits fuel : forall n acc,
  0 <= n < 10 ^ (Z.of_nat fuel + 1) ->
  readDigits (putDigits fuel n acc) None = readDigits acc (Some n).
Proof.
  induction fuel as [|fuel IH]; intros n acc Hn; rewrite putDigits_unfold.
  - change (10 ^ (Z.of_nat 0 + 1)) with 10 in Hn.
    rewrite Z.mod_small by lia. rewrite readDigits_digit by lia.
    simpl; repeat f_equal; lia.
  - destruct (n <? 10) eqn:E.
    + apply Z.ltb_lt in E. rewrite Z.mod_small by lia.
      rewrite readDigits_digit by lia. simpl; repeat f_equal; lia.
    + apply Z.ltb_ge in E.
      rewrite IH.
      * rewrite readDigits_digit by (apply Z.mod_pos_bound; lia).
        simpl. do 2 f_equal. pose proof (Z.div_mod n 10 ltac:(lia)). lia.
      * replace (Z.of_nat (S fuel) + 1) with (Z.succ (Z.of_nat fuel + 1)) in Hn by lia.
        rewrite Z.pow_succ_r in Hn by lia.
        split; [apply Z.div_pos; lia|].
        apply Z.div_lt_upper_bound; lia.
Qed.

Lemma allChars_putDigits (p : ascii -> bool) fuel : forall n acc,
  (forall c, isdigit c = true -> p c = true) ->
  0 <= n -> allChars p acc = true -> allChars p (putDigits fuel n acc) = true.
Proof.
  induction fuel as [|fuel IH]; intros n acc Hp Hn Hacc; rewrite putDigits_unfold.
  - simpl. rewrite Hacc, Hp; [reflexivity|].
    apply digitChar_spec, Z.mod_pos_bound. lia.
  - assert (Hd : allChars p (String (digitChar (n mod 10)) acc) = true).
    { simpl. rewrite Hacc, Hp; [reflexivity|].
      apply digitChar_spec, Z.mod_pos_bound. lia. }
    destruct (n <? 10); [exact Hd|].
    apply IH; auto. apply Z.div_pos; lia.
Qed.

Lemma putDigits_nonempty fuel : forall n acc, putDigits fuel n acc <> "".
Proof.
  induction fuel as [|fuel IH]; intros n acc; rewrite putDigits_unfold.
  - discriminate.
  - destruct (n <? 10); [discriminate | apply IH].
Qed.

Lemma itoa_nonneg n :
  0 <= n -> itoa n = putDigits (Z.to_nat (Z.log2 n)) n "".
Proof.
  intros H. unfold itoa.
  now replace (n <? 0) with false by (symmetry; apply Z.ltb_ge; lia).
Qed.

Lemma allChars_itoa (p : ascii -> bool) n :
  (forall c, isdigit c = true -> p c = true) -> 0 <= n ->
  allChars p (itoa n) = true.
Proof.
  intros Hp Hn. rewrite itoa_nonneg by exact Hn.
  now apply allChars_putDigits.
Qed.

Lemma lacks_itoa x n :
  isdigit x = false -> 0 <= n -> lacks x (itoa n) = true.
Proof.
  intros Hx Hn. apply allChars_itoa; [|exact Hn].
  intros c Hc. apply negb_true_iff. now apply (class_neq isdigit).
Qed.

Lemma log2_fuel n : 0 <= n -> n < 10 ^ (Z.of_nat (Z.to_nat (Z.log2 n)) + 1).
Proof.
  intros Hn. pose proof (Z.log2_nonneg n) as Hl.
  rewrite Z2Nat.id by exact Hl.
  destruct (Z.eq_dec n 0) as [->|Hz]; [reflexivity|].
  pose proof (Z.log2_spec n ltac:(lia)) as [_ Hup].
  apply Z.lt_le_trans with (1 := Hup).
  replace (Z.succ (Z.log2 n)) with (Z.log2 n + 1) by lia.
  apply Z.pow_le_mono_l. lia.
Qed.

(** What [itoa] prints, [stringToInt] reads. *)
Lemma stringToInt_itoa n : 0 <= n <= INT_MAX -> stringToInt (itoa n) = Ok n.
Proof.
  intros [Hlo Hhi].
  pose proof (allChars_itoa isdigit n (fun c H => H) Hlo) as Hall.
  pose proof (readDigits_putDigits _ n "" (conj Hlo (log2_fuel n Hlo))) as Hread.
  rewrite <- itoa_nonneg in Hread by exact Hlo.
  assert (Hne : itoa n <> "").
  { rewrite itoa_nonneg by exact Hlo. apply putDigits_nonempty. }
  unfold stringToInt, extractInt.
  destruct (itoa n) as [|d rest]; [congruence|].
  simpl in Hall. apply andb_true_iff in Hall as [Hd _].
  simpl skipws. rewrite (isdigit_not_space _ Hd).
  rewrite (class_neq isdigit d "+" Hd eq_refl), (class_neq isdigit d "-" Hd eq_refl).
  rewrite Hread. simpl readDigits. cbv beta iota zeta.
  assert (E : (INT_MIN <=? n) && (n <=? INT_MAX) = true).
  { apply andb_true_iff. split; apply Z.leb_le; unfold INT_MIN; lia. }
  now rewrite E.
Qed.

Lemma loadIndex_itoa n idxList :
  0 <= n <= INT_MAX -> loadIndex (itoa n) idxList = Ok (idxList ++ [n]).
Proof.
  intros Hn. unfold loadIndex.
  rewrite split_splitOn. cbn [bind].
  rewrite splitOn_lacks by (apply lacks_itoa; [reflexivity | lia]).
  now rewrite stringToInt_itoa.
Qed.

(* ===================================================================== *)
(** ** A printed leaf is parsed back                                      *)
(* ===================================================================== *)

Lemma putIndices_more i r :
  putIndices false (i :: r) = String "," (itoa i +:+ putIndices false r).
Proof. reflexivity. Qed.

Lemma putIndices_first i r :
  putIndices true (i :: r) = itoa i +:+ putIndices false r.
Proof. reflexivity. Qed.

Lemma allChars_putIndices (p : ascii -> bool) first dim :
  (forall c, isdigit c = true -> p c = true) -> p ","%char = true ->
  Forall validIndex dim -> allChars p (putIndices first dim) = true.
Proof.
  intros Hp Hcomma Hdim. revert first.
  induction Hdim as [|i dim [Hi _] _ IH]; intros first; [reflexivity|].
  assert (Hrest : allChars p (itoa i +:+ putIndices false dim) = true).
  { rewrite allChars_app, IH, allChars_itoa; auto. }
  destruct first; [rewrite putIndices_first | rewrite putIndices_more; simpl; rewrite Hcomma];
    exact Hrest.
Qed.

Lemma lacks_putIndices x dim :
  isdigit x = false -> Ascii.eqb "," x = false ->
  Forall validIndex dim -> lacks x (putIndices true dim) = true.
Proof.
  intros Hx Hcomma Hdim. apply allChars_putIndices; auto.
  - intros c Hc. apply negb_true_iff. now apply (class_neq isdigit).
  - now rewrite Hcomma.
Qed.

Lemma splitOn_putIndices r : forall i,
  validIndex i -> Forall validIndex r ->
  splitOn "," (itoa i +:+ putIndices false r) = itoa i :: map itoa r.
Proof.
  induction r as [|j r IH]; intros i [Hi _] Hr.
  - change (putIndices false []) with "". rewrite sapp_nil_r.
    apply splitOn_lacks, lacks_itoa; [reflexivity | exact Hi].
  - inversion Hr; subst. rewrite putIndices_more.
    rewrite splitOn_app by (apply lacks_itoa; [reflexivity | exact Hi]).
    simpl map. f_equal. now apply IH.
Qed.

Lemma loadIndexSplit_itoa l : forall idxList,
  Forall validIndex l -> loadIndexSplit (map itoa l) idxList = Ok (idxList ++ l).
Proof.
  induction l as [|i l IH]; intros idxList Hl; simpl.
  - now rewrite app_nil_r.
  - inversion Hl; subst. rewrite loadIndex_itoa by assumption. simpl.
    rewrite IH by assumption. now rewrite <- app_assoc.
Qed.

Lemma loadIndices_putIndices dim :
  validDim dim -> loadIndices (putIndices true dim) = Ok dim.
Proof.
  intros [Hne Hdim]. destruct dim as [|i dim]; [congruence|].
  inversion Hdim; subst. unfold loadIndices.
  rewrite split_splitOn. cbn [bind].
  rewrite putIndices_first, splitOn_putIndices by assumption.
  apply (loadIndexSplit_itoa (i :: dim) []). exact Hdim.
Qed.

Lemma putGroup_unfold dim : putGroup dim = String "[" (putIndices true dim +:+ "]").
Proof. reflexivity. Qed.

Lemma slength_groups dims :
  (length dims <= String.length (sconcat (map putGroup dims)))%nat.
Proof.
  induction dims as [|dim dims IH]; [simpl; lia|].
  cbn [map sconcat length]. rewrite slength_app, putGroup_unfold. simpl. lia.
Qed.

Lemma sconcat_groups_cons dim dims :
  sconcat (map putGroup (dim :: dims))
  = String "[" (putIndices true dim +:+ String "]" (sconcat (map putGroup dims))).
Proof.
  cbn [map sconcat]. rewrite putGroup_unfold, sapp_cons, sapp_assoc. reflexivity.
Qed.

(** Where the loop of [loadFormat] finds the brackets of a group that
    starts behind [pre]. *)
Lemma group_positions pre body rest :
  lacks "]" body = true -> lacks "[" body = true ->
  let format := pre +:+ String "[" (body +:+ String "]" rest) in
  find format "]" (String.length pre)
  = Some (String.length pre + S (String.length body))%nat
  /\ substr format (String.length pre + 1)
       (Some (String.length pre + S (String.length body) - String.length pre - 1)%nat)
     = body
  /\ find format "[" (String.length pre + 1)
     = option_map (fun k => String.length pre + S (String.length body + S k))%nat
         (find rest "[" 0).
Proof.
  intros Hclose Hopen format. unfold format. split; [|split].
  - pose proof (find_app_r pre (String "[" (body +:+ String "]" rest)) "]" 0) as H.
    rewrite Nat.add_0_r in H. rewrite H. simpl find.
    rewrite find_here by exact Hclose. reflexivity.
  - replace (String.length pre + S (String.length body) - String.length pre - 1)%nat
      with (String.length body) by lia.
    unfold substr. rewrite sdrop_app. simpl sdrop. apply stake_app.
  - rewrite find_app_r. simpl find.
    rewrite find_lacks_app by exact Hopen. simpl find.
    destruct (find rest "[" 0); reflexivity.
Qed.

(** The loop of [loadFormat], standing on the bracket that opens the
    printed groups [dim :: dims], reads them all. *)
Lemma loadFormat_loop_groups dims : forall fuel pre dim indices,
  Forall validDim (dim :: dims) ->
  (length dims < fuel)%nat ->
  loadFormat_loop fuel (pre +:+ sconcat (map putGroup (dim :: dims)))
    (String.length pre) indices
  = Some (Ok (indices ++ dim :: dims)).
Proof.
  induction dims as [|dim' dims IH]; intros fuel pre dim indices Hall Hfuel;
    (destruct fuel as [|fuel]; [simpl in Hfuel; lia|]);
    inversion Hall as [|? ? Hdim Hdims]; subst;
    pose proof (proj2 Hdim) as Hvalid;
    rewrite sconcat_groups_cons; cbn [loadFormat_loop];
    match goal with
    | |- context [pre +:+ String "[" (?body +:+ String "]" ?rest)] =>
        destruct (group_positions pre body rest
                    ltac:(apply lacks_putIndices; auto)
                    ltac:(apply lacks_putIndices; auto)) as (F1 & F2 & F3)
    end;
    cbv zeta in F1, F2, F3; rewrite F1, F2, (loadIndices_putIndices _ Hdim), F3.
  - reflexivity.
  - rewrite sconcat_groups_cons. simpl find. cbn [option_map].
    match goal with
    | |- context [(?a <? ?b)%nat] =>
        replace (a <? b)%nat with false by (symmetry; apply Nat.ltb_ge; lia)
    end.
    rewrite <- sconcat_groups_cons.
    replace (pre +:+ String "[" (putIndices true dim +:+ String "]"
                                   (sconcat (map putGroup (dim' :: dims)))))
      with ((pre +:+ putGroup dim) +:+ sconcat (map putGroup (dim' :: dims)))
      by (rewrite putGroup_unfold, !sapp_assoc, !sapp_cons, sapp_assoc; reflexivity).
    replace (String.length pre + S (String.length (putIndices true dim) + 1))%nat
      with (String.length (pre +:+ putGroup dim)).
    + rewrite IH by (auto; simpl in Hfuel; lia). now rewrite <- app_assoc.
    + rewrite slength_app, putGroup_unfold. simpl. rewrite slength_app. simpl. lia.
Qed.

(** The parser reads a printed leaf back. *)
Lemma loadIndexFormat_print name indices :
  lacks "[" name = true ->
  Forall validDim indices ->
  loadIndexFormat (name +:+ sconcat (map putGroup indices))
  = Ok (IndexSelector name indices).
Proof.
  intros Hname Hall. unfold loadIndexFormat.
  destruct indices as [|dim dims].
  - simpl. rewrite sapp_nil_r, (find_lacks _ _ Hname). reflexivity.
  - assert (Hfind : find (name +:+ sconcat (map putGroup (dim :: dims))) "[" 0
                    = Some (String.length name)).
    { rewrite sconcat_groups_cons. now apply find_here. }
    rewrite Hfind, loadFormat_loop_groups.
    + cbn [substr bind]. simpl sdrop. now rewrite stake_app.
    + exact Hall.
    + rewrite slength_app. pose proof (slength_groups (dim :: dims)) as H.
      simpl length in H. lia.
Qed.

(* ===================================================================== *)
(** ** What the parser builds                                             *)
(* ===================================================================== *)

Lemma Value_ind' (P : Value -> Prop) :
  P VNull ->
  (forall n, P (VInt32 n)) ->
  (forall d, P (VFloat64 d)) ->
  (forall s, P (VString s)) ->
  (forall v, P (VVocab32 v)) ->
  (forall l, Forall P l -> P (VList l)) ->
  forall v, P v.
Proof.
  intros HN HI HF HS HV HL. fix IH 1.
  intros [|n|d|s|v|l];
    [exact HN | apply HI | apply HF | apply HS | apply HV |].
  apply HL. induction l as [|x l IHl]; constructor; [apply IH | exact IHl].
Qed.

Lemma isdigit_value c : isdigit c = true -> 0 <= digitValue c.
Proof. unfold isdigit, digitValue. intros H. char_arith. lia. Qed.

Lemma readDigits_nonneg s : forall acc v,
  0 <= default 0 acc -> readDigits s acc = Some v -> 0 <= v.
Proof.
  induction s as [|c s IH]; intros acc v Hacc; simpl.
  - intros ->. exact Hacc.
  - destruct (isdigit c) eqn:E.
    + apply IH. simpl. pose proof (isdigit_value c E). lia.
    + intros ->. exact Hacc.
Qed.

Lemma skipws_lacks x s : lacks x s = true -> lacks x (skipws s) = true.
Proof.
  unfold lacks. induction s as [|c s IH]; simpl; [reflexivity|].
  intros H. destruct (isspace c); [|exact H].
  apply andb_true_iff in H as [_ H]. now apply IH.
Qed.

(** A part without '-' is read as an index that is not negative. *)
Lemma stringToInt_valid str n :
  lacks "-" str = true -> stringToInt str = Ok n -> validIndex n.
Proof.
  intros Hlacks. apply skipws_lacks in Hlacks.
  unfold stringToInt, extractInt, validIndex.
  destruct (skipws str) as [|c r].
  - simpl. discriminate.
  - unfold lacks in Hlacks. simpl in Hlacks.
    apply andb_true_iff in Hlacks as [Hc _]. apply negb_true_iff in Hc.
    rewrite Hc.
    assert (Hgen : forall s', match readDigits s' None with
                   | Some v => if (INT_MIN <=? v) && (v <=? INT_MAX) then Some v else None
                   | None => None
                   end = Some n -> 0 <= n <= INT_MAX).
    { intros s'. destruct (readDigits s' None) as [v|] eqn:E; [|discriminate].
      apply readDigits_nonneg in E; [|simpl; lia].
      destruct ((INT_MIN <=? v) && (v <=? INT_MAX)) eqn:E2; [|discriminate].
      intros H. inversion H; subst. apply andb_true_iff in E2. lia. }
    destruct (Ascii.eqb c "+"); cbv beta iota zeta; intros H; eapply Hgen;
      destruct (readDigits _ None) as [v|] eqn:E';
      try discriminate; rewrite E';
      (destruct ((INT_MIN <=? v) && (v <=? INT_MAX)); [|discriminate]);
      inversion H; reflexivity.
Qed.

(** What a token adds to the list of a dimension: one valid index at
    least. *)
Lemma loadIndex_valid tok idxList l :
  loadIndex tok idxList = Ok l ->
  exists new, l = idxList ++ new /\ new <> [] /\ Forall validIndex new.
Proof.
  unfold loadIndex. rewrite split_splitOn. cbn [bind].
  destruct (splitOn_parts "-" tok) as [_ Hparts].
  destruct (splitOn "-" tok) as [|first [|second [|third parts]]]; try discriminate.
  - inversion Hparts as [|? ? Hfirst _]; subst.
    destruct (stringToInt first) as [i| |] eqn:Ei; try discriminate.
    simpl. intros H. inversion H; subst.
    exists [i]. split; [reflexivity|]. split; [discriminate|].
    constructor; [|constructor]. now apply (stringToInt_valid first).
  - inversion Hparts as [|? ? Hfirst Hrest]; subst.
    inversion Hrest as [|? ? Hsecond _]; subst.
    destruct (stringToInt first) as [start| |] eqn:Es; try discriminate.
    destruct (stringToInt second) as [e| |] eqn:Ee; try discriminate.
    simpl. apply stringToInt_valid in Es; [|exact Hfirst].
    apply stringToInt_valid in Ee; [|exact Hsecond].
    unfold validIndex in *.
    destruct (e <? start) eqn:Elt; [discriminate|]. apply Z.ltb_ge in Elt.
    destruct (Z.eq_dec e INT_MAX) as [->|Hne].
    + rewrite rangeLoop_INT_MAX by (unfold INT_MIN, INT_MAX in *; lia). discriminate.
    + rewrite rangeLoop_seqZ by (unfold INT_MIN, INT_MAX in *; lia).
      intros H. inversion H; subst.
      exists (seqZ start (e - start + 1)). split; [reflexivity|]. split.
      * rewrite seqZ_cons by lia. discriminate.
      * apply Forall_forall. intros x Hx. apply elem_of_seqZ in Hx. lia.
Qed.

Lemma loadIndexSplit_valid toks : forall idxList l,
  loadIndexSplit toks idxList = Ok l ->
  exists new, l = idxList ++ new /\ Forall validIndex new /\ (toks <> [] -> new <> []).
Proof.
  induction toks as [|tok toks IH]; intros idxList l; simpl.
  - intros H. inversion H; subst. exists []. rewrite app_nil_r. auto.
  - destruct (loadIndex tok idxList) as [l1| |] eqn:E1; try discriminate.
    simpl. intros H.
    destruct (loadIndex_valid _ _ _ E1) as (new1 & -> & Hne1 & Hv1).
    destruct (IH _ _ H) as (new2 & -> & Hv2 & _).
    exists (new1 ++ new2). rewrite <- app_assoc. split; [reflexivity|]. split.
    + apply Forall_app. auto.
    + intros _ Happ. apply app_eq_nil in Happ as [? _]. contradiction.
Qed.

Lemma loadIndices_valid format dim : loadIndices format = Ok dim -> validDim dim.
Proof.
  unfold loadIndices. rewrite split_splitOn. cbn [bind]. intros H.
  destruct (loadIndexSplit_valid _ _ _ H) as (new & -> & Hv & Hne).
  simpl. split; [|exact Hv]. apply Hne. apply splitOn_parts.
Qed.

Lemma loadFormat_loop_valid fuel format : forall idxStart indices r,
  Forall validDim indices ->
  loadFormat_loop fuel format idxStart indices = Some (Ok r) ->
  Forall validDim r.
Proof.
  induction fuel as [|fuel IH]; intros idxStart indices r Hall; simpl; [discriminate|].
  destruct (find format "]" idxStart) as [idxEnd|]; [|discriminate].
  destruct (loadIndices _) as [idxList| |] eqn:E; try discriminate.
  apply loadIndices_valid in E.
  assert (Hall' : Forall validDim (indices ++ [idxList])).
  { apply Forall_app. split; [exact Hall | repeat constructor; apply E]. }
  destruct (find format "[" (idxStart + 1)) as [idxStart'|].
  - destruct (idxStart' <? idxEnd)%nat; [discriminate|]. now apply IH.
  - intros H. inversion H; subst. exact Hall'.
Qed.

(** The loop of [loadFormat] moves to a later bracket at each round: it
    never runs out of the fuel it is given. *)
Lemma loadFormat_loop_fuel fuel format : forall idxStart indices,
  (String.length format - idxStart < fuel)%nat ->
  loadFormat_loop fuel format idxStart indices <> None.
Proof.
  induction fuel as [|fuel IH]; intros idxStart indices Hfuel; [lia|]. simpl.
  destruct (find format "]" idxStart) as [idxEnd|]; [|discriminate].
  destruct (loadIndices _) as [idxList| |]; try discriminate.
  destruct (find format "[" (idxStart + 1)) as [idxStart'|] eqn:E; [|discriminate].
  destruct (idxStart' <? idxEnd)%nat; [discriminate|].
  apply IH. apply find_bounds in E. lia.
Qed.

Lemma loadIndexFormat_fuel format idxStart indices :
  loadFormat_loop (S (String.length format)) format idxStart indices <> None.
Proof. apply loadFormat_loop_fuel. lia. Qed.

Lemma loadIndexFormat_valid format ds :
  loadIndexFormat format = Ok ds ->
  exists name indices, ds = IndexSelector name indices /\ Forall validDim indices.
Proof.
  unfold loadIndexFormat. destruct (find format "[" 0) as [i|].
  - destruct (loadFormat_loop _ format i []) as [[indices| |]|] eqn:E;
      simpl; try discriminate.
    intros H. inversion H; subst. eexists _, _. split; [reflexivity|].
    eapply loadFormat_loop_valid; [|exact E]. constructor.
  - intros H. inversion H; subst. eexists _, _. split; [reflexivity | constructor].
Qed.

Lemma loadSpecifier_list l :
  loadSpecifier (VList l) = (children <- loadFormat l ;; Ok (CompositeSelector children)).
Proof.
  reflexivity.
Qed.

Lemma wellFormed_composite cs :
  wellFormed (CompositeSelector cs) <-> Forall wellFormed cs.
Proof.
  simpl. induction cs as [|c cs IH]; simpl.
  - split; [constructor | trivial].
  - rewrite IH. split.
    + intros [H1 H2]. now constructor.
    + intros H. inversion H; auto.
Qed.

Lemma loadSpecifier_wellFormed v : forall ds,
  loadSpecifier v = Ok ds -> wellFormed ds.
Proof.
  induction v as [| | |s| |l IH] using Value_ind'; intros ds; try discriminate.
  - simpl. intros H. destruct (loadIndexFormat_valid _ _ H) as (name & indices & -> & Hv).
    exact Hv.
  - rewrite loadSpecifier_list.
    destruct (loadFormat l) as [cs| |] eqn:E; try discriminate.
    simpl. intros H. inversion H; subst. clear H. apply wellFormed_composite.
    revert cs E. induction IH as [|x l Hx _ IHl]; intros cs; simpl.
    + intros H'. inversion H'. constructor.
    + destruct (loadSpecifier x) as [c| |] eqn:Ec; try discriminate. simpl.
      destruct (loadFormat l) as [cs'| |] eqn:Ecs; try discriminate. simpl.
      intros H'. inversion H'; subst. constructor; auto.
Qed.

Lemma loadFormat_wellFormed format : forall cs,
  loadFormat format = Ok cs -> Forall wellFormed cs.
Proof.
  induction format as [|x format IH]; intros cs; simpl.
  - intros H. inversion H. constructor.
  - destruct (loadSpecifier x) as [c| |] eqn:Ec; try discriminate. simpl.
    destruct (loadFormat format) as [cs'| |] eqn:Ecs; try discriminate. simpl.
    intros H. inversion H; subst. constructor; auto.
    now apply (loadSpecifier_wellFormed x).
Qed.

(* ===================================================================== *)
(** ** Printing a tree and reading it again                               *)
(* ===================================================================== *)

Lemma portNames_composite cs :
  portNames (CompositeSelector cs) = true <-> Forall (fun c => portNames c = true) cs.
Proof.
  simpl. induction cs as [|c cs IH]; simpl.
  - split; [constructor | reflexivity].
  - rewrite andb_true_iff, IH. split.
    + intros [H1 H2]. now constructor.
    + intros H. inversion H; auto.
Qed.

Lemma isPortName_chars name :
  isPortName name = true -> name <> "" /\ allChars isPortNameChar name = true.
Proof.
  unfold isPortName. destruct name; [discriminate|]. split; [discriminate | assumption].
Qed.

Lemma isPortName_lacks x name :
  isPortNameChar x = false -> isPortName name = true -> lacks x name = true.
Proof.
  intros Hx Hname. apply isPortName_chars in Hname as [_ Hall].
  apply (allChars_impl isPortNameChar); [|exact Hall].
  intros c Hc. apply negb_true_iff. now apply (class_neq isPortNameChar).
Qed.

(** A string without a NUL character is its own C string. *)
Lemma c_str_lacks s : lacks Ascii.zero s = true -> c_str s = s.
Proof.
  unfold lacks. induction s as [|c s IH]; [reflexivity|]. simpl.
  intros H. apply andb_true_iff in H as [Hc Hs]. apply negb_true_iff in Hc.
  rewrite Hc. f_equal. now apply IH.
Qed.

(** The C string holds no NUL character, and is the front of the string. *)
Lemma lacks_c_str s : lacks Ascii.zero (c_str s) = true.
Proof.
  unfold lacks. induction s as [|c s IH]; [reflexivity|]. simpl.
  destruct (Ascii.eqb c Ascii.zero) eqn:E; [reflexivity|]. simpl. now rewrite E.
Qed.

Lemma lacks_groups x dims :
  isdigit x = false -> Ascii.eqb "," x = false ->
  Ascii.eqb "[" x = false -> Ascii.eqb "]" x = false ->
  Forall validDim dims -> lacks x (sconcat (map putGroup dims)) = true.
Proof.
  intros Hx Hcomma Hopen Hclose. unfold lacks.
  induction 1 as [|dim dims [_ Hdim] _ IH]; [reflexivity|].
  rewrite sconcat_groups_cons. cbn [allChars]. rewrite allChars_app. cbn [allChars].
  rewrite IH, Hopen, Hclose.
  pose proof (lacks_putIndices x dim Hx Hcomma Hdim) as Hl. unfold lacks in Hl.
  rewrite Hl. reflexivity.
Qed.

(** The text of a leaf named by a port name holds no NUL character. *)
Lemma c_str_leaf name indices :
  isPortName name = true -> Forall validDim indices ->
  c_str (name +:+ sconcat (map putGroup indices))
  = name +:+ sconcat (map putGroup indices).
Proof.
  intros Hname Hdims. apply c_str_lacks. unfold lacks. rewrite allChars_app.
  apply andb_true_iff. split.
  - now apply (isPortName_lacks Ascii.zero).
  - now apply (lacks_groups Ascii.zero).
Qed.

(** The parser turns the format of a tree into the tree. *)
Lemma loadSpecifier_unparse ds :
  wellFormed ds -> portNames ds = true -> loadSpecifier (unparse ds) = Ok ds.
Proof.
  induction ds as [name indices|cs IH|cs _] using DataSelector_ind'.
  - intros Hwf Hname. simpl in *. rewrite c_str_leaf by assumption.
    apply loadIndexFormat_print; [|exact Hwf].
    now apply isPortName_lacks.
  - intros Hwf Hnames. apply wellFormed_composite in Hwf.
    apply portNames_composite in Hnames.
    cbn [unparse]. rewrite loadSpecifier_list.
    assert (Hcs : loadFormat (map unparse cs) = Ok cs).
    { induction IH as [|c cs Hc _ IHcs]; [reflexivity|].
      inversion Hwf; inversion Hnames; subst. simpl.
      rewrite Hc by assumption. simpl. rewrite IHcs by assumption. reflexivity. }
    now rewrite Hcs.
  - intros [].
Qed.

Lemma loadFormat_unparse cs :
  Forall wellFormed cs -> Forall (fun c => portNames c = true) cs ->
  loadFormat (map unparse cs) = Ok cs.
Proof.
  induction 1 as [|c cs Hc _ IH]; intros Hnames; [reflexivity|].
  inversion Hnames; subst. simpl.
  rewrite loadSpecifier_unparse by assumption. simpl.
  rewrite IH by assumption. reflexivity.
Qed.

Lemma isdigit_token c : isdigit c = true -> isTokenChar c = true.
Proof.
  intros H. unfold isTokenChar.
  rewrite (isdigit_not_space _ H).
  now rewrite (class_neq isdigit c "(" H eq_refl), (class_neq isdigit c ")" H eq_refl).
Qed.

Lemma portNameChar_token c : isPortNameChar c = true -> isTokenChar c = true.
Proof.
  intros H. unfold isTokenChar.
  rewrite (portNameChar_not_space _ H).
  now rewrite (class_neq isPortNameChar c "(" H eq_refl),
    (class_neq isPortNameChar c ")" H eq_refl).
Qed.

Lemma allChars_groups dims :
  Forall validDim dims -> allChars isTokenChar (sconcat (map putGroup dims)) = true.
Proof.
  induction 1 as [|dim dims [_ Hdim] _ IH]; [reflexivity|].
  rewrite sconcat_groups_cons. simpl. rewrite allChars_app. simpl.
  rewrite IH, allChars_putIndices; auto using isdigit_token.
Qed.

(** The text of a leaf is one specifier for the reader. *)
Lemma leaf_token name indices :
  isPortName name = true -> Forall validDim indices ->
  allChars isTokenChar (name +:+ sconcat (map putGroup indices)) = true
  /\ name +:+ sconcat (map putGroup indices) <> "".
Proof.
  intros Hname Hdims. destruct (isPortName_chars _ Hname) as [Hne Hall]. split.
  - rewrite allChars_app, allChars_groups by exact Hdims.
    rewrite (allChars_impl _ _ _ portNameChar_token Hall). reflexivity.
  - destruct name; [congruence | discriminate].
Qed.

Lemma readSpecs_token t : forall rest tok cur stack,
  allChars isTokenChar t = true ->
  readSpecs (t +:+ rest) tok cur stack = readSpecs rest (tok +:+ t) cur stack.
Proof.
  induction t as [|c t IH]; intros rest tok cur stack Hall.
  - now rewrite sapp_nil_l, sapp_nil_r.
  - simpl in Hall. apply andb_true_iff in Hall as [Hc Ht].
    unfold isTokenChar in Hc.
    apply andb_true_iff in Hc as [Hc Hclose]. apply andb_true_iff in Hc as [Hsp Hopen].
    apply negb_true_iff in Hsp, Hopen, Hclose.
    rewrite sapp_cons. simpl. rewrite Hsp, Hopen, Hclose.
    rewrite IH by exact Ht. now rewrite sapp_assoc.
Qed.

Lemma readSpecs_spaces n rest cur stack :
  readSpecs (spaces n +:+ rest) "" cur stack = readSpecs rest "" cur stack.
Proof. induction n as [|n IH]; [reflexivity|]. simpl spaces. rewrite sapp_cons. exact IH. Qed.

Lemma readSpecs_endl rest tok cur stack :
  readSpecs (endl +:+ rest) tok cur stack = readSpecs rest "" (flushToken tok cur) stack.
Proof. reflexivity. Qed.

Lemma toString_leaf name indices indent :
  toString (IndexSelector name indices) indent
  = spaces indent +:+ (name +:+ sconcat (map putGroup indices)) +:+ endl.
Proof. simpl. now rewrite sapp_assoc. Qed.

Lemma toString_children cs indent :
  toString (CompositeSelector cs) indent
  = spaces indent +:+ String "(" (endl
      +:+ sconcat (map (fun c => toString c (indent + 2)) cs)
      +:+ spaces indent +:+ String ")" endl)
  /\ toString (RootSelector cs) indent = toString (CompositeSelector cs) indent.
Proof. split; reflexivity. Qed.

(** The reader, on the text of a tree, adds the format of the tree to
    the list it is filling. *)
Lemma readSpecs_tree ds :
  wellFormed ds -> portNames ds = true ->
  forall indent rest cur stack,
    readSpecs (toString ds indent +:+ rest) "" cur stack
    = readSpecs rest "" (cur ++ [unparse ds]) stack.
Proof.
  induction ds as [name indices|cs IH|cs _] using DataSelector_ind'.
  - intros Hwf Hname indent rest cur stack. simpl in Hwf, Hname.
    destruct (leaf_token name indices Hname Hwf) as [Htok Hne].
    rewrite toString_leaf. cbn [unparse].
    set (t := name +:+ sconcat (map putGroup indices)) in *.
    rewrite !sapp_assoc, readSpecs_spaces.
    rewrite readSpecs_token by exact Htok. rewrite sapp_nil_l, readSpecs_endl.
    destruct t; [congruence | reflexivity].
  - intros Hwf Hnames indent rest cur stack.
    apply wellFormed_composite in Hwf. apply portNames_composite in Hnames.
    rewrite (proj1 (toString_children cs indent)).
    rewrite sapp_assoc, readSpecs_spaces, sapp_cons.
    cbn [readSpecs]. change (isspace "(") with false.
    change (Ascii.eqb "(" "(") with true. cbv iota.
    rewrite !sapp_assoc, readSpecs_endl.
    change (flushToken "" []) with (@nil Value).
    change (flushToken "" cur) with cur.
    assert (Hcs : forall acc,
      readSpecs (sconcat (map (fun c => toString c (indent + 2)) cs)
                 +:+ spaces indent +:+ String ")" endl +:+ rest) "" acc (cur :: stack)
      = readSpecs rest "" (cur ++ [VList (acc ++ map unparse cs)]) stack).
    { induction IH as [|c cs Hc _ IHcs]; intros acc.
      - cbn [map sconcat]. rewrite sapp_nil_l, readSpecs_spaces, sapp_cons.
        cbn [readSpecs]. change (isspace ")") with false.
        change (Ascii.eqb ")" "(") with false. change (Ascii.eqb ")" ")") with true.
        cbv iota. rewrite readSpecs_endl. now rewrite app_nil_r.
      - inversion Hwf; inversion Hnames; subst.
        cbn [map sconcat]. rewrite sapp_assoc, Hc by assumption.
        rewrite IHcs by assumption. now rewrite <- app_assoc. }
    rewrite Hcs. reflexivity.
  - intros [].
Qed.

Lemma reparse_root cs :
  Forall wellFormed cs -> Forall (fun c => portNames c = true) cs ->
  reparse (RootSelector cs) = Ok (RootSelector cs).
Proof.
  intros Hwf Hnames. unfold reparse, readFormat.
  rewrite (proj2 (toString_children cs 0)).
  rewrite <- (sapp_nil_r (toString (CompositeSelector cs) 0)).
  rewrite readSpecs_tree
    by (first [now apply wellFormed_composite | now apply portNames_composite]).
  cbn [readSpecs flushToken app unparse].
  unfold newRootSelector. now rewrite loadFormat_unparse.
Qed.

(** C3, as the spec states it, fails: the format with the one specifier
    "a b" parses into a tree with one leaf; printed and read again, the
    tree has two leaves, "a" and "b". *)
Lemma roundtrip_splits_name_with_space :
  newRootSelector [VString "a b"] = Ok (RootSelector [IndexSelector "a b" []])
  /\ reparse (RootSelector [IndexSelector "a b" []])
     = Ok (RootSelector [IndexSelector "a" []; IndexSelector "b" []])
  /\ reparse (RootSelector [IndexSelector "a b" []])
     <> Ok (RootSelector [IndexSelector "a b" []]).
Proof.
  split; [vm_compute; reflexivity|].
  split; [vm_compute; reflexivity|].
  vm_compute. discriminate.
Qed.

(** C3, amended: for every format that parses into a selector tree whose
    leaves are named by port names of the grammar ([a-zA-Z0-9_:/]+),
    printing the tree with [toString], reading the text and parsing it
    again gives the same tree: same leaf names, same indices in each
    dimension, same grouping, no nesting level added. *)
Theorem toString_roundtrip format ds :
  newRootSelector format = Ok ds ->
  portNames ds = true ->
  reparse ds = Ok ds.
Proof.
  unfold newRootSelector.
  destruct (loadFormat format) as [cs| |] eqn:E; try discriminate.
  simpl. intros H Hnames. inversion H; subst.
  apply reparse_root.
  - now apply (loadFormat_wellFormed format).
  - now apply portNames_composite.
Qed.

Lemma toString_roundtrip_witness :
  reparse (RootSelector
             [IndexSelector "/foo:o" [[3; 1]];
              IndexSelector "/bar:o" [[2; 3]; [1; 2; 3; 4]];
              CompositeSelector [IndexSelector "/baz:o" []]])
  = Ok (RootSelector
          [IndexSelector "/foo:o" [[3; 1]];
           IndexSelector "/bar:o" [[2; 3]; [1; 2; 3; 4]];
           CompositeSelector [IndexSelector "/baz:o" []]]).
Proof.
  apply (toString_roundtrip
           [VString "/foo:o[3,1]"; VString "/bar:o[2,3][1-4]";
            VList [VString "/baz:o"]]).
  - vm_compute. reflexivity.
  - vm_compute. reflexivity.
Defined.

(* ===================================================================== *)
(** ** The fuel of getInputName                                           *)
(* ===================================================================== *)

Lemma putDigits_acc fuel : forall n acc,
  putDigits fuel n acc = putDigits fuel n "" +:+ acc.
Proof.
  induction fuel as [|fuel IH]; intros n acc;
    rewrite (putDigits_unfold _ n acc), (putDigits_unfold _ n "").
  - reflexivity.
  - destruct (n <? 10); [reflexivity|].
    rewrite (IH _ (String _ acc)), (IH _ (String _ "")).
    now rewrite sapp_assoc.
Qed.

(** A printed number is read back also when a text that does not start
    with a digit follows it. *)
Lemma extractInt_itoa_then n rest :
  0 <= n <= INT_MAX ->
  readDigits rest (Some n) = Some n ->
  extractInt (itoa n +:+ rest) = Some n.
Proof.
  intros [Hlo Hhi] Hrest.
  pose proof (allChars_itoa isdigit n (fun c H => H) Hlo) as Hall.
  pose proof (readDigits_putDigits _ n rest (conj Hlo (log2_fuel n Hlo))) as Hread.
  rewrite putDigits_acc, <- itoa_nonneg in Hread by exact Hlo.
  assert (Hne : itoa n <> "").
  { rewrite itoa_nonneg by exact Hlo. apply putDigits_nonempty. }
  unfold extractInt.
  destruct (itoa n) as [|d digits]; [congruence|].
  simpl in Hall. apply andb_true_iff in Hall as [Hd _].
  rewrite sapp_cons in *. simpl skipws. rewrite (isdigit_not_space _ Hd).
  rewrite (class_neq isdigit d "+" Hd eq_refl), (class_neq isdigit d "-" Hd eq_refl).
  rewrite Hread, Hrest. cbv beta iota zeta.
  assert (E : (INT_MIN <=? n) && (n <=? INT_MAX) = true).
  { apply andb_true_iff. split; apply Z.leb_le; unfold INT_MIN; lia. }
  now rewrite E.
Qed.

(** Different counters give different names. *)
Lemma inputName_inj prefix i j :
  0 <= i <= INT_MAX -> 0 <= j <= INT_MAX ->
  inputName prefix i = inputName prefix j -> i = j.
Proof.
  intros Hi Hj H. unfold inputName in H.
  apply (inj (String.app prefix)) in H.
  pose proof (extractInt_itoa_then i ":i" Hi eq_refl) as Ei.
  pose proof (extractInt_itoa_then j ":i" Hj eq_refl) as Ej.
  rewrite H in Ei. congruence.
Qed.

(** When the loop gives up, every name it has tried is taken. *)
Lemma getInputName_loop_None net prefix fuel : forall i,
  1 <= i -> i + Z.of_nat fuel <= INT_MAX + 1 ->
  getInputName_loop fuel net prefix i = None ->
  forall j, i <= j < i + Z.of_nat fuel -> inputName prefix j ∈ names net.
Proof.
  induction fuel as [|fuel IH]; intros i Hi Hmax Hnone j Hj; [lia|].
  simpl in Hnone. unfold queryName in Hnone.
  destruct (bool_decide (inputName prefix i ∈ names net)) eqn:E; [|discriminate].
  apply bool_decide_eq_true in E.
  destruct (Z.eq_dec j i) as [->|Hne]; [exact E|].
  rewrite wrap32_id in Hnone by (unfold INT_MIN, INT_MAX in *; lia).
  apply (IH (i + 1)); auto; lia.
Qed.

(** [getInputName] finds a free name: with [n] names registered, one of
    the first [n + 1] candidates is free. *)
Lemma getInputName_total net prefix :
  Z.of_nat (stdpp.base.size (names net)) < INT_MAX ->
  exists n, getInputName net prefix = Some n /\ queryName net n = false.
Proof.
  intros Hsize. unfold getInputName.
  destruct (getInputName_loop _ net prefix 1) as [n|] eqn:E.
  - exists n. split; [reflexivity|].
    revert E. generalize (S (stdpp.base.size (names net))) 1.
    intros fuel. induction fuel as [|fuel IH]; intros i; simpl; [discriminate|].
    destruct (queryName net (inputName prefix i)) eqn:Eq.
    + apply IH.
    + intros H. inversion H; subst. exact Eq.
  - exfalso.
    pose proof (getInputName_loop_None net prefix
                  (S (stdpp.base.size (names net))) 1 ltac:(lia)
                  ltac:(unfold INT_MAX in *; lia) E) as Hall.
    set (k := stdpp.base.size (names net)) in *.
    set (l := seqZ 1 (Z.of_nat (S k))).
    assert (Hsub : list_to_set (inputName prefix <$> l) ⊆ names net).
    { intros x Hx. apply elem_of_list_to_set, list_elem_of_fmap in Hx
        as (j & -> & Hj).
      apply elem_of_seqZ in Hj. apply Hall. lia. }
    apply subseteq_size in Hsub.
    rewrite size_list_to_set in Hsub.
    + rewrite length_fmap in Hsub. unfold l in Hsub.
      rewrite length_seqZ in Hsub. fold k in Hsub. lia.
    + apply NoDup_fmap_2_strong; [|apply NoDup_seqZ].
      intros x y Hx Hy. apply elem_of_seqZ in Hx, Hy.
      apply inputName_inj; unfold INT_MAX in *; lia.
Qed.

(* ===================================================================== *)
(** * Further properties                                                  *)
(* ===================================================================== *)

(* ===================================================================== *)
(** ** split                                                              *)
(* ===================================================================== *)

Lemma sjoin_splitOn d s : sjoin d (splitOn d s) = s.
Proof.
  induction s as [|c s IH]; [reflexivity|].
  cbn [splitOn]. destruct (Ascii.eqb c d) eqn:E.
  - apply Ascii.eqb_eq in E. subst c.
    destruct (splitOn_parts d s) as [Hne _].
    cbn [sjoin]. destruct (splitOn d s) as [|part parts]; [congruence|].
    rewrite IH. reflexivity.
  - destruct (splitOn_parts d s) as [Hne _].
    destruct (splitOn d s) as [|part parts]; [congruence|].
    destruct parts as [|part' parts].
    + simpl in IH. simpl. now rewrite IH.
    + cbn [sjoin] in IH |- *. rewrite sapp_cons. now rewrite IH.
Qed.

Lemma length_splitOn d s : length (splitOn d s) = S (countChar d s).
Proof.
  induction s as [|c s IH]; [reflexivity|].
  cbn [splitOn countChar]. destruct (Ascii.eqb c d).
  - simpl. now rewrite IH.
  - destruct (splitOn d s) as [|part parts]; simpl in *; lia.
Qed.

(** X1: at a delimiter of one character (both calls of the file pass
    one, "," and "-"), [split] returns and loses nothing: putting the
    parts together again, the delimiter between them, gives the input
    back. *)
Theorem split_sjoin input d :
  exists parts, split input (String d "") = Ok parts /\ sjoin d parts = input.
Proof.
  exists (splitOn d input). split; [apply split_splitOn | apply sjoin_splitOn].
Qed.

(** X2: at a delimiter of one character, [split] returns one part more
    than the delimiter occurs in the input (so at least one part, also
    for the empty input), and no part holds the delimiter. *)
Theorem split_parts input d :
  exists parts,
    split input (String d "") = Ok parts
    /\ length parts = S (countChar d input)
    /\ Forall (fun part => lacks d part = true) parts.
Proof.
  exists (splitOn d input).
  split; [apply split_splitOn|]. split; [apply length_splitOn | apply splitOn_parts].
Qed.

(** The empty pattern is found where the search starts. *)
Lemma findString_empty s : forall pos,
  findString s "" pos = if (pos <=? String.length s)%nat then Some pos else None.
Proof.
  induction s as [|a s IH]; intros [|pos]; simpl; try reflexivity.
  rewrite IH. now destruct (pos <=? String.length s)%nat.
Qed.

(** A pattern that is not empty ends inside the string: it is found in
    front of the end. *)
Lemma findString_inside str s : forall pos k,
  str <> "" -> findString s str pos = Some k -> (k < String.length s)%nat.
Proof.
  destruct str as [|c str]; [congruence|].
  induction s as [|a s IH]; intros [|pos] k _; simpl; try discriminate.
  - destruct (Ascii.eqb a c && startsWith str s).
    + intros H. inversion H. lia.
    + destruct (findString s (String c str) 0) as [k'|] eqn:E; simpl; [|discriminate].
      intros H. inversion H. apply IH in E; [lia | discriminate].
  - destruct (findString s (String c str) pos) as [k'|] eqn:E; simpl; [|discriminate].
    intros H. inversion H. apply IH in E; [lia | discriminate].
Qed.

Lemma split_loop_empty input fuel : forall start output,
  (String.length input + 1 - start < fuel)%nat ->
  split_loop fuel input "" start output = Some (Throw SubstrOutOfRange).
Proof.
  induction fuel as [|fuel IH]; intros start output Hfuel; [lia|].
  cbn [split_loop]. rewrite findString_empty.
  destruct (String.length input <? start)%nat eqn:Elt; [reflexivity|].
  apply Nat.ltb_ge in Elt.
  replace (start <=? String.length input)%nat with true
    by (symmetry; apply Nat.leb_le; lia).
  apply IH. lia.
Qed.

Lemma split_loop_nonempty input delimiter fuel : forall start output,
  delimiter <> "" ->
  (start <= String.length input)%nat ->
  (String.length input + 1 - start < fuel)%nat ->
  exists parts,
    split_loop fuel input delimiter start output = Some (Ok parts) /\ parts <> [].
Proof.
  induction fuel as [|fuel IH]; intros start output Hd Hstart Hfuel; [lia|].
  cbn [split_loop].
  replace (String.length input <? start)%nat with false
    by (symmetry; apply Nat.ltb_ge; lia).
  destruct (findString input delimiter start) as [e|] eqn:E.
  - pose proof (findString_bounds _ _ _ _ E) as Hb.
    pose proof (findString_inside _ _ _ _ Hd E) as Hi.
    apply IH; [exact Hd | lia | lia].
  - eexists. split; [reflexivity|]. now destruct output.
Qed.

(** X20: the length of the delimiter decides whether [split] returns.
    With the empty delimiter every round finds the delimiter where it
    searches, and the round started behind the end of the input throws
    the [std::out_of_range] of [substr]: [split] throws on every input.
    With any other delimiter [split] returns, and at least one part. *)
Theorem split_delimiter input delimiter :
  (delimiter = "" -> split input delimiter = Throw SubstrOutOfRange)
  /\ (delimiter <> "" ->
      exists parts, split input delimiter = Ok parts /\ parts <> []).
Proof.
  unfold split. split.
  - intros ->. rewrite split_loop_empty by lia. reflexivity.
  - intros Hd.
    destruct (split_loop_nonempty input delimiter (S (S (String.length input)))
                0%nat [] Hd ltac:(lia) ltac:(lia)) as (parts & -> & Hne).
    exists parts. auto.
Qed.

Lemma split_delimiter_witness :
  split "1,2" "" = Throw SubstrOutOfRange
  /\ exists parts, split "a--b" "--" = Ok parts /\ parts <> [].
Proof.
  split.
  - apply (proj1 (split_delimiter "1,2" "")). reflexivity.
  - apply (proj2 (split_delimiter "a--b" "--")). discriminate.
Defined.

(* ===================================================================== *)
(** ** stringToInt                                                        *)
(* ===================================================================== *)

Lemma itoa_neg n :
  n < 0 -> itoa n = String "-" (putDigits (Z.to_nat (Z.log2 (- n))) (- n) "").
Proof.
  intros H. unfold itoa.
  now replace (n <? 0) with true by (symmetry; apply Z.ltb_lt; lia).
Qed.

Lemma extractInt_itoa n :
  extractInt (itoa n)
  = if (INT_MIN <=? n) && (n <=? INT_MAX) then Some n else None.
Proof.
  destruct (Z.ltb_spec n 0) as [Hneg|Hpos].
  - rewrite itoa_neg by exact Hneg.
    assert (Hopp : 0 <= - n) by lia.
    pose proof (readDigits_putDigits _ (- n) ""
                  (conj Hopp (log2_fuel (- n) Hopp))) as Hread.
    unfold extractInt. simpl skipws.
    change (isspace "-") with false. cbv iota.
    change (Ascii.eqb "-" "+") with false. change (Ascii.eqb "-" "-") with true.
    cbv iota. rewrite Hread. simpl readDigits. cbv beta iota zeta.
    now rewrite Z.opp_involutive.
  - pose proof (allChars_itoa isdigit n (fun c H => H) Hpos) as Hall.
    pose proof (readDigits_putDigits _ n "" (conj Hpos (log2_fuel n Hpos))) as Hread.
    rewrite <- itoa_nonneg in Hread by exact Hpos.
    assert (Hne : itoa n <> "").
    { rewrite itoa_nonneg by exact Hpos. apply putDigits_nonempty. }
    unfold extractInt.
    destruct (itoa n) as [|d rest]; [congruence|].
    simpl in Hall. apply andb_true_iff in Hall as [Hd _].
    simpl skipws. rewrite (isdigit_not_space _ Hd).
    rewrite (class_neq isdigit d "+" Hd eq_refl), (class_neq isdigit d "-" Hd eq_refl).
    rewrite Hread. reflexivity.
Qed.

(** X3: what [operator<<] prints for an integer, [stringToInt] reads
    back when the integer fits an [int]; the text of a number outside
    the range of [int] is refused, it is not wrapped around. *)
Theorem stringToInt_itoa_all n :
  stringToInt (itoa n)
  = if (INT_MIN <=? n) && (n <=? INT_MAX) then Ok n
    else Throw (CouldNotReadInteger (itoa n)).
Proof.
  unfold stringToInt. rewrite extractInt_itoa.
  now destruct ((INT_MIN <=? n) && (n <=? INT_MAX)).
Qed.

Lemma readDigits_no_digit s : startsWithDigit s = false -> readDigits s None = None.
Proof. destruct s as [|c r]; simpl; [reflexivity | now intros ->]. Qed.

(** X4: [stringToInt] throws "Could not read integer" on a text that,
    after its leading white space, is empty, or starts with a character
    that is neither a digit nor a sign, or starts with a sign that no
    digit follows. *)
Theorem stringToInt_no_number str :
  match skipws str with
  | EmptyString => True
  | String c r =>
      isdigit c = false
      /\ (Ascii.eqb c "+" || Ascii.eqb c "-" = true -> startsWithDigit r = false)
  end ->
  stringToInt str = Throw (CouldNotReadInteger str).
Proof.
  unfold stringToInt, extractInt.
  destruct (skipws str) as [|c r]; [reflexivity|].
  intros [Hc Hsign].
  destruct (Ascii.eqb c "+") eqn:Eplus.
  - now rewrite readDigits_no_digit by (apply Hsign; reflexivity).
  - destruct (Ascii.eqb c "-") eqn:Eminus.
    + now rewrite readDigits_no_digit by (apply Hsign; reflexivity).
    + now rewrite readDigits_no_digit by exact Hc.
Qed.

Lemma stringToInt_no_number_witness :
  stringToInt "  -x7" = Throw (CouldNotReadInteger "  -x7").
Proof.
  apply (stringToInt_no_number "  -x7").
  simpl. split; [reflexivity | intros _; reflexivity].
Defined.

(* ===================================================================== *)
(** ** loadIndices and loadFormat of a leaf                               *)
(* ===================================================================== *)

(** X5: what [loadFormat] makes of a specifier.  The name is the text in
    front of the first opening bracket (the whole specifier when there
    is none) and so holds no bracket; every dimension has one index at
    least, and every index is between 0 and [INT_MAX]: no parsed index
    is negative. *)
Theorem loadIndexFormat_leaf format ds :
  loadIndexFormat format = Ok ds ->
  exists name indices,
    ds = IndexSelector name indices
    /\ lacks "[" name = true
    /\ (format = name \/ exists rest, format = name +:+ String "[" rest)
    /\ Forall validDim indices.
Proof.
  unfold loadIndexFormat. destruct (find format "[" 0) as [i|] eqn:Efind.
  - destruct (find_Some _ _ _ Efind) as (a & b & -> & Hlen & Ha). subst i.
    destruct (loadFormat_loop _ _ _ []) as [[indices| |]|] eqn:E;
      simpl bind; try discriminate.
    intros H. inversion H; subst.
    exists a, indices. cbn [substr]. simpl sdrop. rewrite stake_app.
    split; [reflexivity|]. split; [exact Ha|]. split; [right; eauto|].
    eapply loadFormat_loop_valid; [|exact E]. constructor.
  - intros H. inversion H; subst. exists format, [].
    split; [reflexivity|]. split; [now apply find_None|].
    split; [now left | constructor].
Qed.

Lemma loadIndexFormat_leaf_witness :
  exists name indices,
    IndexSelector "/bar:o" [[2; 3]; [1; 2; 3; 4]] = IndexSelector name indices
    /\ lacks "[" name = true
    /\ ("/bar:o[2,3][1-4]" = name
        \/ exists rest, "/bar:o[2,3][1-4]" = name +:+ String "[" rest)
    /\ Forall validDim indices.
Proof.
  apply (loadIndexFormat_leaf "/bar:o[2,3][1-4]"). vm_compute. reflexivity.
Defined.

Lemma splitOn_app_any d a b :
  splitOn d (a +:+ String d b) = splitOn d a ++ splitOn d b.
Proof.
  induction a as [|c a IH]; rewrite ?sapp_cons, ?sapp_nil_l; cbn [splitOn].
  - now rewrite Ascii.eqb_refl.
  - rewrite IH. destruct (Ascii.eqb c d); [reflexivity|].
    destruct (splitOn_parts d a) as [Hne _].
    destruct (splitOn d a) as [|part parts]; [congruence | reflexivity].
Qed.

Lemma rangeLoop_acc fuel : forall idx e idxList,
  rangeLoop fuel idx e idxList
  = option_map (app idxList) (rangeLoop fuel idx e []).
Proof.
  induction fuel as [|fuel IH]; intros idx e idxList; simpl;
    destruct (idx <=? e); simpl; rewrite ?app_nil_r; try reflexivity.
  rewrite (IH _ _ (idxList ++ [idx])), (IH _ _ [idx]).
  destruct (rangeLoop fuel (wrap32 (idx + 1)) e []); simpl; [|reflexivity].
  now rewrite <- app_assoc.
Qed.

(** What a token adds does not depend on what the list holds already. *)
Lemma loadIndex_acc tok idxList :
  loadIndex tok idxList = (new <- loadIndex tok [] ;; Ok (idxList ++ new)).
Proof.
  unfold loadIndex. rewrite split_splitOn. cbn [bind].
  destruct (splitOn "-" tok) as [|first [|second [|third parts]]]; try reflexivity.
  - destruct (stringToInt first); reflexivity.
  - destruct (stringToInt first) as [start| |]; try reflexivity.
    destruct (stringToInt second) as [e| |]; try reflexivity. simpl.
    destruct (e <? start); [reflexivity|].
    rewrite rangeLoop_acc. now destruct (rangeLoop _ start e []).
Qed.

Lemma loadIndexSplit_acc toks : forall idxList,
  loadIndexSplit toks idxList
  = (new <- loadIndexSplit toks [] ;; Ok (idxList ++ new)).
Proof.
  induction toks as [|tok toks IH]; intros idxList; simpl.
  - now rewrite app_nil_r.
  - rewrite (loadIndex_acc tok idxList).
    destruct (loadIndex tok []) as [new| |]; simpl; try reflexivity.
    rewrite (IH (idxList ++ new)), (IH new).
    destruct (loadIndexSplit toks []); simpl; try reflexivity.
    now rewrite <- app_assoc.
Qed.

Lemma loadIndexSplit_app toks1 : forall toks2 idxList,
  loadIndexSplit (toks1 ++ toks2) idxList
  = (l <- loadIndexSplit toks1 idxList ;; loadIndexSplit toks2 l).
Proof.
  induction toks1 as [|tok toks1 IH]; intros toks2 idxList; simpl; [reflexivity|].
  destruct (loadIndex tok idxList); simpl; auto.
Qed.

(** X6: a comma joins two lists of indices: the indices of the text in
    front of it, then those of the text behind it, in that order and
    with their duplicates; the first text that cannot be read decides
    the error. *)
Theorem loadIndices_comma a b :
  loadIndices (a +:+ String "," b)
  = (la <- loadIndices a ;; lb <- loadIndices b ;; Ok (la ++ lb)).
Proof.
  unfold loadIndices. rewrite !split_splitOn. cbn [bind].
  rewrite splitOn_app_any, loadIndexSplit_app.
  destruct (loadIndexSplit (splitOn "," a) []) as [la| |]; simpl; try reflexivity.
  apply loadIndexSplit_acc.
Qed.

Lemma find_lacks_from c s : lacks c s = true -> forall pos, find s c pos = None.
Proof.
  unfold lacks. induction s as [|a s IH]; simpl; [reflexivity|].
  intros H pos. apply andb_true_iff in H as [Ha Hs]. apply negb_true_iff in Ha.
  destruct pos as [|pos]; [rewrite Ha|]; now rewrite (IH Hs).
Qed.

Lemma loadIndexFormat_unfold name rest :
  lacks "[" name = true ->
  loadIndexFormat (name +:+ String "[" rest)
  = match loadFormat_loop (S (String.length (name +:+ String "[" rest)))
            (name +:+ String "[" rest) (String.length name) [] with
    | Some r => indices <- r ;; Ok (IndexSelector name indices)
    | None => Undefined
    end.
Proof.
  intros Hname. unfold loadIndexFormat.
  rewrite (find_here _ _ _ Hname). cbn [substr]. simpl sdrop.
  now rewrite stake_app.
Qed.

(** X7: a specifier whose first opening bracket has no closing bracket
    behind it is refused with "Missing closing bracket". *)
Theorem missing_closing_bracket name rest :
  lacks "[" name = true ->
  lacks "]" rest = true ->
  loadIndexFormat (name +:+ String "[" rest) = Throw MissingClosingBracket.
Proof.
  intros Hname Hrest. rewrite (loadIndexFormat_unfold _ _ Hname).
  cbn [loadFormat_loop].
  pose proof (find_app_r name (String "[" rest) "]" 0) as H.
  rewrite Nat.add_0_r in H. rewrite H. simpl find.
  now rewrite (find_lacks _ _ Hrest).
Qed.

Lemma missing_closing_bracket_witness :
  loadIndexFormat "/a:o[1,2" = Throw MissingClosingBracket.
Proof.
  apply (missing_closing_bracket "/a:o" "1,2"); reflexivity.
Defined.

(** The closing bracket of the group that opens behind [pre], and the
    text between the two. *)
Lemma group_close pre body rest :
  lacks "]" body = true ->
  let format := pre +:+ String "[" (body +:+ String "]" rest) in
  find format "]" (String.length pre)
  = Some (String.length pre + S (String.length body))%nat
  /\ substr format (String.length pre + 1)
       (Some (String.length pre + S (String.length body) - String.length pre - 1)%nat)
     = body.
Proof.
  intros Hclose format. unfold format. split.
  - pose proof (find_app_r pre (String "[" (body +:+ String "]" rest)) "]" 0) as H.
    rewrite Nat.add_0_r in H. rewrite H. simpl find.
    rewrite find_here by exact Hclose. reflexivity.
  - replace (String.length pre + S (String.length body) - String.length pre - 1)%nat
      with (String.length body) by lia.
    unfold substr. rewrite sdrop_app. simpl sdrop. apply stake_app.
Qed.

(** X8: an empty pair of brackets, as the first group of a specifier, is
    refused: there is no integer to read in the empty text. *)
Theorem empty_group_refused name rest :
  lacks "[" name = true ->
  loadIndexFormat (name +:+ String "[" (String "]" rest))
  = Throw (CouldNotReadInteger "").
Proof.
  intros Hname. rewrite (loadIndexFormat_unfold _ _ Hname).
  cbn [loadFormat_loop].
  destruct (group_close name "" rest eq_refl) as [F1 F2].
  cbv zeta in F1, F2. rewrite sapp_nil_l in F1, F2.
  rewrite F1, F2. reflexivity.
Qed.

Lemma empty_group_refused_witness :
  loadIndexFormat "/a:o[][1]" = Throw (CouldNotReadInteger "").
Proof. apply (empty_group_refused "/a:o" "[1]"). reflexivity. Defined.

(** X9: when a second bracket opens before the first group is closed,
    the text up to the first closing bracket is read as one group, the
    opening bracket inside included.  If that text cannot be read, its
    error is the one thrown; if it can, the specifier is refused with
    "Unexpected opening bracket". *)
Theorem nested_bracket_refused name a b rest :
  lacks "[" name = true ->
  lacks "[" a = true ->
  lacks "]" a = true ->
  lacks "]" b = true ->
  loadIndexFormat (name +:+ String "[" ((a +:+ String "[" b) +:+ String "]" rest))
  = (_ <- loadIndices (a +:+ String "[" b) ;; Throw UnexpectedOpeningBracket).
Proof.
  intros Hname Ha1 Ha2 Hb. rewrite (loadIndexFormat_unfold _ _ Hname).
  cbn [loadFormat_loop].
  assert (Hbody : lacks "]" (a +:+ String "[" b) = true).
  { unfold lacks in *. rewrite allChars_app. simpl. now rewrite Ha2, Hb. }
  destruct (group_close name (a +:+ String "[" b) rest Hbody) as [F1 F2].
  cbv zeta in F1, F2. rewrite F1, F2.
  destruct (loadIndices (a +:+ String "[" b)) as [l| |]; simpl bind; try reflexivity.
  rewrite find_app_r. simpl find. rewrite !sapp_assoc, sapp_cons.
  rewrite (find_here _ _ _ Ha1). cbn [option_map].
  replace (String.length name + S (String.length a) <?
           String.length name + S (String.length (a +:+ String "[" b)))%nat
    with true; [reflexivity|].
  symmetry. apply Nat.ltb_lt. rewrite slength_app. simpl. lia.
Qed.

Lemma nested_bracket_refused_witness :
  loadIndexFormat "/a[1[2]]" = Throw UnexpectedOpeningBracket
  /\ loadIndexFormat "/a[x[2]]" = Throw (CouldNotReadInteger "x[2").
Proof.
  split.
  - apply (nested_bracket_refused "/a" "1" "2" "]"); reflexivity.
  - apply (nested_bracket_refused "/a" "x" "2" "]"); reflexivity.
Defined.

(* ===================================================================== *)
(** ** loadFormat of a composite                                          *)
(* ===================================================================== *)

Lemma loadFormat_Forall2 format cs :
  loadFormat format = Ok cs
  <-> Forall2 (fun v c => loadSpecifier v = Ok c) format cs.
Proof.
  revert cs. induction format as [|v format IH]; intros cs; simpl.
  - split.
    + intros H. inversion H. constructor.
    + intros H. inversion H. reflexivity.
  - split.
    + destruct (loadSpecifier v) as [c| |] eqn:Ev; try discriminate. simpl.
      destruct (loadFormat format) as [cs'| |] eqn:Ecs; try discriminate. simpl.
      intros H. inversion H; subst. constructor; [exact Ev | now apply IH].
    + intros H. inversion H as [|? c ? cs' Hv Hrest]; subst.
      rewrite Hv. simpl. apply IH in Hrest. now rewrite Hrest.
Qed.

(** X10: an index token is read by the number of parts its split on "-"
    has.  One part: the single index read from it.  Two parts, read as
    [start] and [e]: the range-order error when [start > e], and all
    integers from [start] to [e], in order, when [start <= e] and [e] is
    below [INT_MAX].  More than two parts: the malformed-range error. *)
Theorem loadIndex_by_parts tok idxList :
  (forall single,
     split tok "-" = Ok [single] ->
     loadIndex tok idxList = (i <- stringToInt single ;; Ok (idxList ++ [i])))
  /\ (forall first second start e,
        split tok "-" = Ok [first; second] ->
        stringToInt first = Ok start ->
        stringToInt second = Ok e ->
        (start > e -> loadIndex tok idxList = Throw (EndOfRangeBeforeStart tok))
        /\ (start <= e < INT_MAX ->
            loadIndex tok idxList = Ok (idxList ++ seqZ start (e - start + 1))))
  /\ (forall parts,
        split tok "-" = Ok parts -> (length parts > 2)%nat ->
        loadIndex tok idxList = Throw (IllegalRangeSpecification tok)).
Proof.
  unfold loadIndex. split; [|split].
  - intros single ->. reflexivity.
  - intros first second start e -> Hs He.
    pose proof (stringToInt_range _ _ Hs) as Hrs.
    cbn [bind]. rewrite Hs, He. simpl. split; intros H.
    + replace (e <? start) with true by (symmetry; apply Z.ltb_lt; lia). reflexivity.
    + replace (e <? start) with false by (symmetry; apply Z.ltb_ge; lia).
      rewrite rangeLoop_seqZ; auto; unfold INT_MIN, INT_MAX in *; lia.
  - intros parts ->. destruct parts as [|a [|b [|c l]]]; simpl; try lia. reflexivity.
Qed.

Lemma loadIndex_by_parts_witness :
  loadIndex "7" [] = Ok [7]
  /\ loadIndex "5-2" [] = Throw (EndOfRangeBeforeStart "5-2")
  /\ loadIndex "2-4" [1] = Ok [1; 2; 3; 4]
  /\ loadIndex "1-2-3" [] = Throw (IllegalRangeSpecification "1-2-3").
Proof.
  split; [|split; [|split]].
  - apply (proj1 (loadIndex_by_parts "7" []) "7"). reflexivity.
  - apply (proj1 (proj2 (loadIndex_by_parts "5-2" [])) "5" "2" 5 2);
      [reflexivity | reflexivity | reflexivity | reflexivity].
  - apply (proj1 (proj2 (loadIndex_by_parts "2-4" [1])) "2" "4" 2 4);
      [reflexivity | reflexivity | reflexivity | unfold INT_MAX; lia].
  - apply (proj2 (proj2 (loadIndex_by_parts "1-2-3" [])) ["1"; "2"; "3"]);
      [reflexivity | simpl; lia].
Defined.

(** The first element that is not parsed decides the error. *)
Lemma loadFormat_first_error pre : forall cs v rest e,
  Forall2 (fun v c => loadSpecifier v = Ok c) pre cs ->
  loadSpecifier v = Throw e ->
  loadFormat (pre ++ v :: rest) = Throw e.
Proof.
  induction pre as [|x pre IH]; intros cs v rest e Hpre Hv; simpl.
  - now rewrite Hv.
  - inversion Hpre as [|? c ? cs' Hx Hrest]; subst.
    rewrite Hx. simpl. now rewrite (IH _ _ _ _ Hrest Hv).
Qed.

(** X11: an element of a format that is neither a string nor a list (a
    number, a vocab, the null value) is refused with "Unexpected token",
    at any depth of the format, provided the elements in front of it
    are parsed. *)
Theorem unexpected_token pre cs v rest :
  Forall2 (fun v c => loadSpecifier v = Ok c) pre cs ->
  isString v = false -> isList v = false ->
  loadFormat (pre ++ v :: rest) = Throw (UnexpectedToken v)
  /\ newRootSelector (pre ++ v :: rest) = Throw (UnexpectedToken v)
  /\ loadSpecifier (VList (pre ++ v :: rest)) = Throw (UnexpectedToken v).
Proof.
  intros Hpre Hs Hl.
  assert (Hv : loadSpecifier v = Throw (UnexpectedToken v)).
  { destruct v; simpl in *; congruence. }
  pose proof (loadFormat_first_error pre cs v rest _ Hpre Hv) as H.
  split; [exact H|]. split.
  - unfold newRootSelector. now rewrite H.
  - rewrite loadSpecifier_list. now rewrite H.
Qed.

Lemma unexpected_token_witness :
  newRootSelector [VString "/a"; VInt32 3; VString "/b"]
  = Throw (UnexpectedToken (VInt32 3)).
Proof.
  apply (unexpected_token [VString "/a"] [IndexSelector "/a" []] (VInt32 3)
           [VString "/b"]).
  - constructor 2; [vm_compute; reflexivity | constructor 1].
  - reflexivity.
  - reflexivity.
Defined.

Lemma loadSpecifier_bracketFree v : forall ds,
  loadSpecifier v = Ok ds -> bracketFree ds = true.
Proof.
  induction v as [| | |s| |l IH] using Value_ind'; intros ds; try discriminate.
  - simpl. pose proof (lacks_c_str s) as Hnul. revert Hnul.
    generalize (c_str s) as t. clear s. intros t Hnul H.
    destruct (loadIndexFormat_valid _ _ H) as (name & indices & -> & _).
    revert H. unfold loadIndexFormat.
    destruct (find t "[" 0) as [i|] eqn:Efind.
    + destruct (find_Some _ _ _ Efind) as (a & b & -> & Hlen & Ha). subst i.
      destruct (loadFormat_loop (S (String.length (a +:+ String "[" b))) _ _ [])
        as [[ix| |]|]; simpl bind; try discriminate.
      intros H. inversion H; subst. cbn [substr bracketFree]. simpl sdrop.
      rewrite stake_app, Ha. simpl.
      unfold lacks in Hnul. rewrite allChars_app in Hnul.
      now apply andb_true_iff in Hnul as [Hnul _].
    + intros H. inversion H; subst. simpl. rewrite Hnul.
      now rewrite (find_None _ _ Efind).
  - rewrite loadSpecifier_list.
    destruct (loadFormat l) as [cs| |] eqn:E; try discriminate.
    simpl. intros H. inversion H; subst. clear H. simpl.
    revert cs E. induction IH as [|x l Hx _ IHl]; intros cs; simpl.
    + intros H'. inversion H'. reflexivity.
    + destruct (loadSpecifier x) as [c| |] eqn:Ec; try discriminate. simpl.
      destruct (loadFormat l) as [cs'| |] eqn:Ecs; try discriminate. simpl.
      intros H'. inversion H'; subst. simpl.
      rewrite (Hx _ eq_refl), (IHl _ eq_refl). reflexivity.
Qed.

Lemma loadSpecifier_unparse_bracketFree ds :
  wellFormed ds -> bracketFree ds = true -> loadSpecifier (unparse ds) = Ok ds.
Proof.
  induction ds as [name indices|cs IH|cs _] using DataSelector_ind'.
  - intros Hwf Hname. simpl in *. apply andb_true_iff in Hname as [Hname Hnul].
    rewrite c_str_lacks; [now apply loadIndexFormat_print|].
    unfold lacks. rewrite allChars_app. apply andb_true_iff. split; [exact Hnul|].
    now apply (lacks_groups Ascii.zero).
  - intros Hwf Hnames. apply wellFormed_composite in Hwf.
    cbn [unparse]. rewrite loadSpecifier_list.
    assert (Hcs : loadFormat (map unparse cs) = Ok cs).
    { simpl in Hnames. induction IH as [|c cs Hc _ IHcs]; [reflexivity|].
      inversion Hwf; subst. simpl in Hnames.
      apply andb_true_iff in Hnames as [Hn1 Hn2]. simpl.
      rewrite Hc by assumption. simpl. rewrite IHcs by assumption. reflexivity. }
    now rewrite Hcs.
  - intros [].
Qed.

(** X12: a format that parses has a normal form, the format its tree
    prints as (names as they are, every range written out index by
    index, nothing behind the numbers): the normal form parses, and into
    the same tree. *)
Theorem parse_normal_form format cs :
  newRootSelector format = Ok (RootSelector cs) ->
  newRootSelector (map unparse cs) = Ok (RootSelector cs).
Proof.
  unfold newRootSelector.
  destruct (loadFormat format) as [cs'| |] eqn:E; try discriminate.
  simpl. intros H. inversion H; subst. clear H.
  pose proof (loadFormat_wellFormed _ _ E) as Hwf.
  apply loadFormat_Forall2 in E.
  assert (Hcs : loadFormat (map unparse cs) = Ok cs).
  { induction E as [|v c format cs Hv _ IH]; [reflexivity|].
    inversion Hwf; subst. simpl.
    rewrite loadSpecifier_unparse_bracketFree; auto.
    - simpl. now rewrite IH.
    - now apply (loadSpecifier_bracketFree v). }
  now rewrite Hcs.
Qed.

Lemma parse_normal_form_witness :
  newRootSelector [VString "/a[1,2,3,4][7]"; VList [VString "x y"]]
  = Ok (RootSelector [IndexSelector "/a" [[1; 2; 3; 4]; [7]];
                      CompositeSelector [IndexSelector "x y" []]]).
Proof.
  apply (parse_normal_form
           [VString "/a[1-4][ 7z]"; VList [VString "x y"]]
           [IndexSelector "/a" [[1; 2; 3; 4]; [7]];
            CompositeSelector [IndexSelector "x y" []]]).
  vm_compute. reflexivity.
Defined.

(** X13: the trees the parser builds: the root holds one child for each
    element of the format; below the root there are leaves and
    composites only, no second root; every dimension of every leaf has
    one index at least, all between 0 and [INT_MAX]. *)
Theorem parsed_tree_shape format ds :
  newRootSelector format = Ok ds ->
  exists cs, ds = RootSelector cs
             /\ length cs = length format
             /\ Forall wellFormed cs.
Proof.
  unfold newRootSelector.
  destruct (loadFormat format) as [cs| |] eqn:E; try discriminate.
  simpl. intros H. inversion H; subst. exists cs.
  split; [reflexivity|]. split.
  - apply loadFormat_Forall2 in E. symmetry. apply (Forall2_length _ _ _ E).
  - now apply (loadFormat_wellFormed format).
Qed.

Lemma parsed_tree_shape_witness :
  exists cs,
    RootSelector [IndexSelector "/a" [[2]]; CompositeSelector [IndexSelector "/b" []]]
    = RootSelector cs
    /\ length cs = 2%nat
    /\ Forall wellFormed cs.
Proof.
  apply (parsed_tree_shape [VString "/a[2]"; VList [VString "/b"]]).
  vm_compute. reflexivity.
Defined.

(* ===================================================================== *)
(** ** The source list                                                    *)
(* ===================================================================== *)

Lemma getInputName_loop_first net prefix fuel : forall i0 n,
  1 <= i0 -> i0 + Z.of_nat fuel <= INT_MAX + 1 ->
  getInputName_loop fuel net prefix i0 = Some n ->
  exists i, i0 <= i < i0 + Z.of_nat fuel
            /\ n = inputName prefix i
            /\ (n ∉ names net)
            /\ forall j, i0 <= j < i -> inputName prefix j ∈ names net.
Proof.
  induction fuel as [|fuel IH]; intros i0 n Hi0 Hmax; simpl; [discriminate|].
  unfold queryName.
  destruct (bool_decide (inputName prefix i0 ∈ names net)) eqn:E.
  - apply bool_decide_eq_true in E. intros H.
    destruct fuel as [|fuel']; [discriminate H|].
    rewrite wrap32_id in H by (unfold INT_MIN, INT_MAX in *; lia).
    destruct (IH (i0 + 1) n ltac:(lia) ltac:(lia) H)
      as (i & Hi & Hn & Hfree & Hbelow).
    exists i. split; [lia|]. split; [exact Hn|]. split; [exact Hfree|].
    intros j Hj. destruct (Z.eq_dec j i0) as [->|Hne]; [exact E | apply Hbelow; lia].
  - apply bool_decide_eq_false in E. intros H. inversion H; subst.
    exists i0. split; [lia|]. split; [reflexivity|]. split; [exact E|].
    intros j Hj. lia.
Qed.

(** X14: [getInputName] returns the first free name: the prefix, the
    least counter from 1 on whose name is not registered, and ":i".
    With [n] names registered the counter is [n + 1] at most. *)
Theorem getInputName_first_free net prefix :
  Z.of_nat (stdpp.base.size (names net)) < INT_MAX ->
  exists i, 1 <= i <= Z.of_nat (stdpp.base.size (names net)) + 1
            /\ getInputName net prefix = Some (inputName prefix i)
            /\ (inputName prefix i ∉ names net)
            /\ forall j, 1 <= j < i -> inputName prefix j ∈ names net.
Proof.
  intros Hsize. destruct (getInputName_total net prefix Hsize) as (n & Hn & _).
  unfold getInputName in *.
  destruct (getInputName_loop_first net prefix
              (S (stdpp.base.size (names net))) 1 n ltac:(lia)
              ltac:(unfold INT_MAX in *; lia) Hn) as (i & Hi & -> & Hfree & Hbelow).
  exists i. split; [lia|]. split; [exact Hn|]. split; [exact Hfree | exact Hbelow].
Qed.

Lemma getInputName_first_free_witness :
  exists i,
    1 <= i <= Z.of_nat (stdpp.base.size
                          (names (mkNetwork {[ "/p1:i"; "/p2:i" ]} []))) + 1
    /\ getInputName (mkNetwork {[ "/p1:i"; "/p2:i" ]} []) "/p"
       = Some (inputName "/p" i)
    /\ (inputName "/p" i ∉ names (mkNetwork {[ "/p1:i"; "/p2:i" ]} []))
    /\ forall j, 1 <= j < i ->
         inputName "/p" j ∈ names (mkNetwork {[ "/p1:i"; "/p2:i" ]} []).
Proof.
  apply (getInputName_first_free (mkNetwork {[ "/p1:i"; "/p2:i" ]} []) "/p").
  vm_compute. reflexivity.
Defined.

Lemma getInputName_free net prefix n :
  getInputName net prefix = Some n -> n ∉ names net.
Proof.
  unfold getInputName. generalize (S (stdpp.base.size (names net))) 1.
  intros fuel. induction fuel as [|fuel IH]; intros i; simpl; [discriminate|].
  unfold queryName.
  destruct (bool_decide (inputName prefix i ∈ names net)) eqn:E; [apply IH|].
  apply bool_decide_eq_false in E. intros H. inversion H; subst. exact E.
Qed.

(** What [addSource] does when the name is new and a port is found. *)
Lemma addSource_new name sl net sl' net' r :
  hasSource sl name = false ->
  addSource name sl net = (sl', net', r) ->
  r = Undefined /\ sl' = sl /\ net' = net
  \/ exists n,
       getInputName net (sl_portPrefix sl) = Some n
       /\ sl' = mkSourceList (sl_portPrefix sl)
                  (<[name := mkPortSource [] n]> (sourceMap sl))
       /\ names net' = {[ n ]} ∪ names net.
Proof.
  intros Hnew. unfold addSource, newPortSource. rewrite Hnew. simpl.
  destruct (getInputName net (sl_portPrefix sl)) as [n|] eqn:E.
  - unfold connect. destruct (queryName (openPort net n) name);
      intros H; inversion H; subst; right; exists n; auto.
  - intros H. inversion H; subst. now left.
Qed.

(** X15: [addSource] never removes or changes a source that is there:
    every registered source keeps its cache and its port, the sources
    under other names are as before, no name leaves the name server,
    and for a name that is registered nothing changes at all. *)
Theorem addSource_keeps_sources name sl net sl' net' r :
  addSource name sl net = (sl', net', r) ->
  (forall other ps, sourceMap sl !! other = Some ps ->
                    sourceMap sl' !! other = Some ps)
  /\ (forall other, other <> name ->
                    sourceMap sl' !! other = sourceMap sl !! other)
  /\ names net ⊆ names net'
  /\ (hasSource sl name = true -> sl' = sl /\ net' = net /\ r = Ok tt).
Proof.
  intros H. destruct (hasSource sl name) eqn:Hhas.
  - rewrite (addSource_registered _ _ _ Hhas) in H. inversion H; subst.
    repeat split; auto.
  - assert (Hnone : sourceMap sl !! name = None).
    { unfold hasSource in Hhas. apply bool_decide_eq_false in Hhas.
      destruct (sourceMap sl !! name) eqn:E; [|reflexivity].
      exfalso. apply Hhas. eauto. }
    destruct (addSource_new _ _ _ _ _ _ Hhas H)
      as [(Hr & Hsl & Hnet)|(n & Hn & Hsl & Hnames)]; subst.
    + repeat split; auto. discriminate.
    + split; [|split; [|split]].
      * intros other ps Hother. simpl.
        rewrite lookup_insert_ne; [exact Hother | congruence].
      * intros other Hne. simpl. now rewrite lookup_insert_ne.
      * rewrite Hnames. apply union_subseteq_r.
      * discriminate.
Qed.

Lemma addSource_keeps_sources_witness :
  sourceMap (fst (fst (addSource "/b" (sl_of [("/a", ints [1; 2])])
                         (mkNetwork {[ "/b" ]} [])))) !! "/a"
  = Some (mkPortSource (ints [1; 2]) "").
Proof.
  destruct (addSource "/b" (sl_of [("/a", ints [1; 2])]) (mkNetwork {[ "/b" ]} []))
    as [[sl' net'] r] eqn:E.
  apply (proj1 (addSource_keeps_sources _ _ _ _ _ _ E)). reflexivity.
Defined.

Lemma addSource_ports name sl net sl' net' r :
  portsDistinct sl net ->
  addSource name sl net = (sl', net', r) ->
  portsDistinct sl' net'.
Proof.
  intros [Hreg Hdist] H. destruct (hasSource sl name) eqn:Hhas.
  - rewrite (addSource_registered _ _ _ Hhas) in H. inversion H; subst. now split.
  - destruct (addSource_new _ _ _ _ _ _ Hhas H)
      as [(Hr & Hsl & Hnet)|(n & Hn & Hsl & Hnames)]; subst; [now split|].
    apply getInputName_free in Hn. split.
    + intros other ps. simpl. rewrite Hnames.
      destruct (decide (other = name)) as [->|Hne].
      * rewrite lookup_insert_eq. intros E. inversion E; subst. simpl.
        apply elem_of_union_l, elem_of_singleton. reflexivity.
      * rewrite lookup_insert_ne by congruence. intros E.
        apply elem_of_union_r. now apply (Hreg other).
    + intros n1 n2 ps1 ps2. simpl.
      destruct (decide (n1 = name)) as [->|Hne1];
        destruct (decide (n2 = name)) as [->|Hne2]; auto.
      * rewrite lookup_insert_eq, lookup_insert_ne by congruence.
        intros E1 E2 Hport. inversion E1; subst. simpl in Hport.
        apply Hreg in E2. congruence.
      * rewrite lookup_insert_ne, lookup_insert_eq by congruence.
        intros E1 E2 Hport. inversion E2; subst. simpl in Hport.
        apply Hreg in E1. congruence.
      * rewrite !lookup_insert_ne by congruence. apply Hdist.
Qed.

Lemma portsDistinct_empty pp net : portsDistinct (mkSourceList pp ∅) net.
Proof.
  split.
  - intros name ps. simpl. rewrite lookup_empty. discriminate.
  - intros n1 n2 ps1 ps2. simpl. rewrite lookup_empty. discriminate.
Qed.

(* ===================================================================== *)
(** ** declareSources, then select                                        *)
(* ===================================================================== *)

Lemma hasSource_lookup sl name :
  hasSource sl name = true <-> exists ps, sourceMap sl !! name = Some ps.
Proof.
  unfold hasSource. rewrite bool_decide_eq_true. reflexivity.
Qed.

Lemma hasSource_keeps sl sl' name :
  keepsSources sl sl' -> hasSource sl name = true -> hasSource sl' name = true.
Proof.
  intros Hk H. apply hasSource_lookup in H as [ps Hps].
  apply hasSource_lookup. exists ps. now apply Hk.
Qed.

Lemma addSource_declares name sl net sl' net' r :
  addSource name sl net = (sl', net', r) ->
  keepsSources sl sl' /\ (r = Ok tt -> hasSource sl' name = true).
Proof.
  intros H. destruct (hasSource sl name) eqn:Hhas.
  - rewrite (addSource_registered _ _ _ Hhas) in H. inversion H; subst.
    split; [intros n ps Hn; exact Hn | auto].
  - destruct (addSource_new _ _ _ _ _ _ Hhas H)
      as [(Hr & Hsl & Hnet)|(n & Hn & Hsl & Hnames)]; subst.
    + split; [intros n ps Hn; exact Hn | discriminate].
    + split; [|intros _; apply hasSource_insert].
      intros other ps Hother. simpl.
      rewrite lookup_insert_ne; [exact Hother|].
      intros ->. unfold hasSource in Hhas. apply bool_decide_eq_false in Hhas.
      apply Hhas. eauto.
Qed.

Lemma declareChildren_declares cs :
  Forall (fun c => forall sl net sl' net' r,
            declareSources c sl net = (sl', net', r) ->
            keepsSources sl sl'
            /\ (r = Ok tt ->
                Forall (fun n => hasSource sl' n = true) (leafNames c))) cs ->
  forall sl net sl' net' r,
    declareChildren cs sl net = (sl', net', r) ->
    keepsSources sl sl'
    /\ (r = Ok tt ->
        Forall (fun n => hasSource sl' n = true) (flat_map leafNames cs)).
Proof.
  induction 1 as [|c cs Hc _ IH]; intros sl net sl' net' r; simpl.
  - intros H. inversion H; subst. split; [intros n ps Hn; exact Hn | constructor].
  - destruct (declareSources c sl net) as [[sl1 net1] r1] eqn:E1.
    destruct (Hc _ _ _ _ _ E1) as [Hk1 Hd1].
    destruct r1 as [[]| |].
    + intros H. destruct (IH _ _ _ _ _ H) as [Hk2 Hd2]. split.
      * intros n ps Hn. apply Hk2, Hk1, Hn.
      * intros Hr. apply Forall_app. split; [|now apply Hd2].
        eapply Forall_impl; [apply Hd1; reflexivity|].
        intros n Hn. now apply (hasSource_keeps sl1).
    + intros H. inversion H; subst. split; [exact Hk1 | discriminate].
    + intros H. inversion H; subst. split; [exact Hk1 | discriminate].
Qed.

Lemma declareSources_declares ds : forall sl net sl' net' r,
  declareSources ds sl net = (sl', net', r) ->
  keepsSources sl sl'
  /\ (r = Ok tt -> Forall (fun n => hasSource sl' n = true) (leafNames ds)).
Proof.
  induction ds as [name indices|cs IH|cs IH] using DataSelector_ind';
    intros sl net sl' net' r H.
  - simpl in H. destruct (addSource_declares _ _ _ _ _ _ H) as [Hk Hd].
    split; [exact Hk|]. intros Hr. constructor; [now apply Hd | constructor].
  - change (declareSources (CompositeSelector cs) sl net)
      with (declareChildren cs sl net) in H.
    exact (declareChildren_declares cs IH sl net sl' net' r H).
  - change (declareSources (RootSelector cs) sl net)
      with (declareChildren cs sl net) in H.
    exact (declareChildren_declares cs IH sl net sl' net' r H).
Qed.

Lemma selectChildren_exits sl cs :
  Forall (fun c => forall bot,
            (exists r, select c bot sl = Ok r)
            \/ select c bot sl = Throw CannotIndexNonList) cs ->
  forall bot,
    (exists r, selectChildren cs bot sl = Ok r)
    \/ selectChildren cs bot sl = Throw CannotIndexNonList.
Proof.
  induction 1 as [|c cs Hc _ IH]; intros bot; simpl; [eauto|].
  destruct (Hc bot) as [[r ->]| ->]; simpl; auto.
Qed.

(** With the sources of its leaves in the list, a selector gives a
    bottle or throws "Cannot index non-list type". *)
Lemma select_declared sl ds :
  Forall (fun n => hasSource sl n = true) (leafNames ds) ->
  forall bot,
    (exists r, select ds bot sl = Ok r)
    \/ select ds bot sl = Throw CannotIndexNonList.
Proof.
  induction ds as [name indices|cs IH|cs IH] using DataSelector_ind'; intros Hdecl bot.
  - simpl in Hdecl. inversion Hdecl as [|? ? Hname _]; subst.
    apply hasSource_lookup in Hname as [src Hsrc].
    destruct indices as [|cur next].
    + rewrite (select_leaf_all _ _ _ _ Hsrc). eauto.
    + rewrite (select_leaf_indexed _ _ _ _ _ _ Hsrc).
      apply selectRecursive_exits. discriminate.
  - rewrite select_composite.
    assert (Hcs : Forall (fun c => forall bot,
              (exists r, select c bot sl = Ok r)
              \/ select c bot sl = Throw CannotIndexNonList) cs).
    { simpl in Hdecl. induction IH as [|c cs Hc _ IHcs]; constructor.
      - apply Hc. simpl in Hdecl. apply Forall_app in Hdecl. tauto.
      - apply IHcs. simpl in Hdecl. apply Forall_app in Hdecl. tauto. }
    destruct (selectChildren_exits sl cs Hcs []) as [[r ->]| ->]; simpl; eauto.
  - rewrite select_root.
    assert (Hcs : Forall (fun c => forall bot,
              (exists r, select c bot sl = Ok r)
              \/ select c bot sl = Throw CannotIndexNonList) cs).
    { simpl in Hdecl. induction IH as [|c cs Hc _ IHcs]; constructor.
      - apply Hc. simpl in Hdecl. apply Forall_app in Hdecl. tauto.
      - apply IHcs. simpl in Hdecl. apply Forall_app in Hdecl. tauto. }
    now apply selectChildren_exits.
Qed.

Lemma updateSources_lookup incoming sl name :
  sourceMap (updateSources incoming sl) !! name
  = updateSource (incoming !! name) <$> sourceMap sl !! name.
Proof.
  unfold updateSources. simpl. rewrite map_lookup_imap.
  now destruct (sourceMap sl !! name).
Qed.

Lemma hasSource_updateSources incoming sl name :
  hasSource (updateSources incoming sl) name = hasSource sl name.
Proof.
  unfold hasSource. apply bool_decide_ext. rewrite updateSources_lookup.
  destruct (sourceMap sl !! name); simpl; split; intros [x Hx];
    first [discriminate | eauto].
Qed.

(** X17: declaration comes before evaluation.  When [declareSources]
    has returned without exception, every leaf of the tree has its
    source in the list, also after any number of updates; [select] on
    the tree then gives a bottle or throws "Cannot index non-list type":
    the "inexistent source" error of [getSource] cannot occur. *)
Theorem declared_then_select ds sl net sl' net' :
  declareSources ds sl net = (sl', net', Ok tt) ->
  Forall (fun n => hasSource sl' n = true) (leafNames ds)
  /\ forall incoming bot,
       (exists r, select ds bot (updateSources incoming sl') = Ok r)
       \/ select ds bot (updateSources incoming sl') = Throw CannotIndexNonList.
Proof.
  intros H. destruct (declareSources_declares _ _ _ _ _ _ H) as [_ Hd].
  specialize (Hd eq_refl). split; [exact Hd|].
  intros incoming bot. apply select_declared.
  eapply Forall_impl; [exact Hd|]. intros n Hn.
  now rewrite hasSource_updateSources.
Qed.

Lemma declared_then_select_witness :
  Forall (fun n =>
            hasSource
              (fst (fst (declareSources
                           (RootSelector [IndexSelector "/x" [[1]];
                                          CompositeSelector [IndexSelector "/y" []]])
                           (mkSourceList "/lm/merge/source" ∅)
                           (mkNetwork {[ "/x"; "/y" ]} [])))) n = true)
         ["/x"; "/y"].
Proof.
  destruct (declareSources
              (RootSelector [IndexSelector "/x" [[1]];
                             CompositeSelector [IndexSelector "/y" []]])
              (mkSourceList "/lm/merge/source" ∅)
              (mkNetwork {[ "/x"; "/y" ]} [])) as [[sl' net'] r] eqn:E.
  assert (Hr : r = Ok tt) by (vm_compute in E; congruence).
  subst r. apply (proj1 (declared_then_select _ _ _ _ _ E)).
Defined.

(* ===================================================================== *)
(** ** select                                                             *)
(* ===================================================================== *)

Lemma selectChildren_throws sl cs :
  Forall (fun c => forall bot e,
            select c bot sl = Throw e ->
            e = CannotIndexNonList
            \/ e = InexistentSource
               /\ exists name, In name (leafNames c) /\ hasSource sl name = false) cs ->
  forall bot e,
    selectChildren cs bot sl = Throw e ->
    e = CannotIndexNonList
    \/ e = InexistentSource
       /\ exists name, In name (flat_map leafNames cs) /\ hasSource sl name = false.
Proof.
  induction 1 as [|c cs Hc _ IH]; intros bot e; simpl; [discriminate|].
  destruct (select c bot sl) as [b| |] eqn:E; simpl.
  - intros H. destruct (IH _ _ H) as [->|(-> & name & Hin & Hno)]; auto.
    right. split; [reflexivity|]. exists name. split; [|exact Hno].
    apply in_or_app. now right.
  - intros H. inversion H; subst.
    destruct (Hc _ _ E) as [->|(-> & name & Hin & Hno)]; auto.
    right. split; [reflexivity|]. exists name. split; [|exact Hno].
    apply in_or_app. now left.
  - discriminate.
Qed.

(** X18: the two exceptions of [select].  A selector throws "Cannot
    index non-list type" or "Attempt to retrieve inexistent source",
    nothing else; and it throws the second only when the source of one
    of its leaves is not in the source list. *)
Theorem select_exceptions sl ds : forall bot e,
  select ds bot sl = Throw e ->
  e = CannotIndexNonList
  \/ e = InexistentSource
     /\ exists name, In name (leafNames ds) /\ hasSource sl name = false.
Proof.
  induction ds as [name indices|cs IH|cs IH] using DataSelector_ind'; intros bot e.
  - destruct (hasSource sl name) eqn:Hhas.
    + apply hasSource_lookup in Hhas as [src Hsrc].
      destruct indices as [|cur next].
      * rewrite (select_leaf_all _ _ _ _ Hsrc). discriminate.
      * rewrite (select_leaf_indexed _ _ _ _ _ _ Hsrc).
        destruct (selectRecursive_exits (cur :: next) ltac:(discriminate) bot (data src))
          as [[r Hr]|Hr]; rewrite Hr; [discriminate|].
        intros H. inversion H. now left.
    + assert (Hget : getSource sl name = Throw InexistentSource).
      { unfold getSource. now rewrite Hhas. }
      destruct indices as [|cur next]; cbn [select]; rewrite Hget; simpl;
        intros H; inversion H; right; (split; [reflexivity|]);
        exists name; simpl; auto.
  - rewrite select_composite.
    destruct (selectChildren cs [] sl) as [b| |] eqn:E; simpl; try discriminate.
    intros H. inversion H; subst.
    exact (selectChildren_throws sl cs IH _ _ E).
  - rewrite select_root. exact (selectChildren_throws sl cs IH bot e).
Qed.

Lemma select_exceptions_witness :
  InexistentSource = CannotIndexNonList
  \/ InexistentSource = InexistentSource
     /\ exists name,
          In name (leafNames (RootSelector [IndexSelector "/a" [];
                                            IndexSelector "/b" []]))
          /\ hasSource (sl_of [("/a", ints [1])]) name = false.
Proof.
  apply (select_exceptions (sl_of [("/a", ints [1])])
           (RootSelector [IndexSelector "/a" []; IndexSelector "/b" []]) []).
  vm_compute. reflexivity.
Defined.

(** The loop over the indices does not look at the accumulator when its
    body does not. *)
Lemma forIndices_acc (body : Z -> Bottle -> outcome Bottle) cur :
  (forall i out, body i out = (ext <- body i [] ;; Ok (out ++ ext))) ->
  forall out,
    forIndices body cur out = (ext <- forIndices body cur [] ;; Ok (out ++ ext)).
Proof.
  intros Hbody. induction cur as [|i cur IH]; intros out; simpl.
  - now rewrite app_nil_r.
  - rewrite (Hbody i out). destruct (body i []) as [e1| |]; simpl; try reflexivity.
    rewrite (IH (out ++ e1)), (IH e1).
    destruct (forIndices body cur []); simpl; try reflexivity.
    now rewrite <- app_assoc.
Qed.

Lemma selectRecursive_acc it : forall out inb,
  selectRecursive out inb it
  = (ext <- selectRecursive [] inb it ;; Ok (out ++ ext)).
Proof.
  induction it as [|cur next IH]; intros out inb; [reflexivity|].
  cbn [selectRecursive]. apply forIndices_acc.
  intros i o. destruct next as [|cur' next'].
  - destruct (get inb (i - 1)); simpl; rewrite ?addBottle_app; reflexivity.
  - destruct (get inb (i - 1)) as [| | | | |l]; try reflexivity.
    apply IH.
Qed.

Lemma selectChildren_acc sl cs :
  Forall (fun c => forall bot,
            select c bot sl = (ext <- select c [] sl ;; Ok (bot ++ ext))) cs ->
  forall bot,
    selectChildren cs bot sl = (ext <- selectChildren cs [] sl ;; Ok (bot ++ ext)).
Proof.
  induction 1 as [|c cs Hc _ IH]; intros bot; simpl.
  - now rewrite app_nil_r.
  - rewrite (Hc bot). destruct (select c [] sl) as [e1| |]; simpl; try reflexivity.
    rewrite (IH (bot ++ e1)), (IH e1).
    destruct (selectChildren cs [] sl); simpl; try reflexivity.
    now rewrite <- app_assoc.
Qed.

(** X19: [select] only appends.  What a selector does on an accumulator
    is what it does on the empty one, appended to the accumulator: the
    elements already there are kept, in place, and they influence
    neither what is appended nor whether an exception is thrown. *)
Theorem select_appends sl ds : forall bot,
  select ds bot sl = (ext <- select ds [] sl ;; Ok (bot ++ ext)).
Proof.
  induction ds as [name indices|cs IH|cs IH] using DataSelector_ind'; intros bot.
  - destruct indices as [|cur next]; cbn [select];
      destruct (getSource sl name) as [src| |]; cbn [bind]; try reflexivity.
    + now rewrite !addBottle_app.
    + exact (selectRecursive_acc (cur :: next) bot (data src)).
  - rewrite !select_composite.
    now destruct (selectChildren cs [] sl).
  - rewrite !select_root. now apply selectChildren_acc.
Qed.

(* ===================================================================== *)
(** ** update and updateModule                                            *)
(* ===================================================================== *)

Lemma updateSources_idle sl : updateSources ∅ sl = sl.
Proof.
  destruct sl as [pp sm]. unfold updateSources. simpl. f_equal.
  apply map_eq. intros name. rewrite map_lookup_imap.
  destruct (sm !! name) as [ps|]; simpl; [|reflexivity].
  now rewrite lookup_empty.
Qed.

(** X21: a tick of a configured module changes nothing but the caches:
    prefix, period and selector are kept and [true] is returned; what is
    written is what the selector appends to an empty bottle on the
    refreshed sources.  A tick at which no message is read leaves the
    whole module as it was. *)
Theorem updateModule_keeps_configuration incoming m ds :
  dataSelector m = Some ds ->
  exists m' t,
    updateModule incoming m = Ok (m', t, true)
    /\ portPrefix m' = portPrefix m
    /\ desiredPeriod m' = desiredPeriod m
    /\ dataSelector m' = Some ds
    /\ sourceList m' = updateSources incoming (sourceList m)
    /\ (forall out, t = Written out <-> select ds [] (sourceList m') = Ok out)
    /\ (incoming = ∅ -> m' = m).
Proof.
  intros Hds. unfold updateModule. rewrite Hds.
  pose proof (select_defined (updateSources incoming (sourceList m)) ds []) as Hdef.
  assert (Hidle : incoming = ∅ ->
            mkMergeModule (portPrefix m) (desiredPeriod m)
              (updateSources incoming (sourceList m)) (Some ds) = m).
  { intros ->. rewrite updateSources_idle. destruct m; simpl in *. now subst. }
  destruct (select ds [] (updateSources incoming (sourceList m))) as [out|e|] eqn:E;
    [| |congruence]; eexists _, _; (split; [reflexivity|]); simpl;
    (split; [reflexivity|]); (split; [reflexivity|]); (split; [reflexivity|]);
    (split; [reflexivity|]); (split; [|exact Hidle]);
    intros o; rewrite E; split; intros H; inversion H; reflexivity.
Qed.

Lemma updateModule_keeps_configuration_witness :
  exists m' t,
    updateModule {[ "/a" := ints [5; 6] ]}
      (mkMergeModule "/lm/merge" 1 (sl_of [("/a", [])])
         (Some (RootSelector [IndexSelector "/a" [[2]]])))
    = Ok (m', t, true)
    /\ t = Written [VInt32 6].
Proof.
  destruct (updateModule_keeps_configuration {[ "/a" := ints [5; 6] ]}
              (mkMergeModule "/lm/merge" 1 (sl_of [("/a", [])])
                 (Some (RootSelector [IndexSelector "/a" [[2]]])))
              (RootSelector [IndexSelector "/a" [[2]]]) eq_refl)
    as (m' & t & Hrun & _ & _ & _ & Hsl & Hout & _).
  exists m', t. split; [exact Hrun|].
  apply Hout. rewrite Hsl. vm_compute. reflexivity.
Defined.

Example configure_ex1 :
  configure {[ "format" := VList [VString "/a[1]"; VList [VString "/b"]];
               "frequency" := VInt32 20;
               "port" := VString "/m" ]}
    true (newMergeModule "/lm/merge") (mkNetwork {[ "/a"; "/b" ]} [])
  = (mkMergeModule "/m" 0x1.999999999999ap-5
       (mkSourceList "/m/source"
          (<["/b" := mkPortSource [] "/m/source2:i"]>
             (<["/a" := mkPortSource [] "/m/source1:i"]> ∅)))
       (Some (RootSelector [IndexSelector "/a" [[1]];
                            CompositeSelector [IndexSelector "/b" []]])),
     mkNetwork {[ "/a"; "/b"; "/m/source1:i"; "/m/source2:i"; "/m/output:o" ]}
       [("/a", "/m/source1:i"); ("/b", "/m/source2:i")],
     Ok true).
Proof. vm_compute. reflexivity. Qed.

(* ===================================================================== *)
(** ** respond                                                            *)
(* ===================================================================== *)

(** X22: [respond] leaves the configuration alone.  Whatever the
    command, the prefix, the source list and the selector of the module
    are kept, and the reply given is extended, not rewritten.  When
    [respond] returns [false] (a command it does not know, or [freq]
    without a number) the module and the reply are exactly as before. *)
Theorem respond_keeps_configuration cmd m reply m' reply' ok :
  respond cmd m reply = Ok (m', reply', ok) ->
  portPrefix m' = portPrefix m
  /\ sourceList m' = sourceList m
  /\ dataSelector m' = dataSelector m
  /\ (exists added, reply' = reply ++ added)
  /\ (ok = false -> m' = m /\ reply' = reply).
Proof.
  unfold respond.
  destruct (asVocab32 (get cmd 0) =? createVocab32 "h" "e" "l" "p").
  { intros H. inversion H; subst.
    do 3 (split; [reflexivity|]). split; [|discriminate].
    unfold addString, add. rewrite <- !app_assoc. eauto. }
  destruct (asVocab32 (get cmd 0) =? createVocab32 "i" "n" "f" "o").
  { destruct (dataSelector m) eqn:Eds; [|discriminate].
    intros H. inversion H; subst.
    do 3 (split; [first [reflexivity | assumption]|]). split; [|discriminate].
    unfold addString, add. rewrite <- !app_assoc. eauto. }
  destruct (asVocab32 (get cmd 0) =? createVocab32 "f" "r" "e" "q").
  { destruct ((1 <? Bottle_size cmd) && (isInt32 (get cmd 1) || isFloat64 (get cmd 1)));
      intros H; inversion H; subst;
      do 3 (split; [reflexivity|]);
      (split; [exists []; now rewrite app_nil_r|]);
      first [discriminate | intros _; split; reflexivity]. }
  intros H. inversion H; subst.
  do 3 (split; [reflexivity|]).
  split; [exists []; now rewrite app_nil_r | intros _; split; reflexivity].
Qed.

Lemma respond_keeps_configuration_witness :
  sourceList (newMergeModule "/lm/merge") = sourceList (newMergeModule "/lm/merge")
  /\ (exists added, [VString "old"] = [VString "old"] ++ added).
Proof.
  destruct (respond_keeps_configuration [VString "quit"] (newMergeModule "/lm/merge")
              [VString "old"] (newMergeModule "/lm/merge") [VString "old"] false
              ltac:(vm_compute; reflexivity)) as (_ & H1 & _ & H2 & _).
  split; [exact H1 | exact H2].
Defined.

(* ===================================================================== *)
(** ** configure                                                          *)
(* ===================================================================== *)

Lemma setFrequency_Ok f m m2 :
  setFrequency f m = Ok m2 ->
  PrimFloat.leb f 0 = false /\ m2 = setDesiredPeriod (1 / f)%float m.
Proof.
  unfold setFrequency. destruct (PrimFloat.leb f 0); [discriminate|].
  intros H. inversion H. auto.
Qed.


Lemma not_help opt :
  bool_decide (is_Some (opt !! "help")) = false -> (opt : gmap string Value) !! "help" = None.
Proof.
  intros H. apply bool_decide_eq_false in H.
  destruct (opt !! "help") eqn:E; [|reflexivity]. exfalso. apply H. eauto.
Qed.

(** What a successful [configure] has gone through. *)
Lemma configure_true opt opens m net m' net' :
  configure opt opens m net = (m', net', Ok true) ->
  exists l ds sl1 net1 m2,
    opt !! "help" = None
    /\ opt !! "format" = Some (VList l)
    /\ newRootSelector l = Ok ds
    /\ declareSources ds
         (setPortPrefix (portPrefix m' +:+ "/source") (sourceList m)) net
       = (sl1, net1, Ok tt)
    /\ match opt !! "frequency" with
       | Some val =>
           if isFloat64 val || isInt32 val
           then setFrequency (asFloat64 val)
                  (mkMergeModule (portPrefix m') (desiredPeriod m) sl1 (Some ds))
           else Ok (mkMergeModule (portPrefix m') (desiredPeriod m) sl1 (Some ds))
       | None => Ok (mkMergeModule (portPrefix m') (desiredPeriod m) sl1 (Some ds))
       end = Ok m2
    /\ m' = m2
    /\ portPrefix m' = match opt !! "port" with
                       | Some val => c_str (asString val)
                       | None => portPrefix m
                       end
    /\ opens = true
    /\ net' = openPort net1 (portPrefix m' +:+ "/output:o").
Proof.
  unfold configure.
  destruct (bool_decide (is_Some (opt !! "help"))) eqn:Ehelp; [discriminate|].
  apply not_help in Ehelp.
  set (pp := match opt !! "port" with Some val => c_str (asString val) | None => portPrefix m end).
  destruct (opt !! "format") as [[| | | | |l]|]; try discriminate.
  destruct (newRootSelector l) as [ds| |] eqn:Eparse; try discriminate.
  destruct (declareSources ds _ net) as [[sl1 net1] declared] eqn:Edecl.
  destruct declared as [[]| |]; try discriminate.
  set (tuned := match opt !! "frequency" with
                | Some val => if isFloat64 val || isInt32 val
                              then setFrequency (asFloat64 val) _ else Ok _
                | None => Ok _ end).
  assert (Hpp : forall m2, tuned = Ok m2 -> portPrefix m2 = pp).
  { unfold tuned. intros m2. destruct (opt !! "frequency") as [val|].
    - destruct (isFloat64 val || isInt32 val).
      + intros H. apply setFrequency_Ok in H as [_ ->]. reflexivity.
      + intros H. inversion H. reflexivity.
    - intros H. inversion H. reflexivity. }
  destruct tuned as [m2| |] eqn:Etuned; try discriminate.
  specialize (Hpp m2 eq_refl).
  destruct opens; [|discriminate].
  intros H. inversion H; subst m' net'.
  exists l, ds, sl1, net1, m2. rewrite Hpp.
  split; [exact Ehelp|]. split; [reflexivity|]. split; [exact Eparse|].
  split; [exact Edecl|]. split; [exact Etuned|]. auto.
Qed.

(** A tick keeps the selector and the sources the selector names, goes
    on, and logs nothing but "Cannot index non-list type". *)
Lemma updateModule_declared incoming m ds m1 t continue :
  dataSelector m = Some ds ->
  Forall (fun n => hasSource (sourceList m) n = true) (leafNames ds) ->
  updateModule incoming m = Ok (m1, t, continue) ->
  dataSelector m1 = Some ds
  /\ Forall (fun n => hasSource (sourceList m1) n = true) (leafNames ds)
  /\ continue = true
  /\ (forall e, t = Logged e -> e = CannotIndexNonList).
Proof.
  intros Hds Hd. unfold updateModule. rewrite Hds.
  assert (Hd' : Forall (fun n => hasSource (updateSources incoming (sourceList m)) n = true)
                  (leafNames ds)).
  { eapply Forall_impl; [exact Hd|]. intros n Hn. now rewrite hasSource_updateSources. }
  destruct (select_declared (updateSources incoming (sourceList m)) ds Hd' [])
    as [[out ->]| ->]; intros H; inversion H; subst; simpl;
    (split; [reflexivity|]); (split; [exact Hd'|]); (split; [reflexivity|]);
    intros e He; inversion He; reflexivity.
Qed.

Lemma ticks_declared ds m m1 :
  rtc tickStep m m1 ->
  dataSelector m = Some ds ->
  Forall (fun n => hasSource (sourceList m) n = true) (leafNames ds) ->
  dataSelector m1 = Some ds
  /\ Forall (fun n => hasSource (sourceList m1) n = true) (leafNames ds).
Proof.
  induction 1 as [m|m mid m1 (incoming & t & continue & Hstep) _ IH]; intros Hds Hd.
  - auto.
  - destruct (updateModule_declared _ _ _ _ _ _ Hds Hd Hstep) as (Hds' & Hd' & _).
    now apply IH.
Qed.

(** X23: what a successful [configure] leaves.  The format option was a
    list, the selector of the module is the tree parsed from it, every
    leaf of the tree has its source in the source list, and the output
    port is registered under the prefix.  From then on every tick, the
    first and every tick after any number of ticks, whatever is read at
    them, returns [true], keeps the selector and its sources, and the
    only exception it can log is "Cannot index non-list type". *)
Theorem configure_establishes opt opens m net m' net' :
  configure opt opens m net = (m', net', Ok true) ->
  exists l ds,
    opt !! "format" = Some (VList l)
    /\ newRootSelector l = Ok ds
    /\ dataSelector m' = Some ds
    /\ Forall (fun n => hasSource (sourceList m') n = true) (leafNames ds)
    /\ (portPrefix m' +:+ "/output:o") ∈ names net'
    /\ forall m1, rtc tickStep m' m1 ->
         dataSelector m1 = Some ds
         /\ Forall (fun n => hasSource (sourceList m1) n = true) (leafNames ds)
         /\ forall incoming,
              exists m2 t,
                updateModule incoming m1 = Ok (m2, t, true)
                /\ forall e, t = Logged e -> e = CannotIndexNonList.
Proof.
  intros H.
  destruct (configure_true _ _ _ _ _ _ H)
    as (l & ds & sl1 & net1 & m2 & _ & Hformat & Hparse & Hdecl & Htuned & -> & _ & _ & ->).
  assert (Hm2 : dataSelector m2 = Some ds /\ sourceList m2 = sl1).
  { destruct (opt !! "frequency") as [val|].
    - destruct (isFloat64 val || isInt32 val).
      + apply setFrequency_Ok in Htuned as [_ ->]. auto.
      + inversion Htuned. auto.
    - inversion Htuned. auto. }
  destruct Hm2 as [Hds Hsl].
  destruct (declareSources_declares _ _ _ _ _ _ Hdecl) as [_ Hd].
  specialize (Hd eq_refl). rewrite <- Hsl in Hd.
  exists l, ds. split; [exact Hformat|]. split; [exact Hparse|].
  split; [exact Hds|]. split; [exact Hd|].
  split; [apply elem_of_union_l, elem_of_singleton; reflexivity|].
  intros m1 Hticks.
  destruct (ticks_declared ds _ _ Hticks Hds Hd) as [Hds1 Hd1].
  split; [exact Hds1|]. split; [exact Hd1|].
  intros incoming.
  destruct (updateModule_returns incoming m1 ds Hds1) as (m3 & t & Hstep).
  destruct (updateModule_declared _ _ _ _ _ _ Hds1 Hd1 Hstep) as (_ & _ & _ & Ht).
  eauto.
Qed.

Lemma configure_establishes_witness :
  exists l ds,
    ({[ "format" := VList [VString "/a[1]"] ]} : gmap string Value) !! "format"
    = Some (VList l)
    /\ newRootSelector l = Ok ds.
Proof.
  destruct (configure {[ "format" := VList [VString "/a[1]"] ]} true
              (newMergeModule "/lm/merge") (mkNetwork {[ "/a" ]} []))
    as [[m' net'] r] eqn:E.
  assert (Hr : r = Ok true) by (vm_compute in E; congruence). subst r.
  destruct (configure_establishes _ _ _ _ _ _ E) as (l & ds & H1 & H2 & _).
  exists l, ds. split; [exact H1 | exact H2].
Defined.

(** X24: [configure] and the period.  When [configure] succeeds and the
    frequency option is a number [f], the test [f <= 0] of
    [setFrequency] is false for it and the period is [1 / f]; without
    the option, or with one that is no number, the period is the one the
    module had.  So no configuration with a frequency of 0 or below
    succeeds.  (The test is false for a NaN too: see
    [configure_frequency_nan].) *)
Theorem configure_frequency opt opens m net m' net' :
  configure opt opens m net = (m', net', Ok true) ->
  frequencyApplied opt m m'.
Proof.
  intros H.
  destruct (configure_true _ _ _ _ _ _ H)
    as (l & ds & sl1 & net1 & m2 & _ & _ & _ & _ & Htuned & -> & _ & _ & _).
  unfold frequencyApplied.
  destruct (opt !! "frequency") as [val|].
  - destruct (isFloat64 val || isInt32 val).
    + apply setFrequency_Ok in Htuned as [Hpos ->]. auto.
    + inversion Htuned. reflexivity.
  - inversion Htuned. reflexivity.
Qed.

Lemma configure_frequency_witness :
  frequencyApplied
    {[ "format" := VList [VString "/a[1]"]; "frequency" := VFloat64 4 ]}
    (newMergeModule "/lm/merge")
    (fst (fst (configure
                 {[ "format" := VList [VString "/a[1]"]; "frequency" := VFloat64 4 ]}
                 true (newMergeModule "/lm/merge") (mkNetwork {[ "/a" ]} [])))).
Proof.
  destruct (configure
              {[ "format" := VList [VString "/a[1]"]; "frequency" := VFloat64 4 ]}
              true (newMergeModule "/lm/merge") (mkNetwork {[ "/a" ]} []))
    as [[m' net'] r] eqn:E.
  assert (Hr : r = Ok true) by (vm_compute in E; congruence). subst r.
  apply (configure_frequency _ _ _ _ _ _ E).
Defined.

(** A frequency that is not a number is no frequency "of 0 or below":
    [configure] takes it, and the period is not a number either. *)
Example configure_frequency_nan :
  PrimFloat.leb PrimFloat.nan 0 = false
  /\ snd (configure
            {[ "format" := VList [VString "/a[1]"];
               "frequency" := VFloat64 PrimFloat.nan ]}
            true (newMergeModule "/lm/merge") (mkNetwork {[ "/a" ]} []))
     = Ok true
  /\ desiredPeriod
       (fst (fst (configure
                    {[ "format" := VList [VString "/a[1]"];
                       "frequency" := VFloat64 PrimFloat.nan ]}
                    true (newMergeModule "/lm/merge") (mkNetwork {[ "/a" ]} []))))
     = PrimFloat.nan.
Proof. repeat split; vm_compute; reflexivity. Qed.

Lemma configure_false_iff opt opens m net :
  snd (configure opt opens m net) = Ok false
  <-> (is_Some (opt !! "help") \/ opt !! "format" = None).
Proof.
  unfold configure. split.
  - destruct (bool_decide (is_Some (opt !! "help"))) eqn:Ehelp.
    { intros _. left. now apply bool_decide_eq_true in Ehelp. }
    destruct (opt !! "format") as [[| | | | |l]|]; simpl; try discriminate; auto.
    destruct (newRootSelector l) as [ds| |]; simpl; try discriminate.
    destruct (declareSources ds _ net) as [[sl1 net1] declared].
    destruct declared as [[]| |]; simpl; try discriminate.
    destruct (match opt !! "frequency" with
              | Some val => if isFloat64 val || isInt32 val
                            then setFrequency (asFloat64 val) _ else Ok _
              | None => Ok _ end) as [m2| |]; simpl; try discriminate.
    destruct opens; simpl; discriminate.
  - intros [Hhelp|Hformat].
    + now rewrite bool_decide_eq_true_2.
    + destruct (bool_decide (is_Some (opt !! "help"))); [reflexivity|].
      now rewrite Hformat.
Qed.

Lemma configure_untouched opt opens m net :
  is_Some (opt !! "help") \/ opt !! "format" = None ->
  snd (fst (configure opt opens m net)) = net
  /\ dataSelector (fst (fst (configure opt opens m net))) = dataSelector m
  /\ sourceMap (sourceList (fst (fst (configure opt opens m net))))
     = sourceMap (sourceList m).
Proof.
  unfold configure. intros [Hhelp|Hformat].
  - rewrite bool_decide_eq_true_2 by exact Hhelp. auto.
  - destruct (bool_decide (is_Some (opt !! "help"))); [auto|].
    rewrite Hformat. auto.
Qed.

(** X25: [configure] returns [false] in two cases only: the options ask
    for help, or they hold no format.  In both, no selector is built, no
    source is declared and the network is not touched. *)
Theorem configure_false opt opens m net :
  (snd (configure opt opens m net) = Ok false
   <-> (is_Some (opt !! "help") \/ opt !! "format" = None))
  /\ (snd (configure opt opens m net) = Ok false ->
      snd (fst (configure opt opens m net)) = net
      /\ dataSelector (fst (fst (configure opt opens m net))) = dataSelector m
      /\ sourceMap (sourceList (fst (fst (configure opt opens m net))))
         = sourceMap (sourceList m)).
Proof.
  split; [apply configure_false_iff|].
  intros H. apply configure_untouched.
  exact (proj1 (configure_false_iff opt opens m net) H).
Qed.

Lemma configure_false_witness :
  snd (configure {[ "frequency" := VInt32 10 ]} true
         (newMergeModule "/lm/merge") (mkNetwork ∅ [])) = Ok false.
Proof.
  apply (proj2 (proj1 (configure_false {[ "frequency" := VInt32 10 ]} true
                         (newMergeModule "/lm/merge") (mkNetwork ∅ [])))).
  right. reflexivity.
Defined.

(** X26: a format that is refused stops [configure] before anything is
    declared.  A format option that is no list throws "The format must
    be a list!"; a list that does not parse throws the error of the
    parser.  In both cases the selector of the module is the one it had,
    its sources are those it had, and the network is untouched. *)
Theorem configure_bad_format opt opens m net val :
  opt !! "help" = None ->
  opt !! "format" = Some val ->
  (isList val = false \/ exists l e, val = VList l /\ newRootSelector l = Throw e) ->
  exists m' e,
    configure opt opens m net = (m', net, Throw e)
    /\ (isList val = false -> e = FormatMustBeList)
    /\ (forall l, val = VList l -> newRootSelector l = Throw e)
    /\ dataSelector m' = dataSelector m
    /\ sourceMap (sourceList m') = sourceMap (sourceList m).
Proof.
  intros Hhelp Hformat Hbad. unfold configure.
  rewrite bool_decide_eq_false_2 by (rewrite Hhelp; intros [x Hx]; discriminate).
  rewrite Hformat.
  destruct Hbad as [Hnolist|(l & e & -> & Hparse)].
  - destruct val; try discriminate Hnolist;
      eexists _, FormatMustBeList; (split; [reflexivity|]);
      (split; [reflexivity|]); (split; [intros l Hl; discriminate Hl|]); auto.
  - rewrite Hparse. eexists _, e. split; [reflexivity|].
    split; [discriminate|]. split; [intros l' Hl'; inversion Hl'; now subst|]. auto.
Qed.

Lemma configure_bad_format_witness :
  exists m' e,
    configure {[ "format" := VList [VString "/a[2-1]"] ]} true
      (newMergeModule "/lm/merge") (mkNetwork {[ "/a" ]} [])
    = (m', mkNetwork {[ "/a" ]} [], Throw e)
    /\ (forall l, VList [VString "/a[2-1]"] = VList l -> newRootSelector l = Throw e).
Proof.
  assert (Hhelp : ({[ "format" := VList [VString "/a[2-1]"] ]} : gmap string Value)
                  !! "help" = None) by reflexivity.
  assert (Hformat : ({[ "format" := VList [VString "/a[2-1]"] ]} : gmap string Value)
                    !! "format" = Some (VList [VString "/a[2-1]"])) by reflexivity.
  destruct (configure_bad_format _ true
              (newMergeModule "/lm/merge") (mkNetwork {[ "/a" ]} [])
              (VList [VString "/a[2-1]"]) Hhelp Hformat
              (or_intror (ex_intro _ [VString "/a[2-1]"]
                 (ex_intro _ (EndOfRangeBeforeStart "2-1") (conj eq_refl eq_refl)))))
    as (m' & e & H1 & _ & H2 & _).
  exists m', e. split; [exact H1 | exact H2].
Defined.

(** X27: the frequency is checked after the sources are declared.  With
    a format that parses and sources that are all found, a frequency
    option of 0 or below makes [configure] throw "Frequency must be
    larger than 0": the period of the module stays as it was and the
    output port is not opened, but the selector is installed and the
    sources are declared already. *)
Theorem configure_bad_frequency opt opens m net l ds sl1 net1 val :
  opt !! "help" = None ->
  opt !! "format" = Some (VList l) ->
  newRootSelector l = Ok ds ->
  declareSources ds
    (setPortPrefix
       (match opt !! "port" with Some v => c_str (asString v) | None => portPrefix m end
        +:+ "/source") (sourceList m)) net
  = (sl1, net1, Ok tt) ->
  opt !! "frequency" = Some val ->
  isFloat64 val || isInt32 val = true ->
  PrimFloat.leb (asFloat64 val) 0 = true ->
  exists m',
    configure opt opens m net = (m', net1, Throw FrequencyNotPositive)
    /\ desiredPeriod m' = desiredPeriod m
    /\ dataSelector m' = Some ds
    /\ sourceList m' = sl1.
Proof.
  intros Hhelp Hformat Hparse Hdecl Hfreq Hnum Hneg. unfold configure.
  rewrite bool_decide_eq_false_2 by (rewrite Hhelp; intros [x Hx]; discriminate).
  rewrite Hformat, Hparse, Hdecl, Hfreq, Hnum.
  unfold setFrequency. rewrite Hneg.
  eexists. split; [reflexivity|]. auto.
Qed.

Lemma configure_bad_frequency_witness :
  exists m',
    configure {[ "format" := VList [VString "/a"]; "frequency" := VInt32 0 ]} true
      (newMergeModule "/lm/merge") (mkNetwork {[ "/a" ]} [])
    = (m', mkNetwork {[ "/a"; "/lm/merge/source1:i" ]} [("/a", "/lm/merge/source1:i")],
       Throw FrequencyNotPositive)
    /\ desiredPeriod m' = desiredPeriod (newMergeModule "/lm/merge").
Proof.
  destruct (configure_bad_frequency
              {[ "format" := VList [VString "/a"]; "frequency" := VInt32 0 ]} true
              (newMergeModule "/lm/merge") (mkNetwork {[ "/a" ]} [])
              [VString "/a"] (RootSelector [IndexSelector "/a" []])
              (mkSourceList "/lm/merge/source"
                 (<["/a" := mkPortSource [] "/lm/merge/source1:i"]> ∅))
              (mkNetwork {[ "/a"; "/lm/merge/source1:i" ]} [("/a", "/lm/merge/source1:i")])
              (VInt32 0))
    as (m' & H1 & H2 & _); try reflexivity.
  exists m'. split; [exact H1 | exact H2].
Defined.

(* ===================================================================== *)
(** ** declareSources on a whole tree                                     *)
(* ===================================================================== *)

(** What is kept from call to call of [addSource] is kept by
    [declareSources]. *)
Lemma declareSources_preserves (P : SourceList -> Network -> Prop) :
  (forall name sl net sl' net' r,
     P sl net -> addSource name sl net = (sl', net', r) -> P sl' net') ->
  forall ds sl net sl' net' r,
    P sl net -> declareSources ds sl net = (sl', net', r) -> P sl' net'.
Proof.
  intros Hadd.
  assert (Hcs : forall cs,
    Forall (fun c => forall sl net sl' net' r,
              P sl net -> declareSources c sl net = (sl', net', r) -> P sl' net') cs ->
    forall sl net sl' net' r,
      P sl net -> declareChildren cs sl net = (sl', net', r) -> P sl' net').
  { induction 1 as [|c cs Hc _ IH]; intros sl net sl' net' r HP; simpl.
    - intros H. inversion H; subst. exact HP.
    - destruct (declareSources c sl net) as [[sl1 net1] r1] eqn:E1.
      pose proof (Hc _ _ _ _ _ HP E1) as HP1.
      destruct r1 as [[]| |]; [apply IH; exact HP1| |];
        intros H; inversion H; subst; exact HP1. }
  induction ds as [name indices|cs IH|cs IH] using DataSelector_ind';
    intros sl net sl' net' r HP H.
  - exact (Hadd _ _ _ _ _ _ HP H).
  - exact (Hcs cs IH _ _ _ _ _ HP H).
  - exact (Hcs cs IH _ _ _ _ _ HP H).
Qed.

(** X16: the input ports are kept apart.  If the ports of the sources
    are registered names and no two sources share a port, this is so
    after [addSource], and after [declareSources] on a whole tree: the
    port of a new source is a name that was free, so it differs from
    every port in use. *)
Theorem sources_have_distinct_ports sl net :
  portsDistinct sl net ->
  (forall name sl' net' r,
     addSource name sl net = (sl', net', r) -> portsDistinct sl' net')
  /\ (forall ds sl' net' r,
        declareSources ds sl net = (sl', net', r) -> portsDistinct sl' net').
Proof.
  intros HP. split.
  - intros name sl' net' r H. exact (addSource_ports _ _ _ _ _ _ HP H).
  - intros ds sl' net' r H.
    exact (declareSources_preserves portsDistinct addSource_ports _ _ _ _ _ _ HP H).
Qed.

Lemma sources_have_distinct_ports_witness :
  portsDistinct
    (fst (fst (declareSources
                 (RootSelector [IndexSelector "/x" []; IndexSelector "/y" []])
                 (mkSourceList "/lm/merge/source" ∅)
                 (mkNetwork {[ "/x"; "/y" ]} []))))
    (snd (fst (declareSources
                 (RootSelector [IndexSelector "/x" []; IndexSelector "/y" []])
                 (mkSourceList "/lm/merge/source" ∅)
                 (mkNetwork {[ "/x"; "/y" ]} [])))).
Proof.
  destruct (declareSources
              (RootSelector [IndexSelector "/x" []; IndexSelector "/y" []])
              (mkSourceList "/lm/merge/source" ∅)
              (mkNetwork {[ "/x"; "/y" ]} [])) as [[sl' net'] r] eqn:E.
  exact (proj2 (sources_have_distinct_ports _ _ (portsDistinct_empty _ _))
           _ _ _ _ E).
Defined.

Lemma addSource_throws name sl net sl' net' e :
  addSource name sl net = (sl', net', Throw e) ->
  e = CannotFindPort name /\ hasSource sl' name = true /\ name ∉ names net'.
Proof.
  unfold addSource. destruct (hasSource sl name) eqn:Hhas; simpl; [congruence|].
  destruct (newPortSource name (sl_portPrefix sl) net) as [[ps net1]|]; [|congruence].
  unfold connect, queryName.
  destruct (bool_decide (name ∈ names net1)) eqn:E; intros H; inversion H; subst.
  split; [reflexivity|]. split; [apply hasSource_insert|].
  now apply bool_decide_eq_false in E.
Qed.

Lemma addSource_names name sl net sl' net' r :
  addSource name sl net = (sl', net', r) -> names net ⊆ names net'.
Proof.
  intros H. destruct (hasSource sl name) eqn:Hhas.
  - rewrite (addSource_registered _ _ _ Hhas) in H. now inversion H.
  - destruct (addSource_new _ _ _ _ _ _ Hhas H)
      as [(Hr & Hsl & Hnet)|(n & Hn & Hsl & Hnames)]; subst; [reflexivity|].
    rewrite Hnames. apply union_subseteq_r.
Qed.

Lemma declareChildren_throws cs :
  Forall (fun c => forall sl net sl' net' e,
            declareSources c sl net = (sl', net', Throw e) ->
            exists name, In name (leafNames c)
                         /\ e = CannotFindPort name
                         /\ hasSource sl' name = true
                         /\ name ∉ names net') cs ->
  forall sl net sl' net' e,
    declareChildren cs sl net = (sl', net', Throw e) ->
    exists name, In name (flat_map leafNames cs)
                 /\ e = CannotFindPort name
                 /\ hasSource sl' name = true
                 /\ name ∉ names net'.
Proof.
  induction 1 as [|c cs Hc _ IH]; intros sl net sl' net' e; simpl; [discriminate|].
  destruct (declareSources c sl net) as [[sl1 net1] r1] eqn:E1.
  destruct r1 as [[]|e1|].
  - intros H. destruct (IH _ _ _ _ _ H) as (name & Hin & Hrest).
    exists name. split; [apply in_or_app; now right | exact Hrest].
  - intros H. inversion H; subst.
    destruct (Hc _ _ _ _ _ E1) as (name & Hin & Hrest).
    exists name. split; [apply in_or_app; now left | exact Hrest].
  - discriminate.
Qed.

(** X28: how the declaration of a tree fails.  When [declareSources]
    throws, the error is "Cannot find requested port" for the name of
    one of the leaves; that name is not known to the name server, and
    its source is in the source list all the same. *)
Theorem declareSources_failure ds : forall sl net sl' net' e,
  declareSources ds sl net = (sl', net', Throw e) ->
  exists name, In name (leafNames ds)
               /\ e = CannotFindPort name
               /\ hasSource sl' name = true
               /\ name ∉ names net'.
Proof.
  induction ds as [name indices|cs IH|cs IH] using DataSelector_ind';
    intros sl net sl' net' e H.
  - simpl in H. destruct (addSource_throws _ _ _ _ _ _ H) as (-> & Hhas & Hfree).
    exists name. simpl. auto.
  - exact (declareChildren_throws cs IH _ _ _ _ _ H).
  - exact (declareChildren_throws cs IH _ _ _ _ _ H).
Qed.

Lemma declareSources_failure_witness :
  exists name,
    In name (leafNames (RootSelector [IndexSelector "/x" []; IndexSelector "/y" []]))
    /\ CannotFindPort "/y" = CannotFindPort name.
Proof.
  destruct (declareSources
              (RootSelector [IndexSelector "/x" []; IndexSelector "/y" []])
              (mkSourceList "/lm/merge/source" ∅)
              (mkNetwork {[ "/x" ]} [])) as [[sl' net'] r] eqn:E.
  assert (Hr : r = Throw (CannotFindPort "/y")) by (vm_compute in E; congruence).
  subst r.
  destruct (declareSources_failure _ _ _ _ _ _ E) as (name & Hin & He & _).
  exists name. split; [exact Hin | exact He].
Defined.
